(** * Epidemic simulation engines: a shallow embedding

    Two Python scripts are modelled here.

    - [ui_advance.py]: a discrete-time stochastic SIR process on a contact
      graph ([initialize_network], [run_simulation]).
    - [ui_basic.py]: the right-hand side of the SIRV ordinary differential
      equation ([virus_survival_factor], [mobility_factor],
      [effective_beta], [sirv_ode]).

    Conventions of the embedding.

    - A Python [float] that the program only compares with other numbers
      (the probabilities [beta], [gamma] and [p], and the draws of the
      generator) is a rational number of [Q]: a comparison of floats does
      not round.
    - A Python [float] that the program computes with is modelled twice.
      The model of the program is on the binary64 numbers of the kernel
      ([UiBasic64] for [ui_basic.py], [UiAdvance64] for the sample size of
      [initialize_network]): the operations round to nearest, overflow to
      an infinity and give NaN as Python's do.  The model of the formulas
      is on the rationals ([UiBasic], and the sample size of
      [UiAdvance.initialize_network]): the arithmetic is exact, and
      equalities are stated with [Qeq] ([==]).  A property that is stated
      on the rationals is a property of the formulas in exact arithmetic,
      or one that does not depend on how the product is rounded.
    - A Python [dict] from nodes to one-character strings is a
      [gmap nat string]; reading a missing key raises [KeyError].
    - The process-wide generator of the [random] module is an explicit
      state, threaded through every function that draws from it.
    - An exception is a value of [exn]; a function that may raise returns
      a [result]. *)

From Stdlib Require Import ZArith QArith Qminmax Qround Floats Lqa.
From stdpp Require Import gmap strings list fin_maps.

Local Open Scope Z_scope.
Local Open Scope nat_scope.

(** ** Rational comparisons used for float comparisons *)

(** [x < y] on floats, as a boolean. *)
Definition Qltb (x y : Q) : bool := negb (Qle_bool y x).

Module UiAdvance.

(** ** Exceptions and the state-and-error monad *)

Definition node := nat.

(** [KeyError]: [d[k]] on a dict without the key [k].  [ValueError]:
    [random.sample] asked for more than the population, or [int] of a NaN.
    [OverflowError]: [int] of an infinity, or an int too large for a float.
    [NetworkXError]: [G.neighbors(k)] for a node that is not in [G]. *)
Inductive exn : Type :=
  | KeyError (k : node)
  | ValueError
  | OverflowError
  | NetworkXError (k : node).

Inductive result (A : Type) : Type :=
  | Ok (a : A)
  | Raise (e : exn).
Arguments Ok {A} a.
Arguments Raise {A} e.

(** A computation that reads and advances the generator state [R] and either
    returns a value with the new generator state or raises. *)
Definition M (R A : Type) : Type := R → result (A * R).

Definition ret {R A} (a : A) : M R A := λ r, Ok (a, r).

Definition bind {R A B} (m : M R A) (k : A → M R B) : M R B :=
  λ r, match m r with
       | Ok (a, r') => k a r'
       | Raise e => Raise e
       end.

Definition raise {R A} (e : exn) : M R A := λ _, Raise e.

Declare Scope sim_scope.
Delimit Scope sim_scope with sim.
Notation "'do' x <- m ; k" := (bind m (λ x, k))
  (at level 10, x name, m at level 100, k at level 200) : sim_scope.
Local Open Scope sim_scope.

(** A [for] loop that updates a loop state [a] over the elements of [l], in
    order; an exception raised by the body leaves the loop. *)
Fixpoint foldM {R A B} (f : A → B → M R A) (a : A) (l : list B) : M R A :=
  match l with
  | [] => ret a
  | b :: l' => do a' <- f a b; foldM f a' l'
  end.

(** ** The random source

    [random r] is [random.random()]: a draw in [[0,1)] and the next state.
    [sample_idx n k r] gives the positions that [random.sample] selects in a
    population of [n] elements when asked for [k <= n] of them: [k] pairwise
    distinct positions below [n].  How the positions depend on the state is
    left open, as is the generator itself. *)
Class RandomSource (R : Type) : Type := {
  random : R → Q * R;
  sample_idx : nat → nat → R → list nat * R;
  random_unit : ∀ r, (0 <= (random r).1)%Q ∧ ((random r).1 < 1)%Q;
  sample_idx_length : ∀ n k r, k ≤ n → length (sample_idx n k r).1 = k;
  sample_idx_NoDup : ∀ n k r, k ≤ n → NoDup (sample_idx n k r).1;
  sample_idx_lt : ∀ n k r, k ≤ n → Forall (λ i, i < n) (sample_idx n k r).1;
}.

(** ** Graphs and node states *)

(** A [networkx.Graph], as its adjacency structure: the nodes in insertion
    order, each with its neighbours in insertion order. *)
Definition Graph := list (node * list node).

(** [G.nodes()] *)
Definition nodes (G : Graph) : list node := G.*1.

Fixpoint adj_lookup (G : Graph) (u : node) : option (list node) :=
  match G with
  | [] => None
  | (v, ns) :: G' => if decide (u = v) then Some ns else adj_lookup G' u
  end.

(** Invariants of a [networkx.Graph]: the nodes are the keys of a dict, so
    they are pairwise distinct, and every neighbour is itself a node. *)
Definition graph_wf (G : Graph) : Prop :=
  NoDup (nodes G) ∧
  Forall (λ e, Forall (λ v, v ∈ nodes G) e.2) G.

(** A state map mentions every node of the graph. *)
Definition covers (G : Graph) (st : gmap node string) : Prop :=
  Forall (λ u, is_Some (st !! u)) (nodes G).

(** Every value of a state map is one of ['S'], ['I'], ['R']. *)
Definition sir_valued (st : gmap node string) : Prop :=
  map_Forall (λ _ x, x = "S" ∨ x = "I" ∨ x = "R") st.

(** [sum(1 for v in status.values() if v == s)] *)
Definition count_status (s : string) (st : gmap node string) : nat :=
  length (filter (λ kv, kv.2 = s) (map_to_list st)).

(** What one draw of a step decides: the infected node [u] recovers, or the
    infected node [u] transmits to its susceptible neighbour [v]. *)
Inductive event : Type :=
  | Recover (u : node)
  | Transmit (u v : node).

(** The effect of a decision on a state map. *)
Definition commit (st : gmap node string) (e : event) : gmap node string :=
  match e with
  | Recover u => <[u := "R"]> st
  | Transmit _ v => <[v := "I"]> st
  end.

(** The value or exception of a run, without the final generator state. *)
Definition outcome {R A} (x : result (A * R)) : result A :=
  match x with
  | Ok (a, _) => Ok a
  | Raise e => Raise e
  end.

Section Engine.
Context {R : Type} `{!RandomSource R}.

(** [random.random()] *)
Definition rand : M R Q := λ r, Ok (random r).

(** [random.sample(population, k)]: raises [ValueError] unless
    [0 <= k <= len(population)].  The selected elements are returned in the
    order in which their positions were drawn. *)
Definition sample (population : list node) (k : Z) : M R (list node) :=
  λ r,
    if bool_decide (0 ≤ k ∧ k ≤ Z.of_nat (length population))%Z then
      let '(idx, r') := sample_idx (length population) (Z.to_nat k) r in
      Ok (omap (λ i, population !! i) idx, r')
    else Raise ValueError.

(** [d[k]] *)
Definition getitem (d : gmap node string) (k : node) : M R string :=
  match d !! k with
  | Some v => ret v
  | None => raise (KeyError k)
  end.

(** [G.neighbors(u)] *)
Definition neighbors (G : Graph) (u : node) : M R (list node) :=
  match adj_lookup G u with
  | Some ns => ret ns
  | None => raise (NetworkXError u)
  end.

(** *** One time step: lines 34 to 45 of [run_simulation] *)

(** Body of the inner loop:
    [if curr[nbr] == 'S' and random.random() < beta: new[nbr] = 'I'].
    The draw is made only when the neighbour is susceptible in [curr]. *)
Definition visit_nbr (curr : gmap node string) (beta : Q)
    (new : gmap node string) (nbr : node) : M R (gmap node string) :=
  do s <- getitem curr nbr;
  if decide (s = "S") then
    do x <- rand;
    if Qltb x beta then ret (<[nbr := "I"]> new) else ret new
  else ret new.

(** Body of the outer loop, for one [node] of [G.nodes()]. *)
Definition visit_node (G : Graph) (curr : gmap node string) (beta gamma : Q)
    (new : gmap node string) (u : node) : M R (gmap node string) :=
  do s <- getitem curr u;
  if decide (s = "I") then
    do x <- rand;
    if Qltb x gamma then ret (<[u := "R"]> new)
    else
      do nbrs <- neighbors G u;
      foldM (visit_nbr curr beta) new nbrs
  else ret new.

(** [new = curr.copy()], then the loop over [G.nodes()]; the value is the
    [new] that becomes the next [curr]. *)
Definition step (G : Graph) (curr : gmap node string) (beta gamma : Q)
    : M R (gmap node string) :=
  foldM (visit_node G curr beta gamma) curr (nodes G).

(** *** [run_simulation] *)

(** The loop [for t in range(T)]: append a copy of [curr] to [history], then
    advance [curr] by one step.  The step after the last recorded snapshot
    is still computed. *)
Fixpoint simulate (G : Graph) (beta gamma : Q) (T : nat)
    (history : list (gmap node string)) (curr : gmap node string)
    : M R (list (gmap node string)) :=
  match T with
  | O => ret history
  | S T' =>
      do new <- step G curr beta gamma;
      simulate G beta gamma T' (history ++ [curr]) new
  end.

Definition run_simulation (G : Graph) (status0 : gmap node string)
    (beta gamma : Q) (max_steps : Z) : M R (list (gmap node string)) :=
  simulate G beta gamma (Z.to_nat ((max_steps + 1) * 5)) [] status0.

(** [step] applied [i] times, each application drawing from the generator
    state left by the one before. *)
Fixpoint step_n (G : Graph) (beta gamma : Q) (i : nat)
    (st : gmap node string) : M R (gmap node string) :=
  match i with
  | O => ret st
  | S i' => do st' <- step G st beta gamma; step_n G beta gamma i' st'
  end.

(** *** The step as the specification describes it

    The specification asks that every decision of a step be read from the
    frozen state [curr]: first all decisions are taken, none of them
    looking at the state under construction, and then they are committed.
    [decisions] makes the draws of [step] in the same order and records
    what each draw decides. *)

Definition decisions_nbr (curr : gmap node string) (beta : Q) (u : node)
    (evs : list event) (nbr : node) : M R (list event) :=
  do s <- getitem curr nbr;
  if decide (s = "S") then
    do x <- rand;
    if Qltb x beta then ret (evs ++ [Transmit u nbr]) else ret evs
  else ret evs.

Definition decisions_node (G : Graph) (curr : gmap node string)
    (beta gamma : Q) (evs : list event) (u : node) : M R (list event) :=
  do s <- getitem curr u;
  if decide (s = "I") then
    do x <- rand;
    if Qltb x gamma then ret (evs ++ [Recover u])
    else
      do nbrs <- neighbors G u;
      foldM (decisions_nbr curr beta u) evs nbrs
  else ret evs.

Definition decisions (G : Graph) (curr : gmap node string) (beta gamma : Q)
    : M R (list event) :=
  foldM (decisions_node G curr beta gamma) [] (nodes G).

Definition step_frozen (G : Graph) (curr : gmap node string)
    (beta gamma : Q) : M R (gmap node string) :=
  do evs <- decisions G curr beta gamma;
  ret (foldl commit curr evs).

(** *** [initialize_network] *)

(** [itertools.combinations(range(n), 2)]: the pairs [(u, v)] with
    [u < v < n], in lexicographic order. *)
Definition combinations2 (n : nat) : list (node * node) :=
  u ← seq 0 n; (λ v, (u, v)) <$> seq (S u) (n - S u).

(** The graph on the nodes [0 .. n-1] with the given edges.  networkx keeps
    the neighbours of a node in the order the edges were added; with the
    edges added in the order of [combinations2] that order is ascending. *)
Definition graph_of_edges (n : nat) (es : list (node * node)) : Graph :=
  (λ u, (u, filter (λ v, (u, v) ∈ es ∨ (v, u) ∈ es) (seq 0 n))) <$> seq 0 n.

(** [if seed.random() < p] then the edge [e] is added to [G]. *)
Definition keep_edge (p : Q) (es : list (node * node)) (e : node * node)
    : M R (list (node * node)) :=
  do x <- rand;
  if Qltb x p then ret (es ++ [e]) else ret es.

(** [networkx.erdos_renyi_graph(n, p)], which draws from the generator of
    the [random] module when no seed is given: no edge for [p <= 0], every
    edge for [p >= 1], and otherwise one draw for each pair of nodes. *)
Definition erdos_renyi_graph (n : nat) (p : Q) : M R Graph :=
  if Qle_bool p 0 then ret (graph_of_edges n [])
  else if Qle_bool 1 p then ret (graph_of_edges n (combinations2 n))
  else
    do es <- foldM (keep_edge p) [] (combinations2 n);
    ret (graph_of_edges n es).

(** [int(x)] on a float: truncation toward zero. *)
Definition py_int (x : Q) : Z := Z.quot (Qnum x) (Z.pos (Qden x)).

(** The size of the initial infected set: [max(1, int(init_frac * n))].
    The product is exact here; binary64 rounds it to the nearest float
    before the truncation, which [UiAdvance64.initial_infected] models. *)
Definition initial_infected (n : nat) (init_frac : Q) : Z :=
  Z.max 1 (py_int (init_frac * inject_Z (Z.of_nat n))).

Definition initialize_network (n : nat) (p init_frac : Q)
    : M R (Graph * gmap node string) :=
  do G <- erdos_renyi_graph n p;
  let status := foldl (λ st u, <[u := "S"]> st) ∅ (nodes G) in
  do infected <- sample (nodes G) (initial_infected n init_frac);
  ret (G, foldl (λ st u, <[u := "I"]> st) status infected).

End Engine.

(** ** What the specification says about the infected count *)

(** [round(x)] of Python 3 on a float: the nearest integer, a tie going to
    the even neighbour. *)
Definition py_round (x : Q) : Z :=
  let f := Qfloor x in
  let d := (x - inject_Z f)%Q in
  if Qltb d (1 # 2) then f
  else if Qltb (1 # 2) d then (f + 1)%Z
  else if Z.even f then f else (f + 1)%Z.

(** The size of the initial infected set as the specification words it:
    [max(1, round(init_infected_fraction * n))]. *)
Definition spec_initial_infected (n : nat) (init_frac : Q) : Z :=
  Z.max 1 (py_round (init_frac * inject_Z (Z.of_nat n))).

(** ** Vocabulary of the properties *)

(** [trans curr new]: at every key, [new] either agrees with [curr], or
    turns an ['I'] of [curr] into ['R'], or an ['S'] of [curr] into ['I']. *)
Definition trans (curr new : gmap node string) : Prop :=
  ∀ v, new !! v = curr !! v
     ∨ (curr !! v = Some "I" ∧ new !! v = Some "R")
     ∨ (curr !! v = Some "S" ∧ new !! v = Some "I").

(** [advances s s']: a node recovered in [s] is recovered in [s'], and a
    node infected in [s] is infected or recovered in [s']. *)
Definition advances (s s' : gmap node string) : Prop :=
  ∀ v, (s !! v = Some "R" → s' !! v = Some "R") ∧
       (s !! v = Some "I" → s' !! v = Some "I" ∨ s' !! v = Some "R").

(** The key a decision writes and the value it writes there. *)
Definition target (e : event) : node :=
  match e with Recover u => u | Transmit _ v => v end.

Definition value (e : event) : string :=
  match e with Recover _ => "R" | Transmit _ _ => "I" end.

Definition source (e : event) : node :=
  match e with Recover u => u | Transmit u _ => u end.

(** A decision is sound: its source is infected in [curr], and a
    transmission goes to a neighbour of the source that is susceptible in
    [curr]. *)
Definition event_ok (G : Graph) (curr : gmap node string) (e : event) : Prop :=
  curr !! source e = Some "I" ∧
  match e with
  | Recover _ => True
  | Transmit u v =>
      curr !! v = Some "S" ∧ ∃ ns, adj_lookup G u = Some ns ∧ v ∈ ns
  end.

(** The decisions taken at one node: none, or its recovery alone, or
    transmissions alone. *)
Definition node_events (G : Graph) (curr : gmap node string) (u : node)
    (d : list event) : Prop :=
  d = [Recover u] ∧ curr !! u = Some "I" ∨
  Forall (λ e, (∃ v, e = Transmit u v) ∧ event_ok G curr e) d.

(** The decisions taken along a list of nodes. *)
Inductive events_of (G : Graph) (curr : gmap node string)
    : list node → list event → Prop :=
  | events_of_nil : events_of G curr [] []
  | events_of_cons u l d1 d2 :
      node_events G curr u d1 → events_of G curr l d2 →
      events_of G curr (u :: l) (d1 ++ d2).

(** What the decisions [evs] taken on [curr] make of the next state [new]:
    - a node that recovers was infected, ends ['R'] and transmits to nobody;
    - an infected node that does not recover ends ['I'];
    - a transmission goes from an infected node to a susceptible neighbour,
      which ends ['I'];
    - a susceptible node that receives no transmission ends ['S'];
    - a node that is not infected in [curr], even if it is infected in
      [new], takes no decision;
    - a node no decision writes keeps its value. *)
Definition frozen_outcome (G : Graph) (curr : gmap node string)
    (evs : list event) (new : gmap node string) : Prop :=
  (∀ u, Recover u ∈ evs →
        curr !! u = Some "I" ∧ new !! u = Some "R" ∧
        ∀ v, Transmit u v ∉ evs) ∧
  (∀ u, curr !! u = Some "I" → Recover u ∉ evs → new !! u = Some "I") ∧
  (∀ u v, Transmit u v ∈ evs →
        curr !! u = Some "I" ∧ curr !! v = Some "S" ∧
        (∃ ns, adj_lookup G u = Some ns ∧ v ∈ ns) ∧
        new !! v = Some "I") ∧
  (∀ v, curr !! v = Some "S" → (∀ u, Transmit u v ∉ evs) →
        new !! v = Some "S") ∧
  (∀ v, curr !! v ≠ Some "I" →
        (Recover v ∉ evs) ∧ (∀ w, Transmit v w ∉ evs)) ∧
  (∀ v, (∀ e, e ∈ evs → target e ≠ v) → new !! v = curr !! v).

(** The state map that [initialize_network] builds on [n] nodes from the
    sampled nodes [infected]. *)
Definition status_of (n : nat) (infected : list node) : gmap node string :=
  foldl (λ st u, <[u := "I"]> st)
        (foldl (λ st u, <[u := "S"]> st) ∅ (seq 0 n)) infected.

(** A probability brought back into [[0,1]]. *)
Definition clamp01 (x : Q) : Q :=
  if Qltb x 0 then 0%Q else if Qltb 1 x then 1%Q else x.

(** Two results agree up to a relation [sim] on generator states: the same
    value with related generator states, or the same exception. *)
Definition agree {R1 R2 A} (sim : R1 → R2 → Prop)
    (x : result (A * R1)) (y : result (A * R2)) : Prop :=
  match x, y with
  | Ok (a, r1), Ok (b, r2) => a = b ∧ sim r1 r2
  | Raise e1, Raise e2 => e1 = e2
  | _, _ => False
  end.

End UiAdvance.

(** ** The sample size of [initialize_network], in binary64

    Line 23 computes [max(1, int(init_frac * n))] on a float [init_frac]
    and an int [n]: the int is converted to a float, the product is rounded
    to binary64, and [int] truncates the rounded product. *)
Module UiAdvance64.
Import UiAdvance.
Local Open Scope sim_scope.

(** [float(n)] for a Python [int], as the multiplication converts it: the
    nearest binary64 number, a tie going to the even mantissa, and
    [OverflowError] when that is beyond the largest finite float. *)
Definition py_float (n : Z) : result float :=
  match binary_normalize prec emax n 0 false with
  | S754_infinity _ => Raise OverflowError
  | x => Ok (SF2Prim x)
  end.

(** [int(x)] for a float: truncation toward zero, [ValueError] for a NaN
    and [OverflowError] for an infinity. *)
Definition py_int (x : float) : result Z :=
  match Prim2SF x with
  | S754_nan => Raise ValueError
  | S754_infinity _ => Raise OverflowError
  | S754_zero _ => Ok 0%Z
  | S754_finite s m e => Ok (cond_Zopp s (Z.shiftl (Z.pos m) e))
  end.

(** [max(1, int(init_frac * n))] *)
Definition initial_infected (n : nat) (init_frac : float) : result Z :=
  match py_float (Z.of_nat n) with
  | Raise e => Raise e
  | Ok fn =>
      match py_int (init_frac * fn) with
      | Raise e => Raise e
      | Ok k => Ok (Z.max 1 k)
      end
  end.

Section Engine.
Context {R : Type} `{!RandomSource R}.

(** A value or an exception that draws nothing. *)
Definition lift {A} (x : result A) : M R A :=
  match x with
  | Ok a => ret a
  | Raise e => raise e
  end.

(** [initialize_network(n, p, init_frac)]: the graph is built and the
    state map filled with ['S'] before the arguments of [random.sample]
    are evaluated. *)
Definition initialize_network (n : nat) (p : Q) (init_frac : float)
    : M R (Graph * gmap node string) :=
  do G <- erdos_renyi_graph n p;
  let status := foldl (λ st u, <[u := "S"]> st) ∅ (nodes G) in
  do k <- lift (initial_infected n init_frac);
  do infected <- sample (nodes G) k;
  ret (G, foldl (λ st u, <[u := "I"]> st) status infected).

End Engine.

End UiAdvance64.

(** ** Vocabulary for the rounding of binary64 *)
Module Rounding.

(** [shifted k mrs mrs']: the mantissa of [mrs'] is the one of [mrs] shifted
    right by [k] bits; when [mrs'] is not exact, either [mrs] was not, or
    bits were lost. *)
Definition shifted (k : Z) (mrs mrs' : shr_record) : Prop :=
  shr_m mrs' = (shr_m mrs / 2 ^ k)%Z ∧
  (shr_r mrs' || shr_s mrs' = true →
   shr_r mrs || shr_s mrs = true ∨ (shr_m mrs' * 2 ^ k < shr_m mrs)%Z).

End Rounding.

Module UiBasic.
Local Open Scope Q_scope.

(** ** The SIRV rate function of [ui_basic.py] *)

(** [1 + alpha * max(0, T0 - temperature_c)].  [Qmax 0 x] is [x] when
    [0 < x] and its first argument [0] otherwise, as Python's [max(0, x)]. *)
Definition virus_survival_factor (temperature_c T0 alpha : Q) : Q :=
  1 + alpha * Qmax 0 (T0 - temperature_c).

Definition mobility_factor (mobility_index : Q) : Q := mobility_index.

Definition effective_beta (base_beta temp mob T0 alpha : Q) : Q :=
  base_beta * virus_survival_factor temp T0 alpha * mobility_factor mob.

(** The [params] dict, which always has these seven keys. *)
Record Params : Type := {
  base_beta : Q;
  gamma : Q;
  vaccine_efficacy : Q;
  temperature_c : Q;
  mobility_index : Q;
  T0 : Q;
  alpha : Q;
}.

(** [sirv_ode(t, y, params)], with [y] unpacked into its four components
    (the infected count [I] is written [I_], [I] being taken in Rocq).
    The division by [N] is undefined for [N = 0] ([ZeroDivisionError] on
    Python floats, a non-finite value on numpy scalars): the model gives
    [None] there. *)
Definition sirv_ode (t : Q) (y : Q * Q * Q * Q) (params : Params)
    : option (Q * Q * Q * Q) :=
  let '(Su, Sv, I_, R) := y in
  let N := Su + Sv + I_ + R in
  let beta :=
    effective_beta (base_beta params) (temperature_c params)
      (mobility_index params) (T0 params) (alpha params) in
  if Qeq_bool N 0 then None
  else
    let lambda_u := beta * I_ / N in
    let lambda_v := lambda_u * (1 - vaccine_efficacy params) in
    let dSu := - lambda_u * Su in
    let dSv := - lambda_v * Sv in
    let dI := lambda_u * Su + lambda_v * Sv - gamma params * I_ in
    let dR := gamma params * I_ in
    Some (dSu, dSv, dI, dR).

End UiBasic.

Module UiBasic64.
Local Open Scope float_scope.

(** ** The SIRV rate function of [ui_basic.py], in binary64

    The same four functions, on the floating-point numbers the program
    computes with.  The integer literals [0] and [1] of the source are
    converted to floats by the operations they take part in. *)

(** [max(0, d)] is [d] when [d > 0] and [0] otherwise, also for a NaN. *)
Definition virus_survival_factor (temperature_c T0 alpha : float) : float :=
  let d := T0 - temperature_c in
  1 + alpha * (if 0 <? d then d else 0).

Definition mobility_factor (mobility_index : float) : float := mobility_index.

Definition effective_beta (base_beta temp mob T0 alpha : float) : float :=
  base_beta * virus_survival_factor temp T0 alpha * mobility_factor mob.

Record Params : Type := {
  base_beta : float;
  gamma : float;
  vaccine_efficacy : float;
  temperature_c : float;
  mobility_index : float;
  T0 : float;
  alpha : float;
}.

Definition sirv_ode (t : float) (y : float * float * float * float)
    (params : Params) : option (float * float * float * float) :=
  let '(Su, Sv, I_, R) := y in
  let N := Su + Sv + I_ + R in
  let beta :=
    effective_beta (base_beta params) (temperature_c params)
      (mobility_index params) (T0 params) (alpha params) in
  if N =? 0 then None
  else
    let lambda_u := beta * I_ / N in
    let lambda_v := lambda_u * (1 - vaccine_efficacy params) in
    let dSu := - lambda_u * Su in
    let dSv := - lambda_v * Sv in
    let dI := lambda_u * Su + lambda_v * Sv - gamma params * I_ in
    let dR := gamma params * I_ in
    Some (dSu, dSv, dI, dR).

(** The exact value of a finite float, as a rational. *)
Definition to_Q (x : float) : Q :=
  match Prim2SF x with
  | S754_finite s m e =>
      ((if s then -1 else 1) * inject_Z (Z.pos m) * Qpower 2 e)%Q
  | _ => 0%Q
  end.

End UiBasic64.

(** ** A small concrete random source

    A linear congruential generator on sixteen states, used to run the
    engine on concrete inputs.  A draw is [s/16]; a sample of [k] out of
    [n] positions is a window of [k] consecutive positions. *)
Module Lcg.

Definition next (s : nat) : nat := (5 * s + 3) mod 16.

Definition draw (s : nat) : Q * nat := (Z.of_nat (s mod 16) # 16, next s).

Definition window (n k s : nat) : list nat * nat :=
  (seq (s mod (n - k + 1)) k, next s).

End Lcg.

(** ** Concrete inputs

    A star on three nodes whose centre is infected, and the generator
    state [5]. *)
Module Inputs.

Definition star3 : UiAdvance.Graph := [(0, [1; 2]); (1, [0]); (2, [0])].

Definition status3 : gmap UiAdvance.node string :=
  <[0 := "I"]> (<[1 := "S"]> (<[2 := "S"]> ∅)).

Definition seed5 : nat := 5.

End Inputs.

(** ** The rest of [ui_advance.py]: the script around the two functions *)

Module UiAdvanceScript.
Import UiAdvance.
Local Open Scope sim_scope.


Section Script.
Context {R : Type} `{!RandomSource R}.

(** Lines 49 and 50: [G, init_status = initialize_network(...)] and
    [history = run_simulation(G, init_status, beta, gamma, steps)]. *)
Definition build_and_simulate (num_nodes : nat)
    (edge_prob beta gamma init_inf_frac : Q) (steps : Z)
    : M R (Graph * list (gmap node string)) :=
  do gs <- initialize_network num_nodes edge_prob init_inf_frac;
  do history <- run_simulation gs.1 gs.2 beta gamma steps;
  ret (gs.1, history).

End Script.

(** Line 60, the colour of one marker:
    ["#1f77b4" if status[n]=='S' else "#d62728" if status[n]=='I' else
    "#2ca02c"]. *)
Definition color (s : string) : string :=
  if decide (s = "S") then "#1f77b4"
  else if decide (s = "I") then "#d62728"
  else "#2ca02c".

(** Line 60, the list comprehension over [G.nodes()]; [status[n]] raises
    [KeyError] on a missing node, which is [None] here. *)
Definition colors (G : Graph) (status : gmap node string)
    : option (list string) :=
  mapM (λ n, color <$> status !! n) (nodes G).

End UiAdvanceScript.

(** ** The rest of [ui_basic.py]: the initial state of the integration *)

Module UiBasicScript.
Local Open Scope Q_scope.



End UiBasicScript.

(** ** Vocabulary of the further properties *)

Module Spread.
Import UiAdvance.

(** A list of decisions cut into one chunk for each node of a list, every
    chunk satisfying [P] at its node. *)
Inductive chunks (P : node → list event → Prop)
    : list node → list event → Prop :=
  | chunks_nil : chunks P [] []
  | chunks_cons u l d1 d2 :
      P u d1 → chunks P l d2 → chunks P (u :: l) (d1 ++ d2).

(** The decisions taken at the node [u] and what they tell about [beta] and
    [gamma], a draw being at least 0 and below 1: a node that is not
    infected decides nothing; an infected node recovers, and then [gamma] is
    positive, or it does not, and then [gamma] is below 1, every
    transmission goes to a susceptible neighbour with [beta] positive, and
    a susceptible neighbour is missed only when [beta] is below 1. *)
Definition node_draws (G : Graph) (curr : gmap node string) (beta gamma : Q)
    (u : node) (d : list event) : Prop :=
  (curr !! u ≠ Some "I" → d = []) ∧
  (curr !! u = Some "I" →
     (d = [Recover u] ∧ (0 < gamma)%Q) ∨
     ((gamma < 1)%Q ∧
      ∃ ns, adj_lookup G u = Some ns ∧
        Forall (λ e, ∃ v, e = Transmit u v ∧ v ∈ ns ∧
                          curr !! v = Some "S" ∧ (0 < beta)%Q) d ∧
        ∀ v, v ∈ ns → curr !! v = Some "S" →
             Transmit u v ∈ d ∨ (beta < 1)%Q)).

(** No node is infected in the passage from [s] to [s']: every key keeps
    its value or goes from ['I'] to ['R']. *)
Definition no_infection (s s' : gmap node string) : Prop :=
  ∀ v, s' !! v = s !! v ∨ (s !! v = Some "I" ∧ s' !! v = Some "R").

(** No node recovers in the passage from [s] to [s']: every key keeps its
    value or goes from ['S'] to ['I']. *)
Definition no_recovery (s s' : gmap node string) : Prop :=
  ∀ v, s' !! v = s !! v ∨ (s !! v = Some "S" ∧ s' !! v = Some "I").

(** No node of the graph is infected in [s]. *)
Definition disease_free (G : Graph) (s : gmap node string) : Prop :=
  ∀ u, u ∈ nodes G → s !! u ≠ Some "I".

(** The set [X] of nodes is closed under contacts: whoever has a node of
    [X] among its neighbours is in [X]. *)
Definition contact_closed (G : Graph) (X : node → Prop) : Prop :=
  ∀ u ns v, adj_lookup G u = Some ns → v ∈ ns → X v → X u.

End Spread.

(** ** Further concrete inputs *)

Module MoreInputs.

(** The star of [Inputs] with a fourth node that has no contact. *)
Definition star_and_isolated : UiAdvance.Graph :=
  [(0, [1; 2]); (1, [0]); (2, [0]); (3, [])].

Definition status4 : gmap UiAdvance.node string :=
  <[3 := "S"]> Inputs.status3.




End MoreInputs.

(** * Properties *)

(** ** Float comparisons *)

Lemma Qltb_true (x y : Q) : Qltb x y = true ↔ (x < y)%Q.
Proof.
  unfold Qltb. rewrite negb_true_iff. split.
  - intros H. apply Qnot_le_lt. intros Hle.
    apply Qle_bool_iff in Hle. congruence.
  - intros H. destruct (Qle_bool y x) eqn:E; [|done].
    apply Qle_bool_iff in E. exfalso. by apply (Qlt_not_le x y).
Qed.

Lemma Qltb_false (x y : Q) : Qltb x y = false ↔ (y <= x)%Q.
Proof.
  unfold Qltb. rewrite negb_false_iff. apply Qle_bool_iff.
Qed.

(** ** The concrete random source meets the contract *)

Lemma draw_unit s : (0 <= (Lcg.draw s).1)%Q ∧ ((Lcg.draw s).1 < 1)%Q.
Proof.
  unfold Lcg.draw, Qle, Qlt; simpl.
  pose proof (Nat.mod_upper_bound s 16). lia.
Qed.

Lemma window_length n k s : k ≤ n → length (Lcg.window n k s).1 = k.
Proof. intros _. apply length_seq. Qed.

Lemma window_NoDup n k s : k ≤ n → NoDup (Lcg.window n k s).1.
Proof. intros _. apply NoDup_seq. Qed.

Lemma window_lt n k s : k ≤ n → Forall (λ i, i < n) (Lcg.window n k s).1.
Proof.
  intros Hk. apply Forall_forall. intros i Hi. simpl in Hi.
  apply elem_of_seq in Hi.
  pose proof (Nat.mod_upper_bound s (n - k + 1)). lia.
Qed.

#[export] Instance lcg_source : UiAdvance.RandomSource nat := {|
  UiAdvance.random := Lcg.draw;
  UiAdvance.sample_idx := Lcg.window;
  UiAdvance.random_unit := draw_unit;
  UiAdvance.sample_idx_length := window_length;
  UiAdvance.sample_idx_NoDup := window_NoDup;
  UiAdvance.sample_idx_lt := window_lt;
|}.

(** ** Binary64 arithmetic

    Facts on the rounding of the binary64 numbers of the kernel, read on
    their specification [spec_float]: the sign and the size of a rounded
    result, the sign of a difference, and the products and sums with a
    zero. *)

Section Binary64.
Import UiAdvance Rounding.
Local Open Scope Z_scope.

Lemma digits2_pos_bounds (m : positive) :
  2 ^ (Z.pos (digits2_pos m) - 1) ≤ Z.pos m < 2 ^ Z.pos (digits2_pos m).
Proof.
  induction m as [m IH|m IH|]; simpl digits2_pos; [| |done];
    rewrite Pos2Z.inj_succ;
    replace (Z.succ (Z.pos (digits2_pos m)) - 1)
      with (Z.succ (Z.pos (digits2_pos m) - 1)) by lia;
    rewrite !Z.pow_succ_r by lia; lia.
Qed.

Lemma bounded_inv m e :
  bounded prec emax m e = true →
  Z.pos (digits2_pos m) ≤ 53 ∧ -1074 ≤ e ≤ 971 ∧
  (-1074 < e → Z.pos (digits2_pos m) = 53).
Proof.
  unfold bounded, canonical_mantissa, fexp, SpecFloat.emin, prec, emax.
  intros [H1%Z.eqb_eq H2%Z.leb_le]%andb_true_iff. lia.
Qed.

Lemma bounded_mantissa m e :
  bounded prec emax m e = true →
  Z.pos m < 2 ^ 53 ∧ (-1074 < e → 2 ^ 52 ≤ Z.pos m).
Proof.
  intros (Hd & _ & Hn)%bounded_inv.
  pose proof (digits2_pos_bounds m) as [Hlo Hhi]. split.
  - eapply Z.lt_le_trans; [exact Hhi|]. by apply Z.pow_le_mono_r.
  - intros He. rewrite (Hn He) in Hlo. exact Hlo.
Qed.

Lemma iter_xO_pos m d : Z.pos (Pos.iter xO m d) = Z.pos m * 2 ^ Z.pos d.
Proof.
  induction d as [|d IH] using Pos.peano_ind.
  - simpl. lia.
  - rewrite Pos.iter_succ, Pos2Z.inj_xO, IH, Pos2Z.inj_succ, Z.pow_succ_r by lia.
    lia.
Qed.

Lemma shl_align_fst m e e' :
  e' ≤ e → Z.pos (shl_align m e e').1 = Z.pos m * 2 ^ (e - e').
Proof.
  intros He. unfold shl_align. destruct (e' - e) as [|d|d] eqn:E; simpl.
  - replace (e - e') with 0 by lia. lia.
  - lia.
  - rewrite iter_xO_pos. f_equal. f_equal. lia.
Qed.

Lemma binary_round_aux_sign sx mx ex lx :
  match binary_round_aux prec emax sx mx ex lx with
  | S754_zero s | S754_infinity s | S754_finite s _ _ => s = sx
  | S754_nan => True
  end.
Proof.
  unfold binary_round_aux.
  destruct (shr_fexp prec emax mx ex lx) as [mrs' e'].
  destruct (shr_fexp prec emax _ e' loc_Exact) as [mrs'' e''].
  destruct (shr_m mrs''); [done| |done]. by destruct (e'' <=? emax - prec).
Qed.

(** The aligned mantissas of two finite numbers compare as the numbers. *)
Lemma SFcompare_aligned sx mx ex sy my ey :
  bounded prec emax mx ex = true → bounded prec emax my ey = true →
  SFcompare (S754_finite sx mx ex) (S754_finite sy my ey)
  = Some (cond_Zopp sx (Z.pos (shl_align mx ex (Z.min ex ey)).1)
          ?= cond_Zopp sy (Z.pos (shl_align my ey (Z.min ex ey)).1)).
Proof.
  intros Hx Hy.
  rewrite !shl_align_fst by lia.
  pose proof (bounded_mantissa _ _ Hx) as [Hx1 Hx2].
  pose proof (bounded_mantissa _ _ Hy) as [Hy1 Hy2].
  apply bounded_inv in Hx as (_ & Hex & _), Hy as (_ & Hey & _).
  assert (Hpow : ∀ a b, a < b → 2 ≤ 2 ^ (b - a)).
  { intros a b Hab. change 2 with (2 ^ 1) at 1.
    apply Z.pow_le_mono_r; lia. }
  assert (0 < 2 ^ (ey - Z.min ex ey)) by (apply Z.pow_pos_nonneg; lia).
  assert (0 < 2 ^ (ex - Z.min ex ey)) by (apply Z.pow_pos_nonneg; lia).
  unfold SFcompare.
  change (Pos.compare_cont Eq mx my) with (Pos.compare mx my).
  f_equal. symmetry.
  destruct sx, sy; simpl cond_Zopp;
    [|apply Z.compare_lt_iff; nia|apply Z.compare_gt_iff; nia|];
    destruct (Z.compare_spec ex ey) as [->|Hlt|Hgt].
  - rewrite Z.min_id, Z.sub_diag, !Z.mul_1_r.
    rewrite Z.compare_opp. apply Pos.compare_antisym.
  - apply Z.compare_gt_iff.
    rewrite Z.min_l, Z.sub_diag by lia. specialize (Hpow _ _ Hlt). nia.
  - apply Z.compare_lt_iff.
    rewrite Z.min_r, Z.sub_diag by lia. specialize (Hpow _ _ Hgt). nia.
  - by rewrite Z.min_id, Z.sub_diag, !Z.mul_1_r.
  - apply Z.compare_lt_iff.
    rewrite Z.min_l, Z.sub_diag by lia. specialize (Hpow _ _ Hlt). nia.
  - apply Z.compare_gt_iff.
    rewrite Z.min_r, Z.sub_diag by lia. specialize (Hpow _ _ Hgt). nia.
Qed.

(** [x <= y] makes [x - y] zero, negative or NaN. *)
Lemma SFsub_not_pos x y :
  valid_binary x = true → valid_binary y = true →
  SFleb x y = true → SFltb (S754_zero false) (SF64sub x y) = false.
Proof.
  intros Hx Hy Hle.
  destruct x as [sx|sx| |sx mx ex], y as [sy|sy| |sy my ey];
    try done; try (by destruct sx, sy); try (by destruct sx);
    try (by destruct sy).
  unfold SFleb in Hle. rewrite SFcompare_aligned in Hle by done.
  unfold SF64sub, SFsub.
  destruct (_ - _) as [|z|z] eqn:E; [done| |].
  { destruct (Z.compare_spec
                (cond_Zopp sx (Z.pos (shl_align mx ex (Z.min ex ey)).1))
                (cond_Zopp sy (Z.pos (shl_align my ey (Z.min ex ey)).1)));
      [lia|lia|done]. }
  unfold binary_normalize, binary_round.
  destruct (shl_align z _ _) as [mz ez].
  pose proof (binary_round_aux_sign true (Z.pos mz) ez loc_Exact) as Hs.
  by destruct (binary_round_aux _ _ _ _ _ _) as [s|s| |s m e];
    try subst s.
Qed.

(** *** Shifting a mantissa to the right *)

Lemma shifted_trans j k a b c :
  0 ≤ shr_m a → 0 < j → 0 < k →
  shifted j a b → shifted k b c → shifted (j + k) a c.
Proof.
  intros Ha Hj Hk [Hb1 Hb2] [Hc1 Hc2].
  assert (0 < 2 ^ j) by (apply Z.pow_pos_nonneg; lia).
  assert (0 < 2 ^ k) by (apply Z.pow_pos_nonneg; lia).
  split.
  - rewrite Hc1, Hb1, Z.pow_add_r by lia. rewrite Z.div_div by lia. done.
  - intros Hc. rewrite Z.pow_add_r by lia.
    pose proof (Z.mul_div_le (shr_m a) (2 ^ j)).
    pose proof (Z.mul_div_le (shr_m b) (2 ^ k)).
    destruct (Hc2 Hc) as [Hb|Hlt].
    + destruct (Hb2 Hb) as [?|Hlt]; [by left|right]. nia.
    + right. nia.
Qed.

Lemma shr_1_shifted mrs : 0 ≤ shr_m mrs → shifted 1 mrs (shr_1 mrs).
Proof.
  destruct mrs as [m r s]. simpl. intros Hm. unfold shifted.
  change (2 ^ 1) with 2.
  destruct m as [|[p|p|]|p]; simpl shr_1; cbn [shr_m shr_r shr_s];
    [| | | |lia].
  - split; [done|]. rewrite orb_false_l. by left.
  - split; [|intros _; right; lia].
    rewrite Pos2Z.inj_xI. apply Z.div_unique with 1; lia.
  - split; [|rewrite orb_false_l; by left].
    rewrite Pos2Z.inj_xO. apply Z.div_unique with 0; lia.
  - split; [done|]. intros _. right. lia.
Qed.

Lemma iter_shr_1_shifted p :
  ∀ mrs, 0 ≤ shr_m mrs → shifted (Z.pos p) mrs (SpecFloat.iter_pos shr_1 p mrs).
Proof.
  assert (Hnn : ∀ k a b, 0 ≤ shr_m a → 0 < k → shifted k a b → 0 ≤ shr_m b).
  { intros k a b Ha Hk [-> _]. apply Z.div_pos; [done|].
    apply Z.pow_pos_nonneg; lia. }
  induction p as [p IH|p IH|]; intros mrs Hm; simpl SpecFloat.iter_pos.
  - pose proof (shr_1_shifted mrs Hm) as H1.
    pose proof (Hnn 1 _ _ Hm ltac:(lia) H1) as Hm1.
    pose proof (IH _ Hm1) as H2.
    pose proof (Hnn (Z.pos p) _ _ Hm1 ltac:(lia) H2) as Hm2.
    pose proof (IH _ Hm2) as H3.
    replace (Z.pos p~1) with (1 + Z.pos p + Z.pos p) by lia.
    eapply shifted_trans; [done|lia|lia| |exact H3].
    eapply shifted_trans; [done|lia|lia|exact H1|exact H2].
  - pose proof (IH _ Hm) as H2.
    pose proof (Hnn (Z.pos p) _ _ Hm ltac:(lia) H2) as Hm2.
    pose proof (IH _ Hm2) as H3.
    replace (Z.pos p~0) with (Z.pos p + Z.pos p) by lia.
    eapply shifted_trans; [done|lia|lia|exact H2|exact H3].
  - by apply shr_1_shifted.
Qed.

(** What [shr_fexp] does to a non-negative mantissa that comes with an
    exact location: nothing when the exponent is already the one of the
    format, and otherwise a shift to that exponent. *)
Lemma shr_fexp_exact m e :
  0 ≤ m →
  let s := fexp prec emax (Zdigits2 m + e) - e in
  ∃ mrs,
    shr_fexp prec emax m e loc_Exact = (mrs, e + Z.max 0 s) ∧
    shr_m mrs = m / 2 ^ Z.max 0 s ∧
    (loc_of_shr_record mrs ≠ loc_Exact → shr_m mrs * 2 ^ Z.max 0 s < m).
Proof.
  intros Hm s. unfold shr_fexp, shr. fold s. simpl shr_record_of_loc.
  destruct s as [|p|p] eqn:E.
  - eexists. split; [by rewrite Z.add_0_r|]. simpl.
    split; [by rewrite Z.div_1_r|done].
  - destruct (iter_shr_1_shifted p {| shr_m := m; shr_r := false;
                                      shr_s := false |} Hm) as [H1 H2].
    rewrite Z.max_r by lia.
    eexists. split; [done|]. split; [exact H1|]. intros Hloc.
    destruct H2 as [|]; [|done|done].
    destruct (SpecFloat.iter_pos shr_1 p _) as [m' [] []]; done.
  - eexists. rewrite Z.max_l by lia. split; [by rewrite Z.add_0_r|]. simpl.
    split; [by rewrite Z.div_1_r|done].
Qed.

Lemma round_nearest_even_cases m l :
  round_nearest_even m l = m ∨
  (round_nearest_even m l = m + 1 ∧ l ≠ loc_Exact).
Proof.
  destruct l as [|[]]; simpl; [by left| |by left|by right].
  destruct (Z.even m); [by left|by right].
Qed.

(** The result of rounding the non-negative mantissa [m] at exponent [e]:
    a shift to the exponent of the format, one unit more when the lost bits
    ask for it, and a second shift when that carried into a new bit. *)
Lemma binary_round_aux_exact sx m e :
  0 ≤ m →
  let s1 := Z.max 0 (fexp prec emax (Zdigits2 m + e) - e) in
  ∃ M,
    (M = m / 2 ^ s1 ∨ (M = m / 2 ^ s1 + 1 ∧ m / 2 ^ s1 * 2 ^ s1 < m)) ∧
    let e1 := e + s1 in
    let s2 := Z.max 0 (fexp prec emax (Zdigits2 M + e1) - e1) in
    binary_round_aux prec emax sx m e loc_Exact
    = match M / 2 ^ s2 with
      | 0 => S754_zero sx
      | Z.pos p =>
          if e1 + s2 <=? emax - prec then S754_finite sx p (e1 + s2)
          else S754_infinity sx
      | Z.neg _ => S754_nan
      end.
Proof.
  intros Hm s1. unfold binary_round_aux.
  destruct (shr_fexp_exact m e Hm) as (mrs1 & -> & Hm1 & Hloc1).
  fold s1 in Hm1, Hloc1 |- *.
  set (M := round_nearest_even (shr_m mrs1) (loc_of_shr_record mrs1)).
  assert (0 < 2 ^ s1) by (apply Z.pow_pos_nonneg; lia).
  assert (0 ≤ m / 2 ^ s1) by (by apply Z.div_pos).
  assert (HM : M = m / 2 ^ s1 ∨
               (M = m / 2 ^ s1 + 1 ∧ m / 2 ^ s1 * 2 ^ s1 < m)).
  { unfold M.
    destruct (round_nearest_even_cases (shr_m mrs1) (loc_of_shr_record mrs1))
      as [->|[-> Hl]]; [by left|right].
    rewrite <- Hm1. split; [done|]. by apply Hloc1. }
  exists M. split; [done|]. cbv zeta.
  assert (HM0 : 0 ≤ M) by lia.
  destruct (shr_fexp_exact M (e + s1) HM0) as (mrs2 & -> & Hm2 & _).
  by rewrite Hm2.
Qed.

(** One shift to the exponent of the format keeps a mantissa under an
    integer bound [B] below [2^53], also when it is then rounded up. *)
Lemma shift_below m e B :
  0 ≤ m → e ≤ 0 → 0 ≤ B < 2 ^ 53 → m ≤ B * 2 ^ (- e) →
  let s := Z.max 0 (fexp prec emax (Zdigits2 m + e) - e) in
  e + s ≤ 0 ∧
  m / 2 ^ s ≤ B * 2 ^ (- (e + s)) ∧
  (m / 2 ^ s * 2 ^ s < m → m / 2 ^ s + 1 ≤ B * 2 ^ (- (e + s))).
Proof.
  intros Hm He HB Hle s.
  assert (Hes : e + s ≤ 0).
  { unfold s, fexp, SpecFloat.emin, prec, emax.
    destruct m as [|p|p]; [simpl; lia| |lia]. simpl Zdigits2.
    pose proof (digits2_pos_bounds p) as [Hlo _].
    assert (Hlt : 2 ^ (Z.pos (digits2_pos p) - 1) < 2 ^ (53 - e)).
    { eapply Z.le_lt_trans; [exact Hlo|]. eapply Z.le_lt_trans; [exact Hle|].
      replace (53 - e) with (53 + - e) by lia. rewrite Z.pow_add_r by lia.
      apply Z.mul_lt_mono_pos_r; [apply Z.pow_pos_nonneg|]; lia. }
    apply Z.pow_lt_mono_r_iff in Hlt; lia. }
  assert (Hs : 0 ≤ s) by (unfold s; lia).
  assert (Hpow : 2 ^ (- e) = 2 ^ (- (e + s)) * 2 ^ s).
  { rewrite <- Z.pow_add_r by lia. f_equal. lia. }
  assert (H2s : 0 < 2 ^ s) by (apply Z.pow_pos_nonneg; lia).
  assert (HK : 0 < 2 ^ (- (e + s))) by (apply Z.pow_pos_nonneg; lia).
  split; [done|].
  assert (Hdiv : m / 2 ^ s ≤ B * 2 ^ (- (e + s))).
  { rewrite <- (Z.div_mul (B * 2 ^ (- (e + s))) (2 ^ s)) by lia.
    apply Z.div_le_mono; [done|]. rewrite Hpow in Hle. lia. }
  split; [done|]. intros Hlt.
  rewrite Hpow in Hle. nia.
Qed.

(** Rounding a positive number that is at most the integer [B < 2^53]
    gives zero or a finite number that is at most [B]. *)
Lemma binary_round_aux_below sx (m : positive) e B :
  e ≤ 0 → 0 ≤ B < 2 ^ 53 → Z.pos m ≤ B * 2 ^ (- e) →
  match binary_round_aux prec emax sx (Z.pos m) e loc_Exact with
  | S754_zero _ => True
  | S754_finite _ p e' => e' ≤ 0 ∧ Z.pos p ≤ B * 2 ^ (- e')
  | _ => False
  end.
Proof.
  intros He HB Hle.
  destruct (binary_round_aux_exact sx (Z.pos m) e) as (M & HM & ->); [done|].
  destruct (shift_below (Z.pos m) e B) as (He1 & Hm1 & Hup); [done..|].
  set (s1 := Z.max 0 (fexp prec emax (Zdigits2 (Z.pos m) + e) - e)) in *.
  set (e1 := e + s1) in *.
  assert (0 < 2 ^ s1) by (apply Z.pow_pos_nonneg; lia).
  assert (0 ≤ Z.pos m / 2 ^ s1) by (by apply Z.div_pos).
  assert (HM0 : 0 ≤ M) by lia.
  assert (HMle : M ≤ B * 2 ^ (- e1)) by (destruct HM as [->|[-> ?]]; auto).
  destruct (shift_below M e1 B) as (He2 & Hm2 & _); [done..|].
  set (s2 := Z.max 0 (fexp prec emax (Zdigits2 M + e1) - e1)) in *.
  assert (0 < 2 ^ s2) by (apply Z.pow_pos_nonneg; lia).
  assert (0 ≤ M / 2 ^ s2) by (by apply Z.div_pos).
  destruct (M / 2 ^ s2) as [|p|p] eqn:E; [done| |lia].
  unfold emax, prec. rewrite (proj2 (Z.leb_le _ _)) by lia.
  split; assumption.
Qed.

(** A positive mantissa at an exponent of the format stays positive under a
    shift to the exponent of the format. *)
Lemma shift_positive m e :
  0 < m → -1074 ≤ e →
  let s := Z.max 0 (fexp prec emax (Zdigits2 m + e) - e) in
  0 < m / 2 ^ s ∧ -1074 ≤ e + s.
Proof.
  intros Hm He s. split; [|unfold s; lia].
  destruct m as [|p|p]; [lia| |lia].
  pose proof (digits2_pos_bounds p) as [Hlo _].
  unfold s, fexp, SpecFloat.emin, prec, emax. simpl Zdigits2.
  destruct (Z.le_gt_cases (Z.pos (digits2_pos p)) 53) as [Hd|Hd].
  - rewrite Z.max_l by lia. by rewrite Z.div_1_r.
  - rewrite Z.max_r by lia.
    replace (Z.max (Z.pos (digits2_pos p) + e - 53) (3 - 1024 - 53) - e)
      with (Z.pos (digits2_pos p) - 53) by lia.
    apply Z.lt_le_trans with (2 ^ 52); [done|].
    apply Z.div_le_lower_bound; [apply Z.pow_pos_nonneg; lia|].
    rewrite <- Z.pow_add_r by lia.
    by replace (Z.pos (digits2_pos p) - 53 + 52)
      with (Z.pos (digits2_pos p) - 1) by lia.
Qed.

(** Rounding a positive number at an exponent of the format never gives
    zero or NaN. *)
Lemma binary_round_aux_pos sx (m : positive) e :
  -1074 ≤ e →
  match binary_round_aux prec emax sx (Z.pos m) e loc_Exact with
  | S754_finite s _ _ | S754_infinity s => s = sx
  | _ => False
  end.
Proof.
  intros He.
  destruct (binary_round_aux_exact sx (Z.pos m) e) as (M & HM & ->); [done|].
  destruct (shift_positive (Z.pos m) e) as [Hm1 He1]; [done..|].
  set (s1 := Z.max 0 (fexp prec emax (Zdigits2 (Z.pos m) + e) - e)) in *.
  assert (HM0 : 0 < M) by lia.
  destruct (shift_positive M (e + s1)) as [Hm2 _]; [done..|].
  destruct (M / 2 ^ _) as [|p|p]; [lia| |lia].
  by destruct (_ <=? _).
Qed.

Lemma shl_align_snd m e e' : (shl_align m e e').2 = Z.min e e'.
Proof. unfold shl_align. destruct (e' - e) eqn:E; simpl; lia. Qed.

(** [y < x] makes [x - y] positive. *)
Lemma SFsub_pos x y :
  valid_binary x = true → valid_binary y = true →
  SFltb y x = true → SFltb (S754_zero false) (SF64sub x y) = true.
Proof.
  intros Hx Hy Hlt.
  destruct x as [sx|sx| |sx mx ex], y as [sy|sy| |sy my ey];
    try done; try (by destruct sx, sy); try (by destruct sx);
    try (by destruct sy).
  unfold SFltb in Hlt. rewrite SFcompare_aligned in Hlt by done.
  destruct (Z.compare_spec
              (cond_Zopp sy (Z.pos (shl_align my ey (Z.min ey ex)).1))
              (cond_Zopp sx (Z.pos (shl_align mx ex (Z.min ey ex)).1)))
    as [|Hz|]; [done| |done].
  unfold SF64sub, SFsub. rewrite (Z.min_comm ex ey).
  destruct (_ - _) as [|z|z] eqn:E; [lia| |lia].
  unfold binary_normalize, binary_round.
  pose proof (shl_align_snd z (Z.min ey ex)
                (fexp prec emax (Z.pos (digits2_pos z) + Z.min ey ex))) as He.
  destruct (shl_align z _ _) as [mz ez]. simpl in He.
  apply bounded_inv in Hx as (_ & Hex & _), Hy as (_ & Hey & _).
  assert (Hez : -1074 ≤ ez)
    by (unfold fexp, SpecFloat.emin, prec, emax in He; lia).
  pose proof (binary_round_aux_pos false mz ez Hez) as Hs.
  by destruct (binary_round_aux _ _ _ _ _ _) as [s|s| |s m e];
    try subst s.
Qed.

(** *** The classification of a float, read on its specification *)

Lemma SFcompare_refl x : x ≠ S754_nan → SFcompare x x = Some Eq.
Proof.
  destruct x as [s|s| |s m e]; intros Hx; try done; try (by destruct s).
  simpl. rewrite Z.compare_refl.
  change (Pos.compare_cont Eq m m) with (Pos.compare m m).
  rewrite Pos.compare_refl. by destruct s.
Qed.

Lemma is_nan_spec x :
  is_nan x = match Prim2SF x with S754_nan => true | _ => false end.
Proof.
  unfold is_nan. rewrite FloatAxioms.eqb_spec. unfold SFeqb.
  destruct (Prim2SF x) as [s|s| |s m e] eqn:E; [| |done|];
    by rewrite SFcompare_refl by done.
Qed.

Lemma is_finite_spec x :
  is_finite x
  = match Prim2SF x with
    | S754_zero _ | S754_finite _ _ _ => true
    | _ => false
    end.
Proof.
  unfold is_finite. rewrite is_nan_spec. unfold is_infinity.
  rewrite FloatAxioms.eqb_spec, FloatAxioms.abs_spec.
  by destruct (Prim2SF x) as [s|s| |s m e].
Qed.

Lemma is_infinity_spec x :
  is_infinity x
  = match Prim2SF x with S754_infinity _ => true | _ => false end.
Proof.
  unfold is_infinity. rewrite FloatAxioms.eqb_spec, FloatAxioms.abs_spec.
  by destruct (Prim2SF x) as [s|s| |s m e].
Qed.

Lemma eqb_zero_spec x :
  (x =? 0)%float = match Prim2SF x with S754_zero _ => true | _ => false end.
Proof.
  rewrite FloatAxioms.eqb_spec. change (Prim2SF 0) with (S754_zero false).
  by destruct (Prim2SF x) as [s|[]| |[] m e].
Qed.

Lemma float_sub_not_pos (x y : float) :
  (x <=? y)%float = true → (0 <? x - y)%float = false.
Proof.
  rewrite FloatAxioms.leb_spec, FloatAxioms.ltb_spec, FloatAxioms.sub_spec.
  apply SFsub_not_pos; apply Prim2SF_valid.
Qed.

Lemma float_sub_pos (x y : float) :
  (y <? x)%float = true → (0 <? x - y)%float = true.
Proof.
  rewrite !FloatAxioms.ltb_spec, FloatAxioms.sub_spec.
  apply SFsub_pos; apply Prim2SF_valid.
Qed.

(** A finite number times zero is a zero; an infinity or a NaN times zero
    is a NaN. *)
Lemma float_mul_zero (x z : float) :
  is_finite x = true → (z =? 0)%float = true → (x * z =? 0)%float = true.
Proof.
  rewrite is_finite_spec, !eqb_zero_spec, FloatAxioms.mul_spec.
  by destruct (Prim2SF x) as [s|s| |s m e], (Prim2SF z) as [s'|s'| |s' m' e'].
Qed.

Lemma float_mul_zero_nan (x z : float) :
  is_finite x = false → (z =? 0)%float = true → is_nan (x * z) = true.
Proof.
  rewrite is_finite_spec, eqb_zero_spec, is_nan_spec, FloatAxioms.mul_spec.
  by destruct (Prim2SF x) as [s|s| |s m e], (Prim2SF z) as [s'|s'| |s' m' e'].
Qed.

Lemma float_one_plus_zero (z : float) :
  (z =? 0)%float = true → (1 + z)%float = 1%float.
Proof.
  rewrite eqb_zero_spec. intros Hz. apply Prim2SF_inj.
  rewrite FloatAxioms.add_spec.
  by destruct (Prim2SF z) as [s'|s'| |s' m' e'].
Qed.

Lemma float_one_plus_nan (z : float) : is_nan z = true → is_nan (1 + z) = true.
Proof.
  rewrite !is_nan_spec, FloatAxioms.add_spec.
  by destruct (Prim2SF z) as [s'|s'| |s' m' e'].
Qed.

Lemma binary_round_aux_not_nan sx (m : positive) e :
  binary_round_aux prec emax sx (Z.pos m) e loc_Exact ≠ S754_nan.
Proof.
  destruct (binary_round_aux_exact sx (Z.pos m) e) as (M & HM & ->); [done|].
  set (s1 := Z.max 0 (fexp prec emax (Zdigits2 (Z.pos m) + e) - e)) in *.
  assert (0 < 2 ^ s1) by (apply Z.pow_pos_nonneg; lia).
  assert (0 ≤ Z.pos m / 2 ^ s1) by (by apply Z.div_pos).
  assert (HM0 : 0 ≤ M) by lia.
  set (s2 := Z.max 0 _).
  assert (0 < 2 ^ s2) by (apply Z.pow_pos_nonneg; lia).
  assert (0 ≤ M / 2 ^ s2) by (by apply Z.div_pos).
  destruct (M / 2 ^ s2) as [|p|p]; [done| |lia]. by destruct (_ <=? _).
Qed.

Lemma binary_normalize_not_nan m e :
  binary_normalize prec emax m e false ≠ S754_nan.
Proof.
  unfold binary_normalize, binary_round.
  destruct m as [|p|p]; [done| |]; destruct (shl_align p _ _) as [mz ez];
    apply binary_round_aux_not_nan.
Qed.

(** A sum with a finite term is a NaN only if the other term is. *)
Lemma float_add_not_nan (x y : float) :
  is_nan x = false → is_finite y = true → is_nan (x + y) = false.
Proof.
  rewrite !is_nan_spec, is_finite_spec, FloatAxioms.add_spec.
  destruct (Prim2SF x) as [s|s| |s m e], (Prim2SF y) as [s'|s'| |s' m' e'];
    try done; try (by destruct s, s').
  intros _ _. unfold SF64add, SFadd.
  pose proof (binary_normalize_not_nan
    (cond_Zopp s (Z.pos (shl_align m e (Z.min e e')).1)
     + cond_Zopp s' (Z.pos (shl_align m' e' (Z.min e e')).1)) (Z.min e e')).
  by destruct (binary_normalize _ _ _ _ _).
Qed.

Lemma float_zero_mul (z x : float) :
  (z =? 0)%float = true → is_finite x = true → (z * x =? 0)%float = true.
Proof.
  rewrite is_finite_spec, !eqb_zero_spec, FloatAxioms.mul_spec.
  by destruct (Prim2SF x) as [s|s| |s m e], (Prim2SF z) as [s'|s'| |s' m' e'].
Qed.

(** Zero divided by a number that is not zero is a zero. *)
Lemma float_zero_div (z x : float) :
  (z =? 0)%float = true → is_nan x = false → (x =? 0)%float = false →
  (z / x =? 0)%float = true.
Proof.
  rewrite is_nan_spec, !eqb_zero_spec, FloatAxioms.div_spec.
  by destruct (Prim2SF x) as [s|s| |s m e], (Prim2SF z) as [s'|s'| |s' m' e'].
Qed.

Lemma float_opp_zero (z : float) : (z =? 0)%float = true → (- z =? 0)%float = true.
Proof.
  rewrite !eqb_zero_spec, FloatAxioms.opp_spec.
  by destruct (Prim2SF z) as [s'|s'| |s' m' e'].
Qed.

Lemma float_add_zeros (x y : float) :
  (x =? 0)%float = true → (y =? 0)%float = true → (x + y =? 0)%float = true.
Proof.
  rewrite !eqb_zero_spec, FloatAxioms.add_spec.
  by destruct (Prim2SF x) as [[]|s| |s m e],
              (Prim2SF y) as [[]|s'| |s' m' e'].
Qed.

Lemma float_sub_zeros (x y : float) :
  (x =? 0)%float = true → (y =? 0)%float = true → (x - y =? 0)%float = true.
Proof.
  rewrite !eqb_zero_spec, FloatAxioms.sub_spec.
  by destruct (Prim2SF x) as [[]|s| |s m e],
              (Prim2SF y) as [[]|s'| |s' m' e'].
Qed.

Lemma float_zero_finite (z : float) : (z =? 0)%float = true → is_finite z = true.
Proof.
  rewrite eqb_zero_spec, is_finite_spec.
  by destruct (Prim2SF z) as [s'|s'| |s' m' e'].
Qed.

Lemma float_finite_not_nan (x : float) : is_finite x = true → is_nan x = false.
Proof.
  rewrite is_nan_spec, is_finite_spec.
  by destruct (Prim2SF x) as [s'|s'| |s' m' e'].
Qed.

Lemma digits2_pos_unique (m : positive) k :
  2 ^ (k - 1) ≤ Z.pos m < 2 ^ k → Z.pos (digits2_pos m) = k.
Proof.
  intros [Hlo Hhi]. pose proof (digits2_pos_bounds m) as [Hlo' Hhi'].
  assert (0 ≤ k).
  { destruct (Z.le_gt_cases 0 k); [done|].
    rewrite Z.pow_neg_r in Hhi by lia. lia. }
  assert (H1 : 2 ^ (k - 1) < 2 ^ Z.pos (digits2_pos m)) by lia.
  assert (H2 : 2 ^ (Z.pos (digits2_pos m) - 1) < 2 ^ k) by lia.
  apply Z.pow_lt_mono_r_iff in H1; [|lia..].
  apply Z.pow_lt_mono_r_iff in H2; lia.
Qed.

(** A number of the format is not changed by rounding. *)
Lemma binary_round_aux_canonical sx m e :
  bounded prec emax m e = true →
  binary_round_aux prec emax sx (Z.pos m) e loc_Exact = S754_finite sx m e.
Proof.
  intros Hb.
  destruct (binary_round_aux_exact sx (Z.pos m) e) as (M & HM & ->); [done|].
  pose proof Hb as [Hc%Z.eqb_eq He%Z.leb_le]%andb_true_iff.
  simpl Zdigits2 in *. rewrite Hc, Z.sub_diag in HM |- *.
  change (Z.max 0 0) with 0 in *. rewrite Z.add_0_r, Z.div_1_r in *.
  assert (M = Z.pos m) as -> by lia. simpl Zdigits2.
  rewrite Hc, Z.sub_diag. change (Z.max 0 0) with 0.
  rewrite Z.add_0_r, Z.div_1_r. by rewrite (proj2 (Z.leb_le _ _)).
Qed.

(** An integer below [2^53] is a float. *)
Lemma py_float_exact (n : Z) :
  1 ≤ n < 2 ^ 53 →
  ∃ fn mn en,
    UiAdvance64.py_float n = Ok fn ∧
    Prim2SF fn = S754_finite false mn en ∧
    en ≤ 0 ∧ Z.pos mn = n * 2 ^ (- en).
Proof.
  intros Hn. destruct n as [|pn|pn]; [lia| |lia].
  pose proof (digits2_pos_bounds pn) as [Hlo Hhi].
  set (d := Z.pos (digits2_pos pn)) in *.
  assert (Hd : 1 ≤ d ≤ 53).
  { split; [unfold d; lia|].
    assert (Hlt : 2 ^ (d - 1) < 2 ^ 53) by lia.
    apply Z.pow_lt_mono_r_iff in Hlt; lia. }
  unfold UiAdvance64.py_float, binary_normalize, binary_round.
  fold d. replace (fexp prec emax (d + 0)) with (d - 53)
    by (unfold fexp, SpecFloat.emin, prec, emax; lia).
  pose proof (shl_align_fst pn 0 (d - 53) ltac:(lia)) as Hmz.
  pose proof (shl_align_snd pn 0 (d - 53)) as Hez.
  destruct (shl_align pn 0 (d - 53)) as [mz ez]. simpl in Hmz, Hez.
  rewrite Z.min_r in Hez by lia. subst ez.
  replace (0 - (d - 53)) with (53 - d) in Hmz by lia.
  assert (Hdz : Z.pos (digits2_pos mz) = 53).
  { apply digits2_pos_unique. rewrite Hmz.
    assert (0 < 2 ^ (53 - d)) by (apply Z.pow_pos_nonneg; lia).
    assert (E1 : 2 ^ (53 - 1) = 2 ^ (d - 1) * 2 ^ (53 - d))
      by (rewrite <- Z.pow_add_r by lia; f_equal; lia).
    assert (E2 : 2 ^ 53 = 2 ^ d * 2 ^ (53 - d))
      by (rewrite <- Z.pow_add_r by lia; f_equal; lia).
    rewrite E1, E2. nia. }
  assert (Hb : bounded prec emax mz (d - 53) = true).
  { unfold bounded, canonical_mantissa, fexp, SpecFloat.emin, prec, emax.
    rewrite Hdz. apply andb_true_iff. split; [apply Z.eqb_eq|apply Z.leb_le];
      lia. }
  rewrite binary_round_aux_canonical by done.
  eexists _, mz, (d - 53). split; [done|].
  split; [by apply Prim2SF_SF2Prim|]. split; [lia|].
  rewrite Hmz. f_equal. f_equal. lia.
Qed.

(** A float of [[0,1]] is a zero or a positive mantissa [m] at an exponent
    [e] with [m * 2^e <= 1]. *)
Lemma unit_float (x : float) :
  (0 <=? x)%float = true → (x <=? 1)%float = true →
  (∃ s, Prim2SF x = S754_zero s) ∨
  (∃ m e, Prim2SF x = S754_finite false m e ∧ e ≤ 0 ∧ Z.pos m ≤ 2 ^ (- e)).
Proof.
  rewrite !FloatAxioms.leb_spec.
  change (Prim2SF 0) with (S754_zero false).
  change (Prim2SF 1) with (S754_finite false 4503599627370496 (-52)).
  pose proof (Prim2SF_valid x) as Hv.
  destruct (Prim2SF x) as [s|s| |s m e]; [eauto|by destruct s|done|].
  destruct s; [done|]. intros _ Hle. right. exists m, e. split; [done|].
  pose proof (bounded_mantissa _ _ Hv) as [Hm Hnorm].
  unfold SFleb in Hle.
  rewrite (SFcompare_aligned false m e false 4503599627370496 (-52) Hv eq_refl)
    in Hle.
  rewrite !shl_align_fst in Hle by lia. simpl cond_Zopp in Hle.
  assert (Hle' : Z.pos m * 2 ^ (e - Z.min e (-52))
                 ≤ 2 ^ 52 * 2 ^ (-52 - Z.min e (-52))).
  { destruct (Z.compare_spec (Z.pos m * 2 ^ (e - Z.min e (-52)))
                (Z.pos 4503599627370496 * 2 ^ (-52 - Z.min e (-52))));
      [| |done]; change (Z.pos 4503599627370496) with (2 ^ 52) in *; lia. }
  clear Hle. destruct (Z.le_gt_cases e (-52)) as [He|He].
  - split; [lia|]. rewrite Z.min_l, Z.sub_diag, Z.mul_1_r in Hle' by lia.
    rewrite <- Z.pow_add_r in Hle' by lia.
    by replace (52 + (-52 - e)) with (- e) in Hle' by lia.
  - exfalso. rewrite Z.min_r in Hle' by lia.
    change (2 ^ (-52 - -52)) with 1 in Hle'.
    assert (2 ^ 1 ≤ 2 ^ (e - -52)) by (apply Z.pow_le_mono_r; lia).
    apply bounded_inv in Hv as (_ & ? & _).
    specialize (Hnorm ltac:(lia)). change (2 ^ 1) with 2 in *. nia.
Qed.

(** For at least one node, fewer than [2^53], and a fraction in [[0,1]]
    the sample size is between 1 and the number of nodes. *)
Lemma initial_infected_unit (n : nat) (init_frac : float) :
  (1 ≤ n)%nat → Z.of_nat n < 2 ^ 53 →
  (0 <=? init_frac)%float = true → (init_frac <=? 1)%float = true →
  ∃ k, UiAdvance64.initial_infected n init_frac = Ok k ∧ 1 ≤ k ≤ Z.of_nat n.
Proof.
  intros Hn1 Hn2 H0 H1. unfold UiAdvance64.initial_infected.
  destruct (py_float_exact (Z.of_nat n)) as (fn & mn & en & -> & Hfn & Hen & Hmn);
    [lia|].
  unfold UiAdvance64.py_int. rewrite FloatAxioms.mul_spec, Hfn.
  destruct (unit_float init_frac H0 H1) as [[s ->]|(m & e & -> & He & Hm)].
  { simpl. eexists. split; [done|]. lia. }
  unfold SF64mul, SFmul. simpl xorb.
  pose proof (binary_round_aux_below false (m * mn) (e + en) (Z.of_nat n))
    as Hr.
  pose proof (binary_round_aux_sign false (Z.pos (m * mn)) (e + en) loc_Exact)
    as Hs.
  destruct (binary_round_aux _ _ _ _ _ _) as [s|s| |s p e'].
  - eexists. split; [done|]. lia.
  - exfalso. apply Hr; [lia|lia|].
    rewrite Pos2Z.inj_mul, Hmn.
    replace (- (e + en)) with (- e + - en) by lia.
    rewrite Z.pow_add_r by lia.
    assert (0 < 2 ^ (- en)) by (apply Z.pow_pos_nonneg; lia). nia.
  - exfalso. apply Hr; [lia|lia|].
    rewrite Pos2Z.inj_mul, Hmn.
    replace (- (e + en)) with (- e + - en) by lia.
    rewrite Z.pow_add_r by lia.
    assert (0 < 2 ^ (- en)) by (apply Z.pow_pos_nonneg; lia). nia.
  - subst s. destruct Hr as [He' Hp]; [lia|lia| |].
    { rewrite Pos2Z.inj_mul, Hmn.
      replace (- (e + en)) with (- e + - en) by lia.
      rewrite Z.pow_add_r by lia.
      assert (0 < 2 ^ (- en)) by (apply Z.pow_pos_nonneg; lia). nia. }
    eexists. split; [done|]. simpl cond_Zopp.
    rewrite Z.shiftl_div_pow2 by lia.
    assert (0 < 2 ^ (- e')) by (apply Z.pow_pos_nonneg; lia).
    assert (Z.pos p / 2 ^ (- e') ≤ Z.of_nat n).
    { apply Z.div_le_upper_bound; [done|]. lia. }
    lia.
Qed.

(** The sign given to a rounding only sets the sign of the result. *)
Lemma binary_round_aux_opp sx mx ex lx :
  binary_round_aux prec emax (negb sx) mx ex lx
  = SFopp (binary_round_aux prec emax sx mx ex lx).
Proof.
  unfold binary_round_aux.
  destruct (shr_fexp prec emax mx ex lx) as [mrs' e'].
  destruct (shr_fexp prec emax _ e' loc_Exact) as [mrs'' e''].
  destruct (shr_m mrs''); [done| |done]. by destruct (e'' <=? emax - prec).
Qed.

(** Negation is exact and commutes with a product. *)
Lemma float_opp_mul (x y : float) : (- x * y)%float = (- (x * y))%float.
Proof.
  apply Prim2SF_inj.
  rewrite FloatAxioms.opp_spec, !FloatAxioms.mul_spec, FloatAxioms.opp_spec.
  destruct (Prim2SF x) as [s|s| |s m e], (Prim2SF y) as [s'|s'| |s' m' e'];
    try done; try (by destruct s, s').
  unfold SF64mul, SFmul, SFopp at 1.
  rewrite <- binary_round_aux_opp. by destruct s, s'.
Qed.

Lemma float_opp_involutive (x : float) : (- - x)%float = x.
Proof.
  apply Prim2SF_inj. rewrite !FloatAxioms.opp_spec.
  by destruct (Prim2SF x) as [[]|[]| |[] m e].
Qed.

Lemma initial_infected_ge_1 (n : nat) (init_frac : float) k :
  UiAdvance64.initial_infected n init_frac = Ok k → 1 ≤ k.
Proof.
  unfold UiAdvance64.initial_infected.
  destruct (UiAdvance64.py_float _); [|done].
  destruct (UiAdvance64.py_int _); [|done]. intros [= <-]. lia.
Qed.

(** A fraction that is not a number makes [int] raise: [ValueError] for a
    NaN, [OverflowError] for an infinity. *)
Lemma initial_infected_not_finite (n : nat) (init_frac : float) :
  (1 ≤ n)%nat → Z.of_nat n < 2 ^ 53 →
  (is_nan init_frac = true →
   UiAdvance64.initial_infected n init_frac = Raise ValueError) ∧
  (is_infinity init_frac = true →
   UiAdvance64.initial_infected n init_frac = Raise OverflowError).
Proof.
  intros Hn1 Hn2. unfold UiAdvance64.initial_infected.
  destruct (py_float_exact (Z.of_nat n)) as (fn & mn & en & -> & Hfn & _);
    [lia|].
  unfold UiAdvance64.py_int.
  rewrite is_nan_spec, is_infinity_spec, FloatAxioms.mul_spec, Hfn.
  by destruct (Prim2SF init_frac) as [s|s| |s m e].
Qed.

(** Without a node the sample size is 1, unless the product is a NaN. *)
Lemma initial_infected_no_node (init_frac : float) :
  UiAdvance64.initial_infected 0 init_frac = Ok 1 ∨
  UiAdvance64.initial_infected 0 init_frac = Raise ValueError.
Proof.
  unfold UiAdvance64.initial_infected, UiAdvance64.py_float.
  simpl binary_normalize. cbv iota. unfold UiAdvance64.py_int.
  rewrite FloatAxioms.mul_spec.
  change (Prim2SF (SF2Prim (S754_zero false))) with (S754_zero false).
  destruct (Prim2SF init_frac) as [s|s| |s m e]; simpl; auto.
Qed.

End Binary64.

(** ** The SIRV rate function *)

Section RateOfChange.
Import UiBasic.
Local Open Scope Q_scope.

Lemma Qmax_zero_nonpos (x : Q) : x <= 0 → Qmax 0 x = 0.
Proof.
  intros Hx. unfold Qmax, GenericMinMax.gmax.
  destruct (Qcompare_spec 0 x) as [_|Hlt|_]; try reflexivity.
  exfalso. by apply (Qlt_not_le 0 x).
Qed.

Lemma Qmax_zero_pos (x : Q) : 0 < x → Qmax 0 x = x.
Proof.
  intros Hx. unfold Qmax, GenericMinMax.gmax.
  destruct (Qcompare_spec 0 x) as [Heq|_|Hgt]; try reflexivity.
  - rewrite <- Heq in Hx. by apply Qlt_irrefl in Hx.
  - exfalso. apply (Qlt_irrefl 0). by transitivity x.
Qed.


Lemma sirv_ode_undefined t Su Sv I_ R params :
  Su + Sv + I_ + R == 0 → sirv_ode t (Su, Sv, I_, R) params = None.
Proof.
  intros HN. unfold sirv_ode.
  apply Qeq_bool_iff in HN. by rewrite HN.
Qed.

(** In exact arithmetic, on every state of non-zero total population and
    for every parameter set, the four formulas give derivatives whose sum
    is zero. *)
Lemma sirv_ode_conservation_exact (t Su Sv I_ R : Q) (params : Params) :
  ¬ Su + Sv + I_ + R == 0 →
  ∃ dSu dSv dI dR,
    sirv_ode t (Su, Sv, I_, R) params = Some (dSu, dSv, dI, dR) ∧
    dSu + dSv + dI + dR == 0.
Proof.
  intros HN. unfold sirv_ode.
  destruct (Qeq_bool (Su + Sv + I_ + R) 0) eqn:E.
  { apply Qeq_bool_iff in E. contradiction. }
  do 4 eexists. split; [reflexivity|].
  set (lambda_u := _ * I_ / _). ring.
Qed.

(** In binary64 the sum is not always zero.  For one susceptible and one
    infected individual, transmission rate 1 and recovery rate 0.1 (the
    float [0x1.999999999999ap-4]), the derivatives are [-0.5], [-0.0],
    [0.4] and [0.1].  Their sum in the order of the list is [2^-55], and so
    is the exact sum of the four returned values, in whatever order they
    are added: the difference [0.5 - 0.1] is rounded up by [2^-55]. *)
Lemma sirv_ode_rounding_counterexample :
  ∃ dSu dSv dI dR : float,
    UiBasic64.sirv_ode 0%float (1, 0, 1, 0)%float
      {| UiBasic64.base_beta := 1; UiBasic64.gamma := 0x1.999999999999ap-4;
         UiBasic64.vaccine_efficacy := 0.5; UiBasic64.temperature_c := 10;
         UiBasic64.mobility_index := 1; UiBasic64.T0 := 10;
         UiBasic64.alpha := 0.5 |}%float
    = Some (dSu, dSv, dI, dR) ∧
    (dSu + dSv + dI + dR)%float = 0x1p-55%float ∧
    (dSu + dSv + dI + dR =? 0)%float = false ∧
    UiBasic64.to_Q dSu + UiBasic64.to_Q dSv + UiBasic64.to_Q dI
      + UiBasic64.to_Q dR == 1 # 36028797018963968 ∧
    ¬ UiBasic64.to_Q dSu + UiBasic64.to_Q dSv + UiBasic64.to_Q dI
        + UiBasic64.to_Q dR == 0.
Proof.
  do 4 eexists. split; [vm_compute; reflexivity|].
  split; [vm_compute; reflexivity|].
  split; [vm_compute; reflexivity|].
  split; [vm_compute; reflexivity|].
  vm_compute. discriminate.
Qed.

(** In exact arithmetic, on a state without infected individuals and of
    non-zero total population, the four formulas give zero, whatever the
    other compartments and the parameters are. *)
Lemma sirv_ode_disease_free_exact (t Su Sv I_ R : Q) (params : Params) :
  I_ == 0 →
  ¬ Su + Sv + R == 0 →
  ∃ dSu dSv dI dR,
    sirv_ode t (Su, Sv, I_, R) params = Some (dSu, dSv, dI, dR) ∧
    dSu == 0 ∧ dSv == 0 ∧ dI == 0 ∧ dR == 0.
Proof.
  intros HI HN. unfold sirv_ode.
  destruct (Qeq_bool (Su + Sv + I_ + R) 0) eqn:E.
  { apply Qeq_bool_iff in E. exfalso. apply HN.
    rewrite <- E, HI. ring. }
  do 4 eexists. split; [reflexivity|].
  set (beta := effective_beta _ _ _ _ _).
  set (N := Su + Sv + I_ + R).
  assert (Hl : beta * I_ / N == 0).
  { rewrite HI. unfold Qdiv. ring. }
  repeat split; rewrite ?Hl, ?HI; ring.
Qed.

(** In exact arithmetic the survival factor grows linearly with the
    temperature deficit below the reference temperature, and is 1 at or
    above it for every sensitivity [alpha]. *)
Lemma virus_survival_factor_exact (temperature_c T0 alpha : Q) :
  virus_survival_factor temperature_c T0 alpha
    = 1 + alpha * Qmax 0 (T0 - temperature_c) ∧
  (temperature_c < T0 →
     virus_survival_factor temperature_c T0 alpha
       == 1 + alpha * (T0 - temperature_c)) ∧
  (T0 <= temperature_c →
     virus_survival_factor temperature_c T0 alpha == 1).
Proof.
  split; [reflexivity|]. unfold virus_survival_factor. split; intros H.
  - rewrite Qmax_zero_pos; [reflexivity|].
    apply (Qplus_lt_l _ _ temperature_c). ring_simplify. exact H.
  - rewrite Qmax_zero_nonpos; [ring|].
    apply (Qplus_le_l _ _ temperature_c). ring_simplify. exact H.
Qed.

End RateOfChange.

(** ** The SIRV rate function, in binary64 *)

Section RateOfChange64.
Import UiBasic64.
Local Open Scope float_scope.

(** C5. The population is conserved at the level of the derivatives in
    exact arithmetic: on every state of non-zero total population and for
    every parameter set, the four formulas give derivatives whose sum is
    zero.  In binary64, whenever the rate function returns, the infected
    derivative is what leaves the two susceptible compartments minus what
    enters the recovered one, [(- dSu + - dSv) - dR], that addition and
    that subtraction being rounded: the sum of the four returned values is
    not zero in general. *)
Theorem sirv_ode_conservation :
  (∀ (t Su Sv I_ R : Q) (params : UiBasic.Params),
     ¬ (Su + Sv + I_ + R == 0)%Q →
     ∃ dSu dSv dI dR,
       UiBasic.sirv_ode t (Su, Sv, I_, R) params = Some (dSu, dSv, dI, dR) ∧
       (dSu + dSv + dI + dR == 0)%Q) ∧
  (∀ (t Su Sv I_ R : float) (params : Params) dSu dSv dI dR,
     sirv_ode t (Su, Sv, I_, R) params = Some (dSu, dSv, dI, dR) →
     dI = (- dSu + - dSv) - dR).
Proof.
  split; [apply sirv_ode_conservation_exact|].
  intros t Su Sv I_ R params dSu dSv dI dR. unfold sirv_ode.
  destruct (_ =? 0); [done|]. intros [= <- <- <- <-].
  by rewrite !float_opp_mul, !float_opp_involutive.
Qed.

Lemma sirv_ode_conservation_witness :
  (∃ dSu dSv dI dR,
     UiBasic.sirv_ode 0 (990, 0, 10, 0)%Q
       {| UiBasic.base_beta := 3 # 10; UiBasic.gamma := 1 # 10;
          UiBasic.vaccine_efficacy := 4 # 5; UiBasic.temperature_c := 10;
          UiBasic.mobility_index := 1; UiBasic.T0 := 10;
          UiBasic.alpha := 1 # 20 |} = Some (dSu, dSv, dI, dR) ∧
     (dSu + dSv + dI + dR == 0)%Q) ∧
  ∃ dSu dSv dI dR,
    sirv_ode 0 (1, 0, 1, 0)
      {| base_beta := 1; gamma := 0x1.999999999999ap-4;
         vaccine_efficacy := 0.5; temperature_c := 10;
         mobility_index := 1; T0 := 10; alpha := 0.5 |}
    = Some (dSu, dSv, dI, dR) ∧
    dI = (- dSu + - dSv) - dR.
Proof.
  destruct sirv_ode_conservation as [Hexact Hfloat]. split.
  - apply Hexact. vm_compute. discriminate.
  - do 4 eexists. split; [vm_compute; reflexivity|].
    apply (Hfloat 0 1 0 1 0
             {| base_beta := 1; gamma := 0x1.999999999999ap-4;
                vaccine_efficacy := 0.5; temperature_c := 10;
                mobility_index := 1; T0 := 10; alpha := 0.5 |}).
    vm_compute. reflexivity.
Defined.

(** The binary64 sum of the four derivatives is not bounded by a rounding
    error either: with the finite base rate [2^1023] the force of infection
    overflows, the derivatives are [-inf], [-inf], [inf] and [1.25], and
    their sum is a NaN. *)
Example sirv_ode_overflow_binary64 :
  ∃ dSu dSv dI dR,
    sirv_ode 0 (700, 300, 10, 5)
      {| base_beta := 0x1p1023; gamma := 0.125; vaccine_efficacy := 0.75;
         temperature_c := 10; mobility_index := 1; T0 := 10;
         alpha := 0.0625 |} = Some (dSu, dSv, dI, dR) ∧
    dSu = neg_infinity ∧ dSv = neg_infinity ∧ dI = infinity ∧ dR = 1.25 ∧
    is_nan (dSu + dSv + dI + dR) = true.
Proof.
  do 4 eexists. split; [vm_compute; reflexivity|].
  repeat split; vm_compute; reflexivity.
Qed.

(** C6. In binary64, on a state whose infected compartment is a zero,
    whose other compartments are finite and whose total is not zero, the
    rate function returns four zeros (of either sign, all equal to [0.0])
    provided the recovery rate is finite and the two intermediate values
    [beta], the effective transmission rate, and [1 - vaccine_efficacy] are
    finite, that is, did not overflow and come from no infinity or NaN.
    Without that proviso the products with the zero are NaN. *)
Theorem sirv_ode_disease_free (t Su Sv I_ R : float) (params : Params) :
  (I_ =? 0) = true →
  is_finite Su = true → is_finite Sv = true → is_finite R = true →
  (Su + Sv + I_ + R =? 0) = false →
  is_finite (gamma params) = true →
  is_finite (1 - vaccine_efficacy params) = true →
  is_finite (effective_beta (base_beta params) (temperature_c params)
               (mobility_index params) (T0 params) (alpha params)) = true →
  ∃ dSu dSv dI dR,
    sirv_ode t (Su, Sv, I_, R) params = Some (dSu, dSv, dI, dR) ∧
    (dSu =? 0) = true ∧ (dSv =? 0) = true ∧
    (dI =? 0) = true ∧ (dR =? 0) = true.
Proof.
  intros HI HSu HSv HR HN Hg Hw Hb. unfold sirv_ode. rewrite HN.
  set (beta := effective_beta _ _ _ _ _) in *.
  set (N := Su + Sv + I_ + R) in *.
  assert (HNnan : is_nan N = false).
  { unfold N.
    repeat apply float_add_not_nan;
      auto using float_zero_finite, float_finite_not_nan. }
  assert (Hu : (beta * I_ / N =? 0) = true).
  { apply float_zero_div; [by apply float_mul_zero|done..]. }
  assert (Hv : (beta * I_ / N * (1 - vaccine_efficacy params) =? 0) = true)
    by (by apply float_zero_mul).
  assert (HdR : (gamma params * I_ =? 0) = true) by (by apply float_mul_zero).
  do 4 eexists. split; [reflexivity|]. split_and!.
  - apply float_zero_mul; [by apply float_opp_zero|done].
  - apply float_zero_mul; [by apply float_opp_zero|done].
  - apply float_sub_zeros; [|done].
    apply float_add_zeros; by apply float_zero_mul.
  - done.
Qed.

Lemma sirv_ode_disease_free_witness :
  ∃ dSu dSv dI dR,
    sirv_ode 0 (700, 300, 0, 5)
      {| base_beta := 0.25; gamma := 0.125; vaccine_efficacy := 0.75;
         temperature_c := 0; mobility_index := 1; T0 := 10;
         alpha := 0.0625 |} = Some (dSu, dSv, dI, dR) ∧
    (dSu =? 0) = true ∧ (dSv =? 0) = true ∧
    (dI =? 0) = true ∧ (dR =? 0) = true.
Proof. apply sirv_ode_disease_free; reflexivity. Defined.

(** With the finite sensitivity [2^1023] and a temperature ten degrees
    below the reference, the survival factor overflows to an infinity, and
    so does the effective rate; its product with [I = 0] is a NaN, and
    three of the four derivatives are NaN. *)
Lemma sirv_ode_disease_free_overflow_counterexample :
  is_finite 0x1p1023 = true ∧
  is_finite
    (effective_beta 0.25 0 1 10 0x1p1023) = false ∧
  ∃ dSu dSv dI dR,
    sirv_ode 0 (700, 300, 0, 5)
      {| base_beta := 0.25; gamma := 0.125; vaccine_efficacy := 0.75;
         temperature_c := 0; mobility_index := 1; T0 := 10;
         alpha := 0x1p1023 |} = Some (dSu, dSv, dI, dR) ∧
    is_nan dSu = true ∧ is_nan dSv = true ∧ is_nan dI = true ∧
    (dSu =? 0) = false ∧ (dSv =? 0) = false ∧ (dI =? 0) = false ∧
    (dR =? 0) = true.
Proof.
  split; [reflexivity|]. split; [reflexivity|].
  do 4 eexists. split; [vm_compute; reflexivity|].
  repeat split; vm_compute; reflexivity.
Qed.

(** C7. In binary64, at or above the reference temperature the survival
    factor is exactly [1.0] for every finite sensitivity [alpha], and a NaN
    for an infinite or NaN sensitivity; below the reference temperature it
    is [1 + alpha * (T0 - temperature_c)], each of the three operations
    rounded to the nearest float. *)
Theorem virus_survival_factor_spec (temperature_c T0 alpha : float) :
  ((T0 <=? temperature_c) = true → is_finite alpha = true →
   virus_survival_factor temperature_c T0 alpha = 1) ∧
  ((T0 <=? temperature_c) = true → is_finite alpha = false →
   is_nan (virus_survival_factor temperature_c T0 alpha) = true) ∧
  ((temperature_c <? T0) = true →
   virus_survival_factor temperature_c T0 alpha
   = 1 + alpha * (T0 - temperature_c)).
Proof.
  unfold virus_survival_factor. split_and!.
  - intros Hle Ha. rewrite (float_sub_not_pos _ _ Hle).
    apply float_one_plus_zero. by apply float_mul_zero.
  - intros Hle Ha. rewrite (float_sub_not_pos _ _ Hle).
    apply float_one_plus_nan. by apply float_mul_zero_nan.
  - intros Hlt. by rewrite (float_sub_pos _ _ Hlt).
Qed.

Lemma virus_survival_factor_spec_witness :
  virus_survival_factor 25 10 0.0625 = 1 ∧
  is_nan (virus_survival_factor 25 10 nan) = true ∧
  virus_survival_factor 4 10 0.0625 = 1 + 0.0625 * (10 - 4).
Proof.
  destruct (virus_survival_factor_spec 25 10 0.0625) as (Hwarm & _ & _).
  destruct (virus_survival_factor_spec 25 10 nan) as (_ & Hnan & _).
  destruct (virus_survival_factor_spec 4 10 0.0625) as (_ & _ & Hcold).
  split; [by apply Hwarm|]. split; [by apply Hnan|by apply Hcold].
Defined.

(** At or above the reference temperature an infinite sensitivity gives a
    NaN, not 1: the product of the infinity with the zero of [max] is a
    NaN.  Below the reference temperature the value is rounded: for
    [temperature_c = 4], [T0 = 10] and the float nearest to 0.05 the result
    is [0x1.4cccccccccccdp0], which is not the exact value of
    [1 + alpha * (T0 - temperature_c)]. *)
Lemma virus_survival_factor_nan_counterexample :
  (10 <=? 25) = true ∧
  is_nan (virus_survival_factor 25 10 infinity) = true ∧
  (virus_survival_factor 25 10 infinity =? 1) = false ∧
  virus_survival_factor 4 10 0x1.999999999999ap-5 = 0x1.4cccccccccccdp0 ∧
  ¬ (to_Q (virus_survival_factor 4 10 0x1.999999999999ap-5)
     == 1 + to_Q 0x1.999999999999ap-5 * (to_Q 10 - to_Q 4))%Q.
Proof.
  repeat split; try (vm_compute; reflexivity). vm_compute. discriminate.
Qed.

End RateOfChange64.

(** ** The network engine *)

Section Network.
Import UiAdvance.
Local Open Scope sim_scope.
Context {R : Type} `{!RandomSource R}.

(** *** The monad and its loops *)

Lemma bind_Ok {A B} (m : M R A) (k : A → M R B) r b r2 :
  bind m k r = Ok (b, r2) ↔ ∃ a r1, m r = Ok (a, r1) ∧ k a r1 = Ok (b, r2).
Proof.
  unfold bind. split.
  - destruct (m r) as [[a r1]|e]; [eauto|discriminate].
  - intros (a & r1 & -> & Hk). exact Hk.
Qed.

Lemma bind_Raise {A B} (m : M R A) (k : A → M R B) r e :
  bind m k r = Raise e ↔
  m r = Raise e ∨ ∃ a r1, m r = Ok (a, r1) ∧ k a r1 = Raise e.
Proof.
  unfold bind. split.
  - destruct (m r) as [[a r1]|e']; [eauto|].
    intros [= ->]. by left.
  - intros [->|(a & r1 & -> & Hk)]; done.
Qed.

Lemma bind_assoc {A B C} (m : M R A) (k : A → M R B) (h : B → M R C) r :
  bind (bind m k) h r = bind m (λ a, bind (k a) h) r.
Proof. unfold bind. by destruct (m r) as [[a r1]|e]. Qed.

Lemma bind_cong {A B} (m : M R A) (k k' : A → M R B) r :
  (∀ a r1, k a r1 = k' a r1) → bind m k r = bind m k' r.
Proof. intros Hk. unfold bind. by destruct (m r) as [[a r1]|e]. Qed.

Lemma getitem_Ok (d : gmap node string) k (r : R) v r' :
  getitem d k r = Ok (v, r') ↔ d !! k = Some v ∧ r' = r.
Proof.
  unfold getitem, ret, raise. destruct (d !! k) as [w|]; split.
  - by intros [= -> ->].
  - by intros [[= ->] ->].
  - discriminate.
  - intros [? _]; discriminate.
Qed.

(** A loop keeps an invariant that each run of its body keeps. *)
Lemma foldM_invariant {A B} (P : A → Prop) (f : A → B → M R A) l :
  (∀ a b r a' r', b ∈ l → P a → f a b r = Ok (a', r') → P a') →
  ∀ a r a' r', P a → foldM f a l r = Ok (a', r') → P a'.
Proof.
  induction l as [|b l IH]; intros Hf a r a' r' Ha; simpl.
  - intros [= <- <-]. exact Ha.
  - intros (a1 & r1 & Hb & Hl)%bind_Ok.
    eapply IH; [|eapply Hf; [|exact Ha|exact Hb]|exact Hl].
    + intros ? b' **. eapply Hf; [|eassumption..]. by right.
    + by left.
Qed.

(** A loop whose body always returns, returns. *)
Lemma foldM_total {A B} (f : A → B → M R A) l :
  (∀ a b r, b ∈ l → ∃ a' r', f a b r = Ok (a', r')) →
  ∀ a r, ∃ a' r', foldM f a l r = Ok (a', r').
Proof.
  induction l as [|b l IH]; intros Hf a r; simpl.
  - by do 2 eexists.
  - destruct (Hf a b r) as (a1 & r1 & Hb); [by left|].
    destruct (IH (λ a b r Hin, Hf a b r (list_elem_of_further _ _ _ Hin)) a1 r1)
      as (a' & r' & Hl).
    exists a', r'. apply bind_Ok. eauto.
Qed.

(** *** What one step may do to a node *)

Lemma trans_refl curr : trans curr curr.
Proof. intros v. by left. Qed.

Lemma trans_recover curr new u :
  trans curr new → curr !! u = Some "I" → trans curr (<[u := "R"]> new).
Proof.
  intros Ht Hu v. destruct (decide (u = v)) as [->|Hne].
  - rewrite lookup_insert_eq. right; left. done.
  - rewrite lookup_insert_ne by done. apply Ht.
Qed.

Lemma trans_infect curr new u :
  trans curr new → curr !! u = Some "S" → trans curr (<[u := "I"]> new).
Proof.
  intros Ht Hu v. destruct (decide (u = v)) as [->|Hne].
  - rewrite lookup_insert_eq. right; right. done.
  - rewrite lookup_insert_ne by done. apply Ht.
Qed.

Lemma visit_nbr_trans curr beta new nbr (r : R) new' r' :
  trans curr new →
  visit_nbr curr beta new nbr r = Ok (new', r') → trans curr new'.
Proof.
  intros Ht. unfold visit_nbr.
  intros (s & r1 & [Hs ->]%getitem_Ok & Hk)%bind_Ok.
  destruct (decide (s = "S")) as [->|_].
  - apply bind_Ok in Hk as (x & r2 & _ & Hk).
    destruct (Qltb x beta); injection Hk as <- <-;
      [by apply trans_infect|done].
  - by injection Hk as <- <-.
Qed.

Lemma visit_node_trans G curr beta gamma new u (r : R) new' r' :
  trans curr new →
  visit_node G curr beta gamma new u r = Ok (new', r') → trans curr new'.
Proof.
  intros Ht. unfold visit_node.
  intros (s & r1 & [Hs ->]%getitem_Ok & Hk)%bind_Ok.
  destruct (decide (s = "I")) as [->|_].
  - apply bind_Ok in Hk as (x & r2 & _ & Hk).
    destruct (Qltb x gamma).
    + injection Hk as <- <-. by apply trans_recover.
    + apply bind_Ok in Hk as (nbrs & r3 & _ & Hk).
      eapply (foldM_invariant (trans curr)); [|exact Ht|exact Hk].
      intros ? ? ? ? ? _. apply visit_nbr_trans.
  - by injection Hk as <- <-.
Qed.

Lemma step_trans G curr beta gamma (r : R) new r' :
  step G curr beta gamma r = Ok (new, r') → trans curr new.
Proof.
  unfold step. apply (foldM_invariant (trans curr)); [|apply trans_refl].
  intros ? ? ? ? ? _. apply visit_node_trans.
Qed.

(** *** A step returns on a state that covers the graph *)

Lemma adj_lookup_nodes G u : u ∈ nodes G → is_Some (adj_lookup G u).
Proof.
  unfold nodes. induction G as [|[v ns] G IH]; simpl.
  - intros Hu. by apply elem_of_nil in Hu.
  - intros Hu. destruct (decide (u = v)) as [->|Hne]; [eauto|].
    apply elem_of_cons in Hu as [?|Hu]; [done|]. by apply IH.
Qed.

Lemma trans_lookup_is_Some curr new v :
  trans curr new → is_Some (new !! v) ↔ is_Some (curr !! v).
Proof.
  intros Ht. destruct (Ht v) as [->|[[-> ->]|[-> ->]]]; [done|..];
    split; eauto.
Qed.

Lemma trans_dom curr new : trans curr new → dom new = dom curr.
Proof.
  intros Ht. apply set_eq. intros v.
  rewrite !elem_of_dom. by apply trans_lookup_is_Some.
Qed.

Lemma trans_covers G curr new : trans curr new → covers G curr → covers G new.
Proof.
  unfold covers. rewrite !Forall_forall. intros Ht Hc u Hu.
  apply (trans_lookup_is_Some curr new u Ht). by apply Hc.
Qed.

Lemma adj_lookup_elem G u ns : adj_lookup G u = Some ns → (u, ns) ∈ G.
Proof.
  induction G as [|[v ns'] G IH]; simpl; [discriminate|].
  destruct (decide (u = v)) as [->|_].
  - intros [= ->]. by left.
  - intros Hl. right. by apply IH.
Qed.

Lemma graph_wf_closed G u ns v :
  graph_wf G → adj_lookup G u = Some ns → v ∈ ns → v ∈ nodes G.
Proof.
  intros [_ Hcl] Hl%adj_lookup_elem Hv.
  rewrite Forall_forall in Hcl. specialize (Hcl _ Hl). simpl in Hcl.
  rewrite Forall_forall in Hcl. by apply Hcl.
Qed.

Lemma visit_nbr_total curr beta new nbr (r : R) :
  is_Some (curr !! nbr) → ∃ new' r', visit_nbr curr beta new nbr r = Ok (new', r').
Proof.
  intros [s Hs]. unfold visit_nbr, bind, getitem, rand, ret. rewrite Hs.
  destruct (decide (s = "S")); [|eauto].
  destruct (random r) as [x r1]. destruct (Qltb x beta); eauto.
Qed.

Lemma visit_node_total G curr beta gamma new u (r : R) :
  graph_wf G → covers G curr → u ∈ nodes G →
  ∃ new' r', visit_node G curr beta gamma new u r = Ok (new', r').
Proof.
  intros HG Hc Hu. unfold covers in Hc. rewrite Forall_forall in Hc.
  destruct (Hc u Hu) as [s Hs].
  unfold visit_node, bind at 1, getitem, ret. rewrite Hs.
  destruct (decide (s = "I")); [|eauto].
  unfold bind at 1, rand. destruct (random r) as [x r1].
  destruct (Qltb x gamma); [unfold ret; eauto|].
  destruct (adj_lookup_nodes G u Hu) as [ns Hns].
  unfold bind, neighbors, ret. rewrite Hns.
  apply foldM_total. intros a b r2 Hb.
  apply visit_nbr_total, Hc. by eapply graph_wf_closed.
Qed.

Lemma step_total G curr beta gamma (r : R) :
  graph_wf G → covers G curr →
  ∃ new r', step G curr beta gamma r = Ok (new, r').
Proof.
  intros HG Hc. unfold step. apply foldM_total.
  intros a u r1 Hu. by apply visit_node_total.
Qed.

(** *** The history of a run *)

(** The snapshots added by [simulate]: as many as there are iterations, the
    [i]-th being the state after [i] steps. *)
Lemma simulate_spec G beta gamma T :
  ∀ history curr (r : R) history' r',
    simulate G beta gamma T history curr r = Ok (history', r') →
    ∃ l, history' = history ++ l ∧ length l = T ∧
         ∀ i s, l !! i = Some s →
                ∃ ri, step_n G beta gamma i curr r = Ok (s, ri).
Proof.
  induction T as [|T IH]; intros history curr r history' r'; simpl.
  - intros [= <- <-]. exists []. rewrite app_nil_r. split_and!; [done..|].
    intros i s Hi. by rewrite lookup_nil in Hi.
  - intros (new & r1 & Hstep & Hsim)%bind_Ok.
    destruct (IH _ _ _ _ _ Hsim) as (l & -> & Hlen & Hl).
    exists (curr :: l). rewrite <- app_assoc. split_and!; [done|simpl; lia|].
    intros [|i] s Hi; simpl in Hi.
    + injection Hi as <-. by exists r.
    + destruct (Hl i s Hi) as [ri Hri]. exists ri.
      simpl. apply bind_Ok. eauto.
Qed.

Lemma simulate_total G beta gamma T :
  graph_wf G →
  ∀ history curr (r : R), covers G curr →
    ∃ history' r', simulate G beta gamma T history curr r = Ok (history', r').
Proof.
  intros HG. induction T as [|T IH]; intros history curr r Hc; simpl.
  - by do 2 eexists.
  - destruct (step_total G curr beta gamma r HG Hc) as (new & r1 & Hstep).
    destruct (IH (history ++ [curr]) new r1) as (h' & r' & Hsim).
    { eapply trans_covers; [|exact Hc]. by eapply step_trans. }
    exists h', r'. apply bind_Ok. eauto.
Qed.

(** C1. On a well-formed graph, with an initial state that covers it and a
    step count of at least 0, [run_simulation] returns a history of exactly
    [(max_steps + 1) * 5] snapshots; snapshot 0 is the initial state and
    snapshot [i] is the result of applying [step] [i] times to it. *)
Theorem run_simulation_history G status0 beta gamma max_steps (r : R) :
  graph_wf G → covers G status0 → (0 ≤ max_steps)%Z →
  ∃ history r',
    run_simulation G status0 beta gamma max_steps r = Ok (history, r') ∧
    length history = Z.to_nat ((max_steps + 1) * 5) ∧
    history !! 0 = Some status0 ∧
    ∀ i, i < length history →
         ∃ s ri, history !! i = Some s ∧
                 step_n G beta gamma i status0 r = Ok (s, ri).
Proof.
  intros HG Hc Hn. unfold run_simulation.
  destruct (simulate_total G beta gamma (Z.to_nat ((max_steps + 1) * 5))
              HG [] status0 r Hc) as (history & r' & Hsim).
  exists history, r'. split; [exact Hsim|].
  apply simulate_spec in Hsim as (l & -> & Hlen & Hl). simpl.
  split; [exact Hlen|]. split.
  - destruct l as [|s l]; [simpl in Hlen; lia|].
    destruct (Hl 0 s eq_refl) as [ri Hri]. simpl in Hri.
    by injection Hri as -> _.
  - intros i Hi. destruct (lookup_lt_is_Some_2 l i Hi) as [s Hs].
    destruct (Hl i s Hs) as [ri Hri]. eauto.
Qed.

(** *** States only advance *)

Lemma advances_refl s : advances s s.
Proof. intros v. split; eauto. Qed.

Lemma advances_trans s1 s2 s3 :
  advances s1 s2 → advances s2 s3 → advances s1 s3.
Proof.
  intros H12 H23 v. destruct (H12 v) as [HR HI], (H23 v) as [HR' HI'].
  split; [eauto|]. intros [?|?]%HI; eauto.
Qed.

Lemma trans_advances curr new : trans curr new → advances curr new.
Proof.
  intros Ht v. destruct (Ht v) as [->|[[-> ->]|[-> ->]]];
    split; eauto; discriminate.
Qed.

Lemma step_n_advances G beta gamma i :
  ∀ s (r : R) s' r', step_n G beta gamma i s r = Ok (s', r') → advances s s'.
Proof.
  induction i as [|i IH]; intros s r s' r'; simpl.
  - intros [= <- <-]. apply advances_refl.
  - intros (s1 & r1 & Hstep%step_trans%trans_advances & Hn%IH)%bind_Ok.
    by eapply advances_trans.
Qed.

Lemma step_n_add G beta gamma i k :
  ∀ s (r : R) s' r',
    step_n G beta gamma (i + k) s r = Ok (s', r') →
    ∃ si ri, step_n G beta gamma i s r = Ok (si, ri) ∧
             step_n G beta gamma k si ri = Ok (s', r').
Proof.
  induction i as [|i IH]; intros s r s' r'; simpl.
  - intros Hk. by exists s, r.
  - intros (s1 & r1 & Hstep & Hn)%bind_Ok.
    destruct (IH _ _ _ _ Hn) as (si & ri & Hi & Hk).
    exists si, ri. split; [|exact Hk]. apply bind_Ok. eauto.
Qed.

(** C8. In a history returned by [run_simulation], a node that is ['R'] in
    a snapshot is ['R'] in every later snapshot, and a node that is ['I']
    in a snapshot is not ['S'] in any later snapshot. *)
Theorem run_simulation_monotone G status0 beta gamma max_steps (r : R)
    history r' :
  run_simulation G status0 beta gamma max_steps r = Ok (history, r') →
  ∀ i j si sj v,
    i ≤ j → history !! i = Some si → history !! j = Some sj →
    (si !! v = Some "R" → sj !! v = Some "R") ∧
    (si !! v = Some "I" → sj !! v ≠ Some "S").
Proof.
  unfold run_simulation.
  intros (l & -> & _ & Hl)%simulate_spec i j si sj v Hij Hi Hj.
  simpl in Hi, Hj.
  destruct (Hl i si Hi) as [ri Hri], (Hl j sj Hj) as [rj Hrj].
  replace j with (i + (j - i)) in Hrj by lia.
  apply step_n_add in Hrj as (si' & ri' & Hri' & Hk).
  rewrite Hri in Hri'. injection Hri' as <- <-.
  apply step_n_advances in Hk. destruct (Hk v) as [HR HI].
  split; [exact HR|]. intros [E|E]%HI; rewrite E; discriminate.
Qed.

(** *** Every snapshot is a state of the whole graph *)

Lemma trans_sir_valued curr new :
  trans curr new → sir_valued curr → sir_valued new.
Proof.
  intros Ht Hv u x Hx. destruct (Ht u) as [E|[[_ E]|[_ E]]].
  - rewrite E in Hx. by eapply Hv.
  - rewrite E in Hx. injection Hx as <-. auto.
  - rewrite E in Hx. injection Hx as <-. auto.
Qed.

Lemma step_n_shape G beta gamma i :
  ∀ s (r : R) s' r',
    step_n G beta gamma i s r = Ok (s', r') →
    dom s' = dom s ∧ (sir_valued s → sir_valued s').
Proof.
  induction i as [|i IH]; intros s r s' r'; simpl.
  - by intros [= <- <-].
  - intros (s1 & r1 & Hstep%step_trans & [Hd Hv]%IH)%bind_Ok.
    split.
    + rewrite Hd. by apply trans_dom.
    + intros Hs. by eapply Hv, trans_sir_valued.
Qed.

Lemma count_filter_sir (l : list (node * string)) :
  Forall (λ kv, kv.2 = "S" ∨ kv.2 = "I" ∨ kv.2 = "R") l →
  length (filter (λ kv, kv.2 = "S") l) + length (filter (λ kv, kv.2 = "I") l)
    + length (filter (λ kv, kv.2 = "R") l) = length l.
Proof.
  induction 1 as [|[u x] l Hx _ IH]; [done|].
  rewrite !filter_cons. simpl in *.
  destruct Hx as [-> | [-> | ->]]; repeat case_decide; try done; simpl; lia.
Qed.

(** The three counts of a state map add up to its size. *)
Lemma count_status_total st :
  sir_valued st →
  count_status "S" st + count_status "I" st + count_status "R" st = size st.
Proof.
  intros Hv. unfold count_status. rewrite count_filter_sir.
  - apply length_map_to_list.
  - apply Forall_forall. intros [u x] Hux%elem_of_map_to_list.
    by eapply Hv.
Qed.

Lemma dom_covers G st : dom st = list_to_set (nodes G) → covers G st.
Proof.
  intros Hd. apply Forall_forall. intros u Hu.
  apply elem_of_dom. rewrite Hd. by apply elem_of_list_to_set.
Qed.

(** C10. When the initial state maps exactly the nodes of the graph to
    values among ['S'], ['I'], ['R'], so does every snapshot of the history
    that [run_simulation] returns: no node is added or removed, and the
    numbers of susceptible, infected and recovered nodes add up to the
    number of nodes. *)
Theorem run_simulation_conserves G status0 beta gamma max_steps (r : R) :
  graph_wf G →
  dom status0 = list_to_set (nodes G) →
  sir_valued status0 →
  ∃ history r',
    run_simulation G status0 beta gamma max_steps r = Ok (history, r') ∧
    ∀ s, s ∈ history →
      dom s = list_to_set (nodes G) ∧
      sir_valued s ∧
      count_status "S" s + count_status "I" s + count_status "R" s
        = length (nodes G).
Proof.
  intros HG Hd Hv. unfold run_simulation.
  destruct (simulate_total G beta gamma (Z.to_nat ((max_steps + 1) * 5))
              HG [] status0 r (dom_covers _ _ Hd)) as (history & r' & Hsim).
  exists history, r'. split; [exact Hsim|].
  apply simulate_spec in Hsim as (l & -> & _ & Hl). simpl.
  intros s [i Hi]%list_elem_of_lookup.
  destruct (Hl i s Hi) as [ri [Hds Hvs]%step_n_shape].
  split_and!; [congruence|by apply Hvs|].
  rewrite count_status_total by by apply Hvs.
  rewrite <- size_dom, Hds, Hd. apply size_list_to_set, HG.
Qed.

(** *** A step takes its decisions on the frozen state *)

Lemma commit_insert st e : commit st e = <[target e := value e]> st.
Proof. by destruct e. Qed.

Lemma commit_snoc st evs e :
  foldl commit st (evs ++ [e]) = commit (foldl commit st evs) e.
Proof. by rewrite foldl_app. Qed.

(** A key that no decision writes keeps its value. *)
Lemma commit_lookup_other st evs v :
  (∀ e, e ∈ evs → target e ≠ v) → foldl commit st evs !! v = st !! v.
Proof.
  induction evs as [|e evs IH] using rev_ind; intros Hne; [done|].
  rewrite commit_snoc, commit_insert, lookup_insert_ne.
  - apply IH. intros e' He'. apply Hne, elem_of_app. by left.
  - apply Hne, elem_of_app. right. by apply list_elem_of_singleton.
Qed.

(** A key that some decision writes, all decisions writing the same value
    there, ends with that value. *)
Lemma commit_lookup_written st evs v x e :
  e ∈ evs → target e = v →
  (∀ e', e' ∈ evs → target e' = v → value e' = x) →
  foldl commit st evs !! v = Some x.
Proof.
  induction evs as [|e1 evs IH] using rev_ind; intros He Ht Hx.
  { by apply elem_of_nil in He. }
  rewrite commit_snoc, commit_insert.
  destruct (decide (target e1 = v)) as [E|Hne].
  - rewrite E, lookup_insert_eq. f_equal. apply Hx; [|done].
    apply elem_of_app. right. by apply list_elem_of_singleton.
  - rewrite lookup_insert_ne by done. apply IH; [|done|].
    + apply elem_of_app in He as [He|He%list_elem_of_singleton]; [done|].
      congruence.
    + intros e' He'. apply Hx, elem_of_app. by left.
Qed.

(** A loop on an abstraction [φ] of the loop state of another loop. *)
Lemma foldM_abstraction {A A' B} (φ : A' → A)
    (f : A → B → M R A) (f' : A' → B → M R A') l :
  (∀ a' b r, f (φ a') b r = bind (f' a' b) (λ x, ret (φ x)) r) →
  ∀ a' r, foldM f (φ a') l r = bind (foldM f' a' l) (λ x, ret (φ x)) r.
Proof.
  intros Hf. induction l as [|b l IH]; intros a' r; simpl; [done|].
  unfold bind in *. rewrite Hf.
  destruct (f' a' b r) as [[a1 r1]|e]; [|done].
  unfold ret at 1. apply IH.
Qed.

Lemma visit_nbr_decisions st0 curr beta u evs nbr (r : R) :
  visit_nbr curr beta (foldl commit st0 evs) nbr r
  = bind (decisions_nbr curr beta u evs nbr)
         (λ evs', ret (foldl commit st0 evs')) r.
Proof.
  unfold visit_nbr, decisions_nbr, bind, getitem, rand, ret, raise.
  destruct (curr !! nbr) as [s|]; [|done].
  destruct (decide (s = "S")); [|done].
  destruct (random r) as [x r1]. destruct (Qltb x beta); [|done].
  by rewrite commit_snoc.
Qed.

Lemma visit_node_decisions G st0 curr beta gamma evs u (r : R) :
  visit_node G curr beta gamma (foldl commit st0 evs) u r
  = bind (decisions_node G curr beta gamma evs u)
         (λ evs', ret (foldl commit st0 evs')) r.
Proof.
  unfold visit_node, decisions_node.
  rewrite bind_assoc. apply bind_cong. intros s r0.
  destruct (decide (s = "I")); [|done].
  rewrite bind_assoc. apply bind_cong. intros x r1.
  destruct (Qltb x gamma).
  { unfold bind, ret. by rewrite commit_snoc. }
  rewrite bind_assoc. apply bind_cong. intros ns r2.
  apply foldM_abstraction. intros. apply visit_nbr_decisions.
Qed.

(** [step] is [step_frozen]: same value, same final generator state, same
    exception. *)
Lemma step_step_frozen G curr beta gamma (r : R) :
  step G curr beta gamma r = step_frozen G curr beta gamma r.
Proof.
  unfold step, step_frozen, decisions.
  apply (foldM_abstraction (foldl commit curr) _ _ _
           (visit_node_decisions G curr curr beta gamma) []).
Qed.

(** *** The decisions of a step *)

Lemma decisions_nbrs_inv curr beta u ns :
  ∀ evs (r : R) evs' r',
    foldM (decisions_nbr curr beta u) evs ns r = Ok (evs', r') →
    ∃ d, evs' = evs ++ d ∧
         Forall (λ e, ∃ v, e = Transmit u v ∧ v ∈ ns ∧ curr !! v = Some "S") d.
Proof.
  induction ns as [|nbr ns IH]; intros evs r evs' r'; simpl.
  - intros [= <- <-]. exists []. by rewrite app_nil_r.
  - intros (evs1 & r1 & Hnbr & Hl)%bind_Ok.
    destruct (IH _ _ _ _ Hl) as (d & -> & Hd).
    assert (Hd' : Forall (λ e, ∃ v, e = Transmit u v ∧ v ∈ nbr :: ns
                                    ∧ curr !! v = Some "S") d).
    { eapply Forall_impl; [exact Hd|]. intros e (v & -> & Hv & Hs).
      exists v. split_and!; [done|by right|done]. }
    unfold decisions_nbr in Hnbr.
    apply bind_Ok in Hnbr as (s & r2 & [Hs ->]%getitem_Ok & Hk).
    destruct (decide (s = "S")) as [->|_].
    + apply bind_Ok in Hk as (x & r3 & _ & Hk).
      destruct (Qltb x beta); injection Hk as <- <-.
      * exists (Transmit u nbr :: d). rewrite <- app_assoc. split; [done|].
        constructor; [|done]. exists nbr. split_and!; [done|by left|done].
      * by exists d.
    + injection Hk as <- <-. by exists d.
Qed.

Lemma decisions_node_inv G curr beta gamma evs u (r : R) evs' r' :
  decisions_node G curr beta gamma evs u r = Ok (evs', r') →
  ∃ d, evs' = evs ++ d ∧ node_events G curr u d.
Proof.
  unfold decisions_node.
  intros (s & r1 & [Hs ->]%getitem_Ok & Hk)%bind_Ok.
  destruct (decide (s = "I")) as [->|_].
  - apply bind_Ok in Hk as (x & r2 & _ & Hk).
    destruct (Qltb x gamma).
    + injection Hk as <- <-. exists [Recover u]. split; [done|]. by left.
    + apply bind_Ok in Hk as (ns & r3 & Hns & Hk).
      unfold neighbors in Hns.
      destruct (adj_lookup G u) as [ns'|] eqn:Hadj; [|discriminate].
      injection Hns as -> ->.
      apply decisions_nbrs_inv in Hk as (d & -> & Hd).
      exists d. split; [done|]. right.
      eapply Forall_impl; [exact Hd|]. intros e (v & -> & Hv & Hsv).
      split; [by exists v|]. repeat split; simpl; eauto.
  - injection Hk as <- <-. exists []. rewrite app_nil_r. split; [done|].
    right. constructor.
Qed.

Lemma decisions_loop_inv G curr beta gamma l :
  ∀ evs (r : R) evs' r',
    foldM (decisions_node G curr beta gamma) evs l r = Ok (evs', r') →
    ∃ d, evs' = evs ++ d ∧ events_of G curr l d.
Proof.
  induction l as [|u l IH]; intros evs r evs' r'; simpl.
  - intros [= <- <-]. exists []. rewrite app_nil_r. split; [done|constructor].
  - intros (evs1 & r1 & (d1 & -> & Hd1)%decisions_node_inv & Hl)%bind_Ok.
    destruct (IH _ _ _ _ Hl) as (d2 & -> & Hd2).
    exists (d1 ++ d2). rewrite app_assoc. split; [done|by constructor].
Qed.

Lemma node_events_elem G curr u d e :
  node_events G curr u d → e ∈ d → source e = u ∧ event_ok G curr e.
Proof.
  intros [[-> Hu]|Hd] He.
  - apply list_elem_of_singleton in He as ->. by repeat split.
  - rewrite Forall_forall in Hd. destruct (Hd e He) as [[v ->] Hok]. done.
Qed.

Lemma node_events_exclusive G curr u d w v :
  node_events G curr u d → Recover w ∈ d → Transmit w v ∈ d → False.
Proof.
  intros [[-> _]|Hd] HR HT.
  - by apply list_elem_of_singleton in HT.
  - rewrite Forall_forall in Hd. by destruct (Hd _ HR) as [[? ?] _].
Qed.

Lemma events_of_elem G curr l d e :
  events_of G curr l d → e ∈ d → source e ∈ l ∧ event_ok G curr e.
Proof.
  induction 1 as [|u l d1 d2 H1 _ IH]; intros He.
  - by apply elem_of_nil in He.
  - apply elem_of_app in He as [He|He].
    + destruct (node_events_elem _ _ _ _ _ H1 He) as [<- Hok].
      split; [by left|done].
    + destruct (IH He) as [Hs Hok]. split; [by right|done].
Qed.

(** Along pairwise distinct nodes, no node both recovers and transmits. *)
Lemma events_of_exclusive G curr l d w v :
  NoDup l → events_of G curr l d →
  Recover w ∈ d → Transmit w v ∈ d → False.
Proof.
  intros Hnd Hev. induction Hev as [|u l d1 d2 H1 H2 IH].
  { intros HR. by apply elem_of_nil in HR. }
  apply NoDup_cons in Hnd as [Hu Hnd].
  intros [HR|HR]%elem_of_app [HT|HT]%elem_of_app.
  - by eapply node_events_exclusive.
  - apply (node_events_elem _ _ _ _ _ H1) in HR as [<- _].
    apply (events_of_elem _ _ _ _ _ H2) in HT as [HT _]. done.
  - apply (node_events_elem _ _ _ _ _ H1) in HT as [<- _].
    apply (events_of_elem _ _ _ _ _ H2) in HR as [HR _]. done.
  - by apply IH.
Qed.

Lemma events_frozen_outcome G curr evs :
  NoDup (nodes G) → events_of G curr (nodes G) evs →
  frozen_outcome G curr evs (foldl commit curr evs).
Proof.
  intros Hnd Hev.
  assert (Hok : ∀ e, e ∈ evs → event_ok G curr e).
  { intros e He. by destruct (events_of_elem _ _ _ _ _ Hev He). }
  split_and!.
  - intros u Hu. destruct (Hok _ Hu) as [Hcu _]. simpl in Hcu.
    split_and!; [done| |].
    + apply (commit_lookup_written _ _ _ _ (Recover u)); [done..|].
      intros [w|w v] He' Ht; [done|]. simpl in Ht. subst v.
      destruct (Hok _ He') as (_ & Hs & _). congruence.
    + intros v Hv. by eapply events_of_exclusive.
  - intros u Hcu Hu. rewrite commit_lookup_other; [done|].
    intros [w|w v] He Ht; simpl in Ht; subst.
    + done.
    + destruct (Hok _ He) as (_ & Hs & _). congruence.
  - intros u v He. destruct (Hok _ He) as (Hcu & Hcv & Hns). simpl in Hcu.
    split_and!; [done..|].
    apply (commit_lookup_written _ _ _ _ (Transmit u v)); [done..|].
    intros [w|w v'] He' Ht; [|done]. simpl in Ht. subst w.
    destruct (Hok _ He') as [Hi _]. simpl in Hi. congruence.
  - intros v Hcv Hv. rewrite commit_lookup_other; [done|].
    intros [w|w v'] He Ht; simpl in Ht; subst.
    + destruct (Hok _ He) as [Hi _]. simpl in Hi. congruence.
    + by apply (Hv w).
  - intros v Hcv. split; [|intros w]; intros He;
      destruct (Hok _ He) as [Hi _]; done.
  - intros v Hv. by apply commit_lookup_other.
Qed.

(** C9. The body of the loop of a step, at a node [u] that is infected in
    the frozen state [curr], makes one recovery draw: when it is below
    [gamma] the node becomes ['R'] and nothing else changes, and otherwise
    the node is left as it is and each neighbour that is susceptible in
    [curr] gets a draw of its own and becomes ['I'] when that draw is below
    [beta].  A node that is not infected in [curr] draws nothing and
    changes nothing, whatever the state under construction says about it.
    As a whole, a step takes its decisions on [curr] alone and then commits
    them, with the outcome [frozen_outcome]. *)
Theorem step_decisions G curr beta gamma :
  (∀ new u (r : R), curr !! u = Some "I" →
     visit_node G curr beta gamma new u r
     = if Qltb (random r).1 gamma then Ok (<[u := "R"]> new, (random r).2)
       else (do nbrs <- neighbors G u;
             foldM (visit_nbr curr beta) new nbrs) (random r).2) ∧
  (∀ new u x (r : R), curr !! u = Some x → x ≠ "I" →
     visit_node G curr beta gamma new u r = Ok (new, r)) ∧
  (∀ new v (r : R), curr !! v = Some "S" →
     visit_nbr curr beta new v r
     = Ok (if Qltb (random r).1 beta then <[v := "I"]> new else new,
           (random r).2)) ∧
  (∀ new v x (r : R), curr !! v = Some x → x ≠ "S" →
     visit_nbr curr beta new v r = Ok (new, r)) ∧
  (∀ (r : R) new r',
     graph_wf G → step G curr beta gamma r = Ok (new, r') →
     ∃ evs, decisions G curr beta gamma r = Ok (evs, r') ∧
            new = foldl commit curr evs ∧
            frozen_outcome G curr evs new).
Proof.
  split_and!.
  - intros new u r Hu. unfold visit_node, bind at 1, getitem, ret at 1.
    rewrite Hu. simpl. unfold bind at 1, rand.
    destruct (random r) as [x r1]. simpl. by destruct (Qltb x gamma).
  - intros new u x r Hu Hx. unfold visit_node, bind, getitem, ret.
    rewrite Hu. by rewrite decide_False.
  - intros new v r Hv. unfold visit_nbr, bind, getitem, ret, rand.
    rewrite Hv. simpl. destruct (random r) as [x r1]. simpl.
    by destruct (Qltb x beta).
  - intros new v x r Hv Hx. unfold visit_nbr, bind, getitem, ret.
    rewrite Hv. by rewrite decide_False.
  - intros r new r' [Hnd _] Hstep. rewrite step_step_frozen in Hstep.
    unfold step_frozen in Hstep.
    apply bind_Ok in Hstep as (evs & r1 & Hdec & Hret).
    injection Hret as <- <-. exists evs. split_and!; [done..|].
    unfold decisions in Hdec.
    apply decisions_loop_inv in Hdec as (d & -> & Hd).
    by apply events_frozen_outcome.
Qed.

(** *** Initialisation *)

Lemma nodes_graph_of_edges n es : nodes (graph_of_edges n es) = seq 0 n.
Proof.
  unfold nodes, graph_of_edges. rewrite <- list_fmap_compose.
  apply list_fmap_id.
Qed.

Lemma graph_of_edges_wf n es : graph_wf (graph_of_edges n es).
Proof.
  split.
  - rewrite nodes_graph_of_edges. apply NoDup_seq.
  - rewrite nodes_graph_of_edges. unfold graph_of_edges.
    apply Forall_fmap, Forall_forall. intros u _. simpl.
    apply Forall_forall. intros v Hv. by apply list_elem_of_filter in Hv as [_ Hv].
Qed.

Lemma erdos_renyi_graph_Ok n p (r : R) :
  ∃ es r', erdos_renyi_graph n p r = Ok (graph_of_edges n es, r').
Proof.
  unfold erdos_renyi_graph.
  destruct (Qle_bool p 0); [by do 2 eexists|].
  destruct (Qle_bool 1 p); [by do 2 eexists|].
  destruct (foldM_total (keep_edge p) (combinations2 n)) with (a := @nil (node * node)) (r := r)
    as (es & r' & Hes).
  { intros a b r0 _. unfold keep_edge, bind, rand, ret.
    destruct (random r0) as [x r1]. destruct (Qltb x p); eauto. }
  exists es, r'. unfold bind. by rewrite Hes.
Qed.



Lemma omap_lookup_seq n (l : list nat) :
  Forall (λ i, i < n) l → omap (λ i, seq 0 n !! i) l = l.
Proof.
  induction 1 as [|i l Hi _ IH]; [done|].
  csimpl. rewrite lookup_seq_lt by done. csimpl. by rewrite IH.
Qed.

Lemma sample_seq n k (r : R) :
  (0 ≤ k ≤ Z.of_nat n)%Z →
  ∃ infected r',
    sample (seq 0 n) k r = Ok (infected, r') ∧
    NoDup infected ∧ length infected = Z.to_nat k ∧
    Forall (λ i, i < n) infected.
Proof.
  intros Hk. unfold sample. rewrite length_seq.
  rewrite bool_decide_eq_true_2 by done.
  assert (Hle : Z.to_nat k ≤ n) by lia.
  pose proof (sample_idx_length n _ r Hle) as Hlen.
  pose proof (sample_idx_NoDup n _ r Hle) as Hnd.
  pose proof (sample_idx_lt n _ r Hle) as Hlt.
  destruct (sample_idx n (Z.to_nat k) r) as [idx r']. simpl in *.
  exists idx, r'. by rewrite omap_lookup_seq.
Qed.

Lemma sample_too_many (population : list node) k (r : R) :
  (Z.of_nat (length population) < k)%Z →
  sample population k r = Raise ValueError.
Proof.
  intros Hk. unfold sample. rewrite bool_decide_eq_false_2; [done|lia].
Qed.

Lemma foldl_insert_lookup (x : string) (l : list node) :
  ∀ (st : gmap node string) v,
    foldl (λ st u, <[u := x]> st) st l !! v
    = if decide (v ∈ l) then Some x else st !! v.
Proof.
  induction l as [|u l IH]; intros st v; simpl.
  - done.
  - rewrite IH. destruct (decide (v ∈ l)) as [Hv|Hv].
    + rewrite decide_True; [done|by right].
    + destruct (decide (u = v)) as [->|Hne].
      * rewrite lookup_insert_eq, decide_True; [done|by left].
      * rewrite lookup_insert_ne by done. rewrite decide_False; [done|].
        intros [?|?]%elem_of_cons; congruence.
Qed.

Lemma status_of_lookup n infected v :
  Forall (λ i, i < n) infected →
  status_of n infected !! v
  = if decide (v < n)
    then Some (if decide (v ∈ infected) then "I" else "S")
    else None.
Proof.
  intros Hlt. unfold status_of. rewrite !foldl_insert_lookup, lookup_empty.
  rewrite Forall_forall in Hlt. pose proof (elem_of_seq 0 n v) as Hseq.
  repeat case_decide; try done; exfalso;
    repeat match goal with
    | H : _ ∈ seq _ _ |- _ => apply Hseq in H
    | H : _ ∈ infected |- _ => apply Hlt in H
    | H : _ ∉ seq _ _ |- _ => apply H, Hseq
    end; lia.
Qed.

Lemma initialize_network_unfold n p init_frac (r : R) es r1 :
  erdos_renyi_graph n p r = Ok (graph_of_edges n es, r1) →
  initialize_network n p init_frac r
  = match sample (seq 0 n) (initial_infected n init_frac) r1 with
    | Ok (infected, r') =>
        Ok ((graph_of_edges n es, status_of n infected), r')
    | Raise e => Raise e
    end.
Proof.
  intros HG. unfold initialize_network, bind. rewrite HG.
  by rewrite nodes_graph_of_edges.
Qed.

(** [initialize_network] raises [ValueError] when it asks for more nodes
    than there are, and otherwise returns the random graph with the sampled
    nodes infected. *)
Lemma initialize_network_cases n p init_frac (r : R) :
  ((Z.of_nat n < initial_infected n init_frac)%Z ∧
   initialize_network n p init_frac r = Raise ValueError) ∨
  ((initial_infected n init_frac ≤ Z.of_nat n)%Z ∧
   ∃ es infected r',
     initialize_network n p init_frac r
       = Ok ((graph_of_edges n es, status_of n infected), r') ∧
     NoDup infected ∧
     Z.of_nat (length infected) = initial_infected n init_frac ∧
     Forall (λ i, i < n) infected).
Proof.
  destruct (erdos_renyi_graph_Ok n p r) as (es & r1 & HG).
  rewrite (initialize_network_unfold n p init_frac r es r1 HG).
  assert (H1 : (1 ≤ initial_infected n init_frac)%Z)
    by (unfold initial_infected; lia).
  destruct (decide (initial_infected n init_frac ≤ Z.of_nat n)%Z) as [Hk|Hk].
  - right. split; [done|].
    destruct (sample_seq n (initial_infected n init_frac) r1)
      as (infected & r' & Hs & Hnd & Hlen & Hlt); [lia|].
    exists es, infected, r'. rewrite Hs.
    split_and!; [done|done|lia|done].
  - left. split; [lia|].
    rewrite sample_too_many; [done|]. rewrite length_seq. lia.
Qed.

(** A count is the size of the part of the state map with that value. *)
Lemma count_status_size s (st : gmap node string) :
  count_status s st = size (filter (λ kv : node * string, kv.2 = s) st).
Proof.
  unfold count_status. rewrite map_filter_alt, map_size_list_to_map; [done|].
  apply (sublist_NoDup _ (map_to_list st).*1).
  - apply NoDup_fst_map_to_list.
  - apply fmap_sublist, sublist_filter.
Qed.

Lemma status_of_dom n infected :
  Forall (λ i, i < n) infected →
  dom (status_of n infected) = list_to_set (seq 0 n).
Proof.
  intros Hlt. apply set_eq. intros v.
  rewrite elem_of_dom, elem_of_list_to_set, elem_of_seq, status_of_lookup by done.
  case_decide; split; try lia; eauto. by intros [? ?].
Qed.

Lemma status_of_sir_valued n infected :
  Forall (λ i, i < n) infected → sir_valued (status_of n infected).
Proof.
  intros Hlt v x. rewrite status_of_lookup by done.
  repeat case_decide; intros [= <-]; auto.
Qed.

Lemma status_of_count_infected n infected :
  NoDup infected → Forall (λ i, i < n) infected →
  count_status "I" (status_of n infected) = length infected.
Proof.
  intros Hnd Hlt. rewrite count_status_size, <- size_dom.
  rewrite <- (size_list_to_set (C := gset node) infected Hnd). f_equal.
  apply dom_filter_L. intros v. rewrite elem_of_list_to_set.
  rewrite Forall_forall in Hlt. split.
  - intros Hv. exists "I". split; [|done].
    rewrite status_of_lookup by by apply Forall_forall.
    rewrite decide_True by by apply Hlt. by rewrite decide_True.
  - intros (x & Hx & Hp). simpl in Hp. subst x.
    rewrite status_of_lookup in Hx by by apply Forall_forall.
    repeat case_decide; done.
Qed.

(** *** [initialize_network] with the sample size of binary64 *)

Lemma initialize_network64_unfold n p init_frac (r : R) es r1 :
  erdos_renyi_graph n p r = Ok (graph_of_edges n es, r1) →
  UiAdvance64.initialize_network n p init_frac r
  = match UiAdvance64.initial_infected n init_frac with
    | Ok k =>
        match sample (seq 0 n) k r1 with
        | Ok (infected, r') =>
            Ok ((graph_of_edges n es, status_of n infected), r')
        | Raise e => Raise e
        end
    | Raise e => Raise e
    end.
Proof.
  intros HG. unfold UiAdvance64.initialize_network, bind. rewrite HG.
  rewrite nodes_graph_of_edges.
  by destruct (UiAdvance64.initial_infected n init_frac).
Qed.

(** [initialize_network] raises what the computation of the sample size
    raises; with a sample size [k] it raises [ValueError] when [k] exceeds
    the number of nodes, and otherwise returns the random graph with [k]
    sampled nodes infected. *)
Lemma initialize_network64_cases n p init_frac (r : R) :
  match UiAdvance64.initial_infected n init_frac with
  | Raise e => UiAdvance64.initialize_network n p init_frac r = Raise e
  | Ok k =>
      ((Z.of_nat n < k)%Z ∧
       UiAdvance64.initialize_network n p init_frac r = Raise ValueError) ∨
      ((1 ≤ k ≤ Z.of_nat n)%Z ∧
       ∃ es infected r',
         UiAdvance64.initialize_network n p init_frac r
           = Ok ((graph_of_edges n es, status_of n infected), r') ∧
         NoDup infected ∧
         Z.of_nat (length infected) = k ∧
         Forall (λ i, i < n) infected)
  end.
Proof.
  destruct (erdos_renyi_graph_Ok n p r) as (es & r1 & HG).
  rewrite (initialize_network64_unfold n p init_frac r es r1 HG).
  destruct (UiAdvance64.initial_infected n init_frac) as [k|e] eqn:Ek; [|done].
  pose proof (initial_infected_ge_1 _ _ _ Ek) as H1.
  destruct (decide (k ≤ Z.of_nat n)%Z) as [Hk|Hk].
  - right. split; [done|].
    destruct (sample_seq n k r1)
      as (infected & r' & Hs & Hnd & Hlen & Hlt); [lia|].
    exists es, infected, r'. rewrite Hs.
    split_and!; [done|done|lia|done].
  - left. split; [lia|].
    rewrite sample_too_many; [done|]. rewrite length_seq. lia.
Qed.

(** C2. For at least one node, fewer than [2^53], and a fraction of
    [[0,1]], the sample size [k = max(1, int(init_frac * n))], the product
    being rounded to binary64 and then truncated (not rounded to the
    nearest integer), is between 1 and [n]; [initialize_network] returns,
    and it marks exactly [k] pairwise distinct nodes of the graph as ['I'];
    every other node of the graph is ['S']. *)
Theorem initialize_network_infected n p (init_frac : float) (r : R) :
  1 ≤ n → (Z.of_nat n < 2 ^ 53)%Z →
  (0 <=? init_frac)%float = true → (init_frac <=? 1)%float = true →
  ∃ k G status infected r',
    UiAdvance64.initial_infected n init_frac = Ok k ∧
    (1 ≤ k ≤ Z.of_nat n)%Z ∧
    UiAdvance64.initialize_network n p init_frac r = Ok ((G, status), r') ∧
    nodes G = seq 0 n ∧
    NoDup infected ∧
    Z.of_nat (length infected) = k ∧
    (∀ v, v ∈ infected → v ∈ nodes G ∧ status !! v = Some "I") ∧
    (∀ v, v ∈ nodes G → v ∉ infected → status !! v = Some "S") ∧
    dom status = list_to_set (nodes G) ∧
    count_status "I" status = length infected.
Proof.
  intros Hn Hn53 H0 H1.
  destruct (initial_infected_unit n init_frac Hn Hn53 H0 H1) as (k & Ek & Hk).
  pose proof (initialize_network64_cases n p init_frac r) as Hcases.
  rewrite Ek in Hcases.
  destruct Hcases
    as [[Hlt _]|(_ & es & infected & r' & Hinit & Hnd & Hlen & Hlt)]; [lia|].
  exists k, (graph_of_edges n es), (status_of n infected), infected, r'.
  rewrite nodes_graph_of_edges.
  split_and!; [done|lia|lia|done..| | | |].
  - intros v Hv. rewrite status_of_lookup by done.
    assert (v < n) by (rewrite Forall_forall in Hlt; by apply Hlt).
    split; [apply elem_of_seq; lia|]. by rewrite !decide_True.
  - intros v Hv%elem_of_seq Hni. rewrite status_of_lookup by done.
    rewrite decide_True by lia. by rewrite decide_False.
  - by apply status_of_dom.
  - by apply status_of_count_infected.
Qed.

(** What the binary64 [initialize_network] returns is fit for
    [run_simulation] as well. *)
Lemma initialize_network64_fit n p init_frac (r : R) G status r' :
  UiAdvance64.initialize_network n p init_frac r = Ok ((G, status), r') →
  graph_wf G ∧ dom status = list_to_set (nodes G) ∧ sir_valued status.
Proof.
  pose proof (initialize_network64_cases n p init_frac r) as Hcases.
  destruct (UiAdvance64.initial_infected n init_frac) as [k|e];
    [|by rewrite Hcases].
  destruct Hcases as [[_ E]|(_ & es & infected & r1 & E & _ & _ & Hlt)];
    rewrite E; [discriminate|].
  intros [= <- <- <-]. rewrite nodes_graph_of_edges. split_and!.
  - apply graph_of_edges_wf.
  - by apply status_of_dom.
  - by apply status_of_sir_valued.
Qed.

(** What [initialize_network] returns is fit for [run_simulation]. *)
Lemma initialize_network_fit n p init_frac (r : R) G status r' :
  initialize_network n p init_frac r = Ok ((G, status), r') →
  graph_wf G ∧ dom status = list_to_set (nodes G) ∧ sir_valued status.
Proof.
  destruct (initialize_network_cases n p init_frac r)
    as [[_ E]|(_ & es & infected & r1 & E & _ & _ & Hlt)];
    rewrite E; [discriminate|].
  intros [= <- <- <-]. rewrite nodes_graph_of_edges. split_and!.
  - apply graph_of_edges_wf.
  - by apply status_of_dom.
  - by apply status_of_sir_valued.
Qed.

(** *** Probabilities outside the unit interval *)

Lemma Qltb_clamp01 (x beta : Q) :
  (0 <= x)%Q → (x < 1)%Q → Qltb x (clamp01 beta) = Qltb x beta.
Proof.
  intros H0 H1. unfold clamp01.
  destruct (Qltb beta 0) eqn:Eneg.
  - apply Qltb_true in Eneg.
    transitivity false; [|symmetry]; apply Qltb_false; [done|].
    apply Qlt_le_weak. by eapply Qlt_le_trans.
  - destruct (Qltb 1 beta) eqn:Ebig; [|done].
    apply Qltb_true in Ebig.
    transitivity true; [|symmetry]; apply Qltb_true; [done|].
    by transitivity 1%Q.
Qed.

Lemma foldM_ext {A B} (f g : A → B → M R A) l :
  (∀ a b r, f a b r = g a b r) → ∀ a r, foldM f a l r = foldM g a l r.
Proof.
  intros Hfg. induction l as [|b l IH]; intros a r; simpl; [done|].
  unfold bind. rewrite Hfg. by destruct (g a b r) as [[a' r']|e].
Qed.

Lemma visit_nbr_clamp curr beta new nbr (r : R) :
  visit_nbr curr (clamp01 beta) new nbr r = visit_nbr curr beta new nbr r.
Proof.
  unfold visit_nbr. apply bind_cong. intros s r1.
  destruct (decide (s = "S")); [|done].
  unfold bind, rand. destruct (random_unit r1) as [H0 H1].
  destruct (random r1) as [x r2]. simpl in *. by rewrite Qltb_clamp01.
Qed.

Lemma visit_node_clamp G curr beta gamma new u (r : R) :
  visit_node G curr (clamp01 beta) (clamp01 gamma) new u r
  = visit_node G curr beta gamma new u r.
Proof.
  unfold visit_node. apply bind_cong. intros s r1.
  destruct (decide (s = "I")); [|done].
  unfold bind at 1 3, rand. destruct (random_unit r1) as [H0 H1].
  destruct (random r1) as [x r2]. simpl in *. rewrite Qltb_clamp01 by done.
  destruct (Qltb x gamma); [done|].
  apply bind_cong. intros ns r3. apply foldM_ext. intros.
  apply visit_nbr_clamp.
Qed.

Lemma step_clamp G curr beta gamma (r : R) :
  step G curr (clamp01 beta) (clamp01 gamma) r = step G curr beta gamma r.
Proof. unfold step. apply foldM_ext. intros. apply visit_node_clamp. Qed.

(** A probability outside [[0,1]] acts as the nearest bound. *)
Lemma simulate_clamp G beta gamma T :
  ∀ history curr (r : R),
    simulate G (clamp01 beta) (clamp01 gamma) T history curr r
    = simulate G beta gamma T history curr r.
Proof.
  induction T as [|T IH]; intros history curr r; simpl; [done|].
  unfold bind. rewrite step_clamp.
  destruct (step G curr beta gamma r) as [[new r1]|e]; [apply IH|done].
Qed.

(** C3. The engine checks no parameter and has no exception of its own.
    [initialize_network] accepts every edge probability.  It raises what
    the computation of [max(1, int(init_frac * n))] raises: the
    [ValueError] of [int] for a NaN and its [OverflowError] for an
    infinity, which a NaN or infinite fraction gives.  With a sample size
    [k] it raises exactly when [k] exceeds [n], and then the [ValueError]
    of [random.sample].  It raises nothing else, and it always raises
    [ValueError] for [n = 0].  [run_simulation] returns a history for every
    [beta] and [gamma], in [[0,1]] or not, on a well-formed graph with a
    state that covers it, and a [beta] or [gamma] outside [[0,1]] acts as
    the nearest bound. *)
Theorem no_parameter_validation :
  (∀ n p init_frac (r : R) e,
     UiAdvance64.initial_infected n init_frac = Raise e →
     UiAdvance64.initialize_network n p init_frac r = Raise e) ∧
  (∀ n init_frac,
     1 ≤ n → (Z.of_nat n < 2 ^ 53)%Z →
     (is_nan init_frac = true →
      UiAdvance64.initial_infected n init_frac = Raise ValueError) ∧
     (is_infinity init_frac = true →
      UiAdvance64.initial_infected n init_frac = Raise OverflowError)) ∧
  (∀ n p init_frac (r : R) k,
     UiAdvance64.initial_infected n init_frac = Ok k →
     ((∃ e, UiAdvance64.initialize_network n p init_frac r = Raise e) ↔
      (Z.of_nat n < k)%Z) ∧
     (∀ e, UiAdvance64.initialize_network n p init_frac r = Raise e →
           e = ValueError)) ∧
  (∀ n p init_frac (r : R) e,
     UiAdvance64.initialize_network n p init_frac r = Raise e →
     e = ValueError ∨ e = OverflowError) ∧
  (∀ p init_frac (r : R),
     UiAdvance64.initialize_network 0 p init_frac r = Raise ValueError) ∧
  (∀ G status0 beta gamma max_steps (r : R),
     graph_wf G → covers G status0 →
     ∃ history r',
       run_simulation G status0 beta gamma max_steps r = Ok (history, r')) ∧
  (∀ G status0 beta gamma max_steps (r : R),
     run_simulation G status0 beta gamma max_steps r
     = run_simulation G status0 (clamp01 beta) (clamp01 gamma) max_steps r).
Proof.
  split_and!; [| | | | | |intros; symmetry; apply simulate_clamp].
  - intros n p init_frac r e He.
    pose proof (initialize_network64_cases n p init_frac r) as Hcases.
    by rewrite He in Hcases.
  - intros n init_frac Hn1 Hn2. by apply initial_infected_not_finite.
  - intros n p init_frac r k Hk.
    pose proof (initialize_network64_cases n p init_frac r) as Hcases.
    rewrite Hk in Hcases.
    destruct Hcases as [[Hlt E]|(Hle & es & infected & r' & E & _)];
      rewrite E.
    + split; [|congruence]. split; [done|]. by exists ValueError.
    + split; [|done]. split; [by intros [e ?]|lia].
  - intros n p init_frac r e.
    pose proof (initialize_network64_cases n p init_frac r) as Hcases.
    destruct (UiAdvance64.initial_infected n init_frac) as [k|e'] eqn:Ek.
    + destruct Hcases as [[_ E]|(_ & es & infected & r' & E & _)];
        rewrite E; [|done]. intros [= <-]. by left.
    + rewrite Hcases. intros [= <-]. clear Hcases.
      unfold UiAdvance64.initial_infected, UiAdvance64.py_float,
        UiAdvance64.py_int in Ek.
      repeat case_match; simplify_eq; auto.
  - intros p init_frac r.
    pose proof (initialize_network64_cases 0 p init_frac r) as Hcases.
    destruct (initial_infected_no_node init_frac) as [E|E];
      rewrite E in Hcases; [|done].
    destruct Hcases as [[_ ?]|[? _]]; [done|lia].
  - intros G status0 beta gamma max_steps r HG Hc.
    by apply simulate_total.
Qed.

End Network.

(** ** Determinism

    A run depends on the generator only through the values it draws: two
    generators, possibly of different kinds, that are related by a
    relation [sim] which guarantees equal draws and is kept by drawing, give
    the same history, or the same exception.  With [sim] the equality of
    generator states this is the determinism of a run started twice from
    the same state of the generator. *)
Section Determinism.
Import UiAdvance.
Local Open Scope sim_scope.
Context {R1 R2 : Type} `{!RandomSource R1, !RandomSource R2}.
Variable sim : R1 → R2 → Prop.
Hypothesis sim_random :
  ∀ r1 r2, sim r1 r2 →
    (random r1).1 = (random r2).1 ∧ sim (random r1).2 (random r2).2.

Local Abbreviation agree := (UiAdvance.agree sim).

Lemma agree_outcome {A} (x : result (A * R1)) (y : result (A * R2)) :
  agree x y → outcome x = outcome y.
Proof.
  destruct x as [[a r1]|e1], y as [[b r2]|e2]; simpl; try done.
  - by intros [-> _].
  - by intros ->.
Qed.

Lemma agree_bind {A B} (m1 : M R1 A) (m2 : M R2 A)
    (k1 : A → M R1 B) (k2 : A → M R2 B) r1 r2 :
  agree (m1 r1) (m2 r2) →
  (∀ a r1' r2', sim r1' r2' → agree (k1 a r1') (k2 a r2')) →
  agree (bind m1 k1 r1) (bind m2 k2 r2).
Proof.
  unfold bind. intros Hm Hk.
  destruct (m1 r1) as [[a r1']|e1], (m2 r2) as [[b r2']|e2]; try done.
  destruct Hm as [<- Hs]. by apply Hk.
Qed.

Lemma agree_rand r1 r2 : sim r1 r2 → agree (rand r1) (rand r2).
Proof.
  intros Hs. unfold rand. destruct (sim_random r1 r2 Hs) as [Hx Hr].
  by destruct (random r1), (random r2).
Qed.

Lemma agree_getitem d k r1 r2 :
  sim r1 r2 → agree (getitem d k r1) (getitem d k r2).
Proof. intros Hs. unfold getitem, ret, raise. by destruct (d !! k). Qed.

Lemma agree_neighbors G u r1 r2 :
  sim r1 r2 → agree (neighbors G u r1) (neighbors G u r2).
Proof. intros Hs. unfold neighbors, ret, raise. by destruct (adj_lookup G u). Qed.

Lemma agree_foldM {A B} (f1 : A → B → M R1 A) (f2 : A → B → M R2 A) l :
  (∀ a b r1 r2, sim r1 r2 → agree (f1 a b r1) (f2 a b r2)) →
  ∀ a r1 r2, sim r1 r2 → agree (foldM f1 a l r1) (foldM f2 a l r2).
Proof.
  intros Hf. induction l as [|b l IH]; intros a r1 r2 Hs; simpl.
  - done.
  - apply agree_bind; [by apply Hf|]. intros a' r1' r2'. apply IH.
Qed.

Lemma agree_visit_nbr curr beta new nbr r1 r2 :
  sim r1 r2 →
  agree (visit_nbr curr beta new nbr r1) (visit_nbr curr beta new nbr r2).
Proof.
  intros Hs. unfold visit_nbr.
  apply agree_bind; [by apply agree_getitem|]. intros s r1' r2' Hs'.
  destruct (decide (s = "S")); [|done].
  apply agree_bind; [by apply agree_rand|]. intros x r1'' r2'' Hs''.
  by destruct (Qltb x beta).
Qed.

Lemma agree_visit_node G curr beta gamma new u r1 r2 :
  sim r1 r2 →
  agree (visit_node G curr beta gamma new u r1)
        (visit_node G curr beta gamma new u r2).
Proof.
  intros Hs. unfold visit_node.
  apply agree_bind; [by apply agree_getitem|]. intros s r1' r2' Hs'.
  destruct (decide (s = "I")); [|done].
  apply agree_bind; [by apply agree_rand|]. intros x r1'' r2'' Hs''.
  destruct (Qltb x gamma); [done|].
  apply agree_bind; [by apply agree_neighbors|]. intros ns ? ? ?.
  apply agree_foldM; [|done]. intros. by apply agree_visit_nbr.
Qed.

Lemma agree_step G curr beta gamma r1 r2 :
  sim r1 r2 → agree (step G curr beta gamma r1) (step G curr beta gamma r2).
Proof.
  intros Hs. unfold step. apply agree_foldM; [|done].
  intros. by apply agree_visit_node.
Qed.

Lemma agree_simulate G beta gamma T :
  ∀ history curr r1 r2, sim r1 r2 →
    agree (simulate G beta gamma T history curr r1)
          (simulate G beta gamma T history curr r2).
Proof.
  induction T as [|T IH]; intros history curr r1 r2 Hs; simpl.
  - done.
  - apply agree_bind; [by apply agree_step|]. intros new ? ? ?. by apply IH.
Qed.

(** C4. Two calls of [run_simulation] with the same graph, initial state,
    [beta], [gamma] and step count, whose generators give the same draws,
    produce the same history (or raise the same exception): the output is
    a function of the inputs and of the random source. *)
Theorem run_simulation_deterministic G status0 beta gamma max_steps r1 r2 :
  sim r1 r2 →
  outcome (run_simulation G status0 beta gamma max_steps r1)
  = outcome (run_simulation G status0 beta gamma max_steps r2).
Proof.
  intros Hs. apply agree_outcome. unfold run_simulation.
  by apply agree_simulate.
Qed.

End Determinism.

(** ** The engine on concrete inputs *)

Section Concrete.
Import UiAdvance Inputs.

(** Closes a goal that stdpp can decide, by evaluation. *)
Ltac by_evaluation :=
  unfold graph_wf, covers, sir_valued;
  apply (bool_decide_unpack _); vm_compute; exact I.

(** With one requested step the history has ten snapshots, not two. *)
Lemma run_simulation_length_counterexample :
  ∃ history r',
    run_simulation star3 status3 (1 # 2) (1 # 4) 1 seed5 = Ok (history, r') ∧
    length history = 10 ∧
    length history ≠ Z.to_nat (1 + 1).
Proof.
  do 2 eexists. split; [vm_compute; reflexivity|].
  split; [reflexivity|discriminate].
Qed.

Lemma run_simulation_history_witness :
  ∃ history r',
    run_simulation star3 status3 (1 # 2) (1 # 4) 1 seed5 = Ok (history, r') ∧
    length history = Z.to_nat ((1 + 1) * 5) ∧
    history !! 0 = Some status3 ∧
    ∀ i, i < length history →
         ∃ s ri, history !! i = Some s ∧
                 step_n star3 (1 # 2) (1 # 4) i status3 seed5 = Ok (s, ri).
Proof.
  apply run_simulation_history; [by_evaluation|by_evaluation|lia].
Defined.

Lemma run_simulation_monotone_witness :
  ∃ history r' si sj,
    run_simulation star3 status3 (1 # 2) (1 # 4) 0 seed5 = Ok (history, r') ∧
    history !! 0 = Some si ∧ history !! 3 = Some sj ∧
    (si !! 0 = Some "R" → sj !! 0 = Some "R") ∧
    (si !! 0 = Some "I" → sj !! 0 ≠ Some "S").
Proof.
  do 4 eexists.
  split; [vm_compute; reflexivity|].
  split; [reflexivity|]. split; [reflexivity|].
  eapply (run_simulation_monotone (R := nat) star3 status3 (1 # 2) (1 # 4)
            0 seed5) with (i := 0) (j := 3);
    [vm_compute; reflexivity|lia|reflexivity|reflexivity].
Defined.

(** The invariant on a run from what [initialize_network] returns for
    four nodes. *)
Lemma run_simulation_conserves_witness :
  ∃ G status0 r1,
    initialize_network 4 (1 # 2) (7 # 8) seed5 = Ok ((G, status0), r1) ∧
    ∃ history r',
      run_simulation G status0 (1 # 2) (1 # 4) 1 r1 = Ok (history, r') ∧
      ∀ s, s ∈ history →
        dom s = list_to_set (nodes G) ∧
        sir_valued s ∧
        count_status "S" s + count_status "I" s + count_status "R" s
          = length (nodes G).
Proof.
  exists [(0, [1]); (1, [0]); (2, [3]); (3, [2])],
         (<[0 := "S"]> (<[1 := "I"]> (<[2 := "I"]> (<[3 := "I"]> ∅)))), 2.
  split; [vm_compute; reflexivity|].
  apply run_simulation_conserves;
    [by_evaluation|by_evaluation|by_evaluation].
Defined.

(** From the generator state [14] the centre of the star does not recover
    and transmits to node 2 alone. *)
Lemma step_decisions_witness :
  ∃ evs,
    decisions star3 status3 (1 # 2) (1 # 4) 14 = Ok (evs, 3) ∧
    <[2 := "I"]> status3 = foldl commit status3 evs ∧
    frozen_outcome star3 status3 evs (<[2 := "I"]> status3).
Proof.
  destruct (step_decisions (R := nat) star3 status3 (1 # 2) (1 # 4))
    as (_ & _ & _ & _ & Hstep).
  apply Hstep; [by_evaluation|vm_compute; reflexivity].
Defined.

(** For two nodes and the fraction 0.875 the product is 1.75, without
    rounding: one node is infected, where rounding to the nearest integer
    would give two. *)
Lemma initialize_network_round_counterexample :
  ∃ G status r',
    UiAdvance64.initialize_network 2 (1 # 2) 0.875 seed5
      = Ok ((G, status), r') ∧
    count_status "I" status = 1 ∧
    (UiBasic64.to_Q 0.875 == 7 # 8)%Q ∧
    spec_initial_infected 2 (7 # 8) = 2%Z ∧
    Z.of_nat (count_status "I" status) ≠ spec_initial_infected 2 (7 # 8).
Proof.
  do 3 eexists. split; [vm_compute; reflexivity|].
  split; [reflexivity|]. split; [reflexivity|].
  split; [reflexivity|discriminate].
Qed.

Lemma initialize_network_infected_witness :
  ∃ k G status infected r',
    UiAdvance64.initial_infected 4 0.875 = Ok k ∧
    (1 ≤ k ≤ Z.of_nat 4)%Z ∧
    UiAdvance64.initialize_network 4 (1 # 2) 0.875 seed5
      = Ok ((G, status), r') ∧
    nodes G = seq 0 4 ∧
    NoDup infected ∧
    Z.of_nat (length infected) = k ∧
    (∀ v, v ∈ infected → v ∈ nodes G ∧ status !! v = Some "I") ∧
    (∀ v, v ∈ nodes G → v ∉ infected → status !! v = Some "S") ∧
    dom status = list_to_set (nodes G) ∧
    count_status "I" status = length infected.
Proof.
  apply initialize_network_infected; [lia|reflexivity|reflexivity|reflexivity].
Defined.

(** The product is rounded before it is truncated.  For 50 nodes and the
    float nearest to 0.06 the exact product is below 3 and the binary64
    product is 3: three nodes are infected, not two.  For 3 nodes and the
    float [0x1.5555555555555p0] the exact product is below 4 and the
    binary64 product is 4. *)
Example initial_infected_rounded :
  UiAdvance64.initial_infected 50 0x1.eb851eb851eb8p-5 = Ok 3%Z ∧
  initial_infected 50 (UiBasic64.to_Q 0x1.eb851eb851eb8p-5) = 2%Z ∧
  UiAdvance64.initial_infected 3 0x1.5555555555555p0 = Ok 4%Z ∧
  initial_infected 3 (UiBasic64.to_Q 0x1.5555555555555p0) = 3%Z.
Proof. repeat split; vm_compute; reflexivity. Qed.

(** [beta = 2] is outside [[0,1]], and the run returns a history. *)
Lemma run_simulation_invalid_beta_counterexample :
  ¬ (2 <= 1)%Q ∧
  ∃ history r',
    run_simulation star3 status3 2 (1 # 4) 0 seed5 = Ok (history, r') ∧
    length history = 5.
Proof.
  split; [intros H; by apply H|].
  do 2 eexists. split; [vm_compute; reflexivity|reflexivity].
Qed.

(** A NaN fraction, a fraction of 2 on three nodes, and a run with
    [beta = 2] and [gamma = -1/4]. *)
Lemma no_parameter_validation_witness :
  UiAdvance64.initialize_network 3 (3 # 2) nan seed5 = Raise ValueError ∧
  (∃ e, UiAdvance64.initialize_network 3 (3 # 2) 2 seed5 = Raise e) ∧
  ∃ history r',
    run_simulation star3 status3 2 (-1 # 4) 1 seed5 = Ok (history, r').
Proof.
  destruct (no_parameter_validation (R := nat))
    as (Hraise & Hnf & Hk & _ & _ & Hrun & _).
  split; [|split].
  - apply Hraise. apply Hnf; [lia|reflexivity|reflexivity].
  - destruct (Hk 3 (3 # 2)%Q 2%float seed5 6%Z) as [Hiff _];
      [vm_compute; reflexivity|].
    apply Hiff. lia.
  - apply Hrun; by_evaluation.
Defined.

(** The generator states [5] and [21] give the same draws, and so the same
    history. *)
Lemma run_simulation_deterministic_witness :
  outcome (run_simulation star3 status3 (1 # 2) (1 # 4) 1 seed5)
  = outcome (run_simulation star3 status3 (1 # 2) (1 # 4) 1 21).
Proof.
  apply (run_simulation_deterministic (λ a b : nat, a mod 16 = b mod 16)).
  - intros a b Hab.
    change (random a) with (Lcg.draw a). change (random b) with (Lcg.draw b).
    unfold Lcg.draw, Lcg.next. cbn [fst snd].
    split; [by rewrite Hab|].
    rewrite !Nat.Div0.mod_mod.
    rewrite (Nat.Div0.add_mod (5 * a)), (Nat.Div0.add_mod (5 * b)).
    by rewrite (Nat.Div0.mul_mod 5 a), (Nat.Div0.mul_mod 5 b), Hab.
  - reflexivity.
Defined.

End Concrete.

(** * Further properties of the network engine *)

Section Draws.
Import UiAdvance Spread.
Local Open Scope sim_scope.
Context {R : Type} `{!RandomSource R}.

#[local] Instance event_eq_dec : EqDecision event.
Proof. solve_decision. Defined.

(** *** What a draw tells about a probability *)

Lemma rand_Ok (r : R) x r' :
  rand r = Ok (x, r') → (0 <= x)%Q ∧ (x < 1)%Q ∧ r' = (random r).2.
Proof.
  unfold rand. intros [= Hr]. pose proof (random_unit r) as [H0 H1].
  rewrite Hr in *. done.
Qed.

Lemma draw_below x p : (0 <= x)%Q → Qltb x p = true → (0 < p)%Q.
Proof. intros H0 Hx%Qltb_true. by eapply Qle_lt_trans. Qed.

Lemma draw_not_below x p : (x < 1)%Q → Qltb x p = false → (p < 1)%Q.
Proof. intros H1 Hx%Qltb_false. by eapply Qle_lt_trans. Qed.

(** *** The decisions of a step and the two probabilities *)

Lemma decisions_nbrs_draws curr beta u ns :
  ∀ evs (r : R) evs' r',
    foldM (decisions_nbr curr beta u) evs ns r = Ok (evs', r') →
    ∃ d, evs' = evs ++ d ∧
         Forall (λ e, ∃ v, e = Transmit u v ∧ v ∈ ns ∧
                           curr !! v = Some "S" ∧ (0 < beta)%Q) d ∧
         ∀ v, v ∈ ns → curr !! v = Some "S" →
              Transmit u v ∈ d ∨ (beta < 1)%Q.
Proof.
  induction ns as [|nbr ns IH]; intros evs r evs' r'; simpl.
  - intros [= <- <-]. exists []. rewrite app_nil_r. split_and!; [done..|].
    intros v Hv. by apply elem_of_nil in Hv.
  - intros (evs1 & r1 & Hnbr & Hl)%bind_Ok.
    destruct (IH _ _ _ _ Hl) as (d & -> & Hd & Hall).
    assert (Hd' : Forall (λ e, ∃ v, e = Transmit u v ∧ v ∈ nbr :: ns ∧
                     curr !! v = Some "S" ∧ (0 < beta)%Q) d).
    { eapply Forall_impl; [exact Hd|]. intros e (v & -> & Hv & Hs & Hb).
      exists v. split_and!; [done|by right|done..]. }
    unfold decisions_nbr in Hnbr.
    apply bind_Ok in Hnbr as (s & r2 & [Hs ->]%getitem_Ok & Hk).
    destruct (decide (s = "S")) as [->|Hne].
    + apply bind_Ok in Hk as (x & r3 & (H0 & H1 & _)%rand_Ok & Hk).
      destruct (Qltb x beta) eqn:Hx; injection Hk as <- <-.
      * exists (Transmit u nbr :: d). rewrite <- app_assoc.
        split_and!; [done| |].
        -- constructor; [|done]. exists nbr.
           split_and!; [done|by left|done|by eapply draw_below].
        -- intros v [->|Hv]%elem_of_cons Hsv; [left; by left|].
           destruct (Hall v Hv Hsv) as [?|?]; [left; by right|by right].
      * exists d. split_and!; [done..|].
        intros v [->|Hv]%elem_of_cons Hsv; [|by apply Hall].
        right. by eapply draw_not_below.
    + injection Hk as <- <-. exists d. split_and!; [done..|].
      intros v [->|Hv]%elem_of_cons Hsv; [congruence|by apply Hall].
Qed.

Lemma decisions_node_draws G curr beta gamma evs u (r : R) evs' r' :
  decisions_node G curr beta gamma evs u r = Ok (evs', r') →
  ∃ d, evs' = evs ++ d ∧ node_draws G curr beta gamma u d.
Proof.
  unfold decisions_node.
  intros (s & r1 & [Hs ->]%getitem_Ok & Hk)%bind_Ok.
  destruct (decide (s = "I")) as [->|Hne].
  - apply bind_Ok in Hk as (x & r2 & (H0 & H1 & _)%rand_Ok & Hk).
    destruct (Qltb x gamma) eqn:Hx.
    + injection Hk as <- <-. exists [Recover u]. split; [done|].
      split; [done|]. intros _. left. split; [done|by eapply draw_below].
    + apply bind_Ok in Hk as (ns & r3 & Hns & Hk).
      unfold neighbors in Hns.
      destruct (adj_lookup G u) as [ns'|] eqn:Hadj; [|discriminate].
      injection Hns as -> ->.
      apply decisions_nbrs_draws in Hk as (d & -> & Hd & Hall).
      exists d. split; [done|]. split; [done|]. intros _. right.
      split; [by eapply draw_not_below|]. by exists ns.
  - injection Hk as <- <-. exists []. rewrite app_nil_r. split; [done|].
    split; [done|]. intros ?. congruence.
Qed.

Lemma decisions_loop_draws G curr beta gamma l :
  ∀ evs (r : R) evs' r',
    foldM (decisions_node G curr beta gamma) evs l r = Ok (evs', r') →
    ∃ d, evs' = evs ++ d ∧ chunks (node_draws G curr beta gamma) l d.
Proof.
  induction l as [|u l IH]; intros evs r evs' r'; simpl.
  - intros [= <- <-]. exists []. rewrite app_nil_r. split; [done|constructor].
  - intros (evs1 & r1 & (d1 & -> & Hd1)%decisions_node_draws & Hl)%bind_Ok.
    destruct (IH _ _ _ _ Hl) as (d2 & -> & Hd2).
    exists (d1 ++ d2). rewrite app_assoc. split; [done|by constructor].
Qed.

Lemma chunks_elem P l evs e :
  chunks P l evs → e ∈ evs → ∃ u d, u ∈ l ∧ P u d ∧ e ∈ d.
Proof.
  induction 1 as [|u l d1 d2 H1 _ IH]; intros He.
  - by apply elem_of_nil in He.
  - apply elem_of_app in He as [He|He].
    + exists u, d1. split_and!; [by left|done..].
    + destruct (IH He) as (u' & d & Hu' & Hd & Hed).
      exists u', d. split_and!; [by right|done..].
Qed.

Lemma chunks_node P l evs u :
  chunks P l evs → u ∈ l → ∃ d, P u d ∧ ∀ e, e ∈ d → e ∈ evs.
Proof.
  induction 1 as [|u' l d1 d2 H1 _ IH]; intros Hu.
  - by apply elem_of_nil in Hu.
  - apply elem_of_cons in Hu as [->|Hu].
    + exists d1. split; [done|]. intros e He. apply elem_of_app. by left.
    + destruct (IH Hu) as (d & Hd & Hsub). exists d. split; [done|].
      intros e He. apply elem_of_app. right. by apply Hsub.
Qed.

(** A step commits decisions that are cut into one chunk for each node. *)
Lemma step_draws G curr beta gamma (r : R) new r' :
  step G curr beta gamma r = Ok (new, r') →
  ∃ evs, new = foldl commit curr evs ∧
         chunks (node_draws G curr beta gamma) (nodes G) evs.
Proof.
  rewrite step_step_frozen. unfold step_frozen.
  intros (evs & r1 & Hdec & Hret)%bind_Ok. injection Hret as <- <-.
  unfold decisions in Hdec.
  apply decisions_loop_draws in Hdec as (d & -> & Hd). by exists d.
Qed.

(** *** What the chunks say about a decision and about a node *)

Section Chunks.
Context (G : Graph) (curr : gmap node string) (beta gamma : Q).
Context (l : list node) (evs : list event).
Hypothesis Hchunks : chunks (node_draws G curr beta gamma) l evs.

Lemma draws_recover u :
  Recover u ∈ evs → u ∈ l ∧ curr !! u = Some "I" ∧ (0 < gamma)%Q.
Proof.
  intros (u' & d & Hu' & [Hnot Hinf] & Hd)%(chunks_elem _ _ _ _ Hchunks).
  destruct (decide (curr !! u' = Some "I")) as [Hi|Hi].
  - destruct (Hinf Hi) as [[-> Hg]|(_ & ns & _ & Hall & _)].
    + apply list_elem_of_singleton in Hd as [= ->]. done.
    + rewrite Forall_forall in Hall. by destruct (Hall _ Hd) as (? & ? & _).
  - rewrite (Hnot Hi) in Hd. by apply elem_of_nil in Hd.
Qed.

Lemma draws_transmit u v :
  Transmit u v ∈ evs →
  u ∈ l ∧ curr !! u = Some "I" ∧ curr !! v = Some "S" ∧
  (∃ ns, adj_lookup G u = Some ns ∧ v ∈ ns) ∧
  (0 < beta)%Q ∧ (gamma < 1)%Q.
Proof.
  intros (u' & d & Hu' & [Hnot Hinf] & Hd)%(chunks_elem _ _ _ _ Hchunks).
  destruct (decide (curr !! u' = Some "I")) as [Hi|Hi].
  - destruct (Hinf Hi) as [[-> Hg]|(Hg & ns & Hns & Hall & _)].
    + by apply list_elem_of_singleton in Hd.
    + rewrite Forall_forall in Hall.
      destruct (Hall _ Hd) as (v' & [= -> ->] & Hv & Hs & Hb).
      split_and!; eauto.
  - rewrite (Hnot Hi) in Hd. by apply elem_of_nil in Hd.
Qed.

Lemma draws_infected_node u :
  u ∈ l → curr !! u = Some "I" →
  (Recover u ∈ evs ∧ (0 < gamma)%Q) ∨
  ((gamma < 1)%Q ∧
   ∃ ns, adj_lookup G u = Some ns ∧
     ∀ v, v ∈ ns → curr !! v = Some "S" →
          Transmit u v ∈ evs ∨ (beta < 1)%Q).
Proof.
  intros (d & [_ Hinf] & Hsub)%(chunks_node _ _ _ _ Hchunks) Hi.
  destruct (Hinf Hi) as [[-> Hg]|(Hg & ns & Hns & _ & Hall)].
  - left. split; [|done]. apply Hsub. by left.
  - right. split; [done|]. exists ns. split; [done|].
    intros v Hv Hs. destruct (Hall v Hv Hs) as [?|?]; [left; by apply Hsub|by right].
Qed.

(** The next state, key by key. *)
Lemma draws_lookup_recovered v :
  Recover v ∈ evs → foldl commit curr evs !! v = Some "R".
Proof.
  intros Hv. apply (commit_lookup_written _ _ _ _ (Recover v)); [done..|].
  intros [w|w v'] He Ht; [done|]. simpl in Ht. subst v'.
  apply draws_transmit in He as (_ & _ & Hs & _).
  apply draws_recover in Hv as (_ & Hi & _). congruence.
Qed.

Lemma draws_lookup_infected v u :
  Transmit u v ∈ evs → foldl commit curr evs !! v = Some "I".
Proof.
  intros Hv. apply (commit_lookup_written _ _ _ _ (Transmit u v)); [done..|].
  intros [w|w v'] He Ht; [|done]. simpl in Ht. subst w.
  apply draws_recover in He as (_ & Hi & _).
  apply draws_transmit in Hv as (_ & _ & Hs & _). congruence.
Qed.

Lemma draws_lookup_still_infected v :
  curr !! v = Some "I" → Recover v ∉ evs →
  foldl commit curr evs !! v = Some "I".
Proof.
  intros Hi Hv. rewrite commit_lookup_other; [done|].
  intros [w|w v'] He Ht; simpl in Ht; subst; [done|].
  apply draws_transmit in He as (_ & _ & Hs & _). congruence.
Qed.

Lemma draws_lookup_still_susceptible v :
  curr !! v = Some "S" → (∀ u, Transmit u v ∉ evs) →
  foldl commit curr evs !! v = Some "S".
Proof.
  intros Hs Hv. rewrite commit_lookup_other; [done|].
  intros [w|w v'] He Ht; simpl in Ht; subst.
  - apply draws_recover in He as (_ & Hi & _). congruence.
  - by apply (Hv w).
Qed.

Lemma draws_lookup_other v :
  curr !! v ≠ Some "I" → curr !! v ≠ Some "S" →
  foldl commit curr evs !! v = curr !! v.
Proof.
  intros Hi Hs. apply commit_lookup_other.
  intros [w|w v'] He Ht; simpl in Ht; subst.
  - by apply draws_recover in He as (_ & ? & _).
  - by apply draws_transmit in He as (_ & _ & ? & _).
Qed.

End Chunks.

(** *** From one step to the whole history *)

(** A reflexive and transitive relation that every step satisfies holds
    between every snapshot of a history and every later one. *)
Lemma run_simulation_rel (Rel : relation (gmap node string)) G beta gamma :
  (∀ s, Rel s s) →
  (∀ s1 s2 s3, Rel s1 s2 → Rel s2 s3 → Rel s1 s3) →
  (∀ s (r : R) s' r', step G s beta gamma r = Ok (s', r') → Rel s s') →
  ∀ status0 max_steps (r : R) history r',
    run_simulation G status0 beta gamma max_steps r = Ok (history, r') →
    ∀ i j si sj, i ≤ j → history !! i = Some si → history !! j = Some sj →
                 Rel si sj.
Proof.
  intros Hrefl Htrans Hstep status0 max_steps r history r'.
  assert (Hn : ∀ k s (r0 : R) s' r0',
             step_n G beta gamma k s r0 = Ok (s', r0') → Rel s s').
  { induction k as [|k IH]; intros s r0 s' r0'; simpl.
    - intros [= <- <-]. apply Hrefl.
    - intros (s1 & r1 & Hs%Hstep & Hk%IH)%bind_Ok. by eapply Htrans. }
  unfold run_simulation.
  intros (l & -> & _ & Hl)%simulate_spec i j si sj Hij Hi Hj.
  simpl in Hi, Hj.
  destruct (Hl i si Hi) as [ri Hri], (Hl j sj Hj) as [rj Hrj].
  replace j with (i + (j - i)) in Hrj by lia.
  apply step_n_add in Hrj as (si' & ri' & Hri' & Hk).
  rewrite Hri in Hri'. injection Hri' as <- <-. by eapply Hn.
Qed.

Lemma run_simulation_first G status0 beta gamma max_steps (r : R) history r' s :
  run_simulation G status0 beta gamma max_steps r = Ok (history, r') →
  history !! 0 = Some s → s = status0.
Proof.
  unfold run_simulation. intros (l & -> & _ & Hl)%simulate_spec Hs.
  destruct (Hl 0 s Hs) as [r0 Hr0]. simpl in Hr0. by injection Hr0 as -> _.
Qed.

(** *** Transmission probability zero *)

Lemma step_no_infection G curr beta gamma (r : R) new r' :
  (beta <= 0)%Q →
  step G curr beta gamma r = Ok (new, r') → no_infection curr new.
Proof.
  intros Hb (evs & -> & Hch)%step_draws v.
  assert (Hnt : ∀ u w, Transmit u w ∉ evs).
  { intros u w (_ & _ & _ & _ & Hpos & _)%(draws_transmit _ _ _ _ _ _ Hch).
    by apply (Qlt_not_le 0 beta). }
  destruct (decide (curr !! v = Some "I")) as [Hi|Hi].
  - destruct (decide (Recover v ∈ evs)) as [Hr|Hr].
    + right. split; [done|]. by eapply draws_lookup_recovered.
    + left. rewrite Hi. by eapply draws_lookup_still_infected.
  - left. destruct (decide (curr !! v = Some "S")) as [Hs|Hs].
    + rewrite Hs. by eapply draws_lookup_still_susceptible.
    + by eapply draws_lookup_other.
Qed.

Lemma no_infection_refl s : no_infection s s.
Proof. intros v. by left. Qed.

Lemma no_infection_trans s1 s2 s3 :
  no_infection s1 s2 → no_infection s2 s3 → no_infection s1 s3.
Proof.
  intros H12 H23 v.
  destruct (H12 v) as [E12|[Hi Hr]], (H23 v) as [E23|[Hi' Hr']].
  - left. congruence.
  - right. split; congruence.
  - right. split; congruence.
  - congruence.
Qed.

(** X1. With a transmission probability of 0 or less nobody is ever infected:
    from a snapshot of the history to a later one every node keeps its
    state or goes from ['I'] to ['R'], so that a susceptible node stays
    susceptible and the set of infected nodes only shrinks. *)
Theorem zero_beta_no_infection G status0 beta gamma max_steps (r : R)
    history r' :
  (beta <= 0)%Q →
  run_simulation G status0 beta gamma max_steps r = Ok (history, r') →
  ∀ i j si sj, i ≤ j → history !! i = Some si → history !! j = Some sj →
    no_infection si sj ∧
    (∀ v, si !! v = Some "S" → sj !! v = Some "S") ∧
    (∀ v, sj !! v = Some "I" → si !! v = Some "I").
Proof.
  intros Hb Hrun i j si sj Hij Hi Hj.
  assert (Hrel : no_infection si sj).
  { eapply (run_simulation_rel no_infection); eauto using no_infection_refl,
      no_infection_trans. intros. by eapply step_no_infection. }
  split; [done|]. split; intros v Hv; destruct (Hrel v) as [E|[? ?]];
    congruence.
Qed.

(** *** Recovery probability zero *)

Lemma step_no_recovery G curr beta gamma (r : R) new r' :
  (gamma <= 0)%Q →
  step G curr beta gamma r = Ok (new, r') → no_recovery curr new.
Proof.
  intros Hg (evs & -> & Hch)%step_draws v.
  assert (Hnr : ∀ u, Recover u ∉ evs).
  { intros u (_ & _ & Hpos)%(draws_recover _ _ _ _ _ _ Hch).
    by apply (Qlt_not_le 0 gamma). }
  destruct (decide (curr !! v = Some "I")) as [Hi|Hi].
  - left. rewrite Hi. by eapply draws_lookup_still_infected.
  - destruct (decide (curr !! v = Some "S")) as [Hs|Hs].
    + destruct (decide (Exists (λ e, target e = v) evs)) as [Hex|Hex].
      * right. split; [done|].
        apply Exists_exists in Hex as ([w|w v'] & He & Ht); simpl in Ht; subst.
        -- by apply Hnr in He.
        -- by eapply draws_lookup_infected.
      * left. apply commit_lookup_other. intros e He Ht. apply Hex.
        apply Exists_exists. eauto.
    + left. by eapply draws_lookup_other.
Qed.

Lemma no_recovery_refl s : no_recovery s s.
Proof. intros v. by left. Qed.

Lemma no_recovery_trans s1 s2 s3 :
  no_recovery s1 s2 → no_recovery s2 s3 → no_recovery s1 s3.
Proof.
  intros H12 H23 v.
  destruct (H12 v) as [E12|[Hi Hr]], (H23 v) as [E23|[Hi' Hr']].
  - left. congruence.
  - right. split; congruence.
  - right. split; congruence.
  - congruence.
Qed.

(** X2. With a recovery probability of 0 or less nobody ever recovers: from a
    snapshot of the history to a later one every node keeps its state or
    goes from ['S'] to ['I'], so that an infected node stays infected and a
    node is recovered only if it was from the start. *)
Theorem zero_gamma_no_recovery G status0 beta gamma max_steps (r : R)
    history r' :
  (gamma <= 0)%Q →
  run_simulation G status0 beta gamma max_steps r = Ok (history, r') →
  ∀ i j si sj, i ≤ j → history !! i = Some si → history !! j = Some sj →
    no_recovery si sj ∧
    (∀ v, si !! v = Some "I" → sj !! v = Some "I") ∧
    (∀ v, sj !! v = Some "R" → si !! v = Some "R").
Proof.
  intros Hg Hrun i j si sj Hij Hi Hj.
  assert (Hrel : no_recovery si sj).
  { eapply (run_simulation_rel no_recovery); eauto using no_recovery_refl,
      no_recovery_trans. intros. by eapply step_no_recovery. }
  split; [done|]. split; intros v Hv; destruct (Hrel v) as [E|[? ?]];
    congruence.
Qed.

(** *** A state without infected nodes *)

Lemma visit_node_not_infected G curr beta gamma new u (r : R) new' r' :
  curr !! u ≠ Some "I" →
  visit_node G curr beta gamma new u r = Ok (new', r') →
  new' = new ∧ r' = r.
Proof.
  intros Hu. unfold visit_node.
  intros (s & r1 & [Hs ->]%getitem_Ok & Hk)%bind_Ok.
  destruct (decide (s = "I")) as [->|_]; [done|]. by injection Hk as <- <-.
Qed.

Lemma visits_not_infected G curr beta gamma l :
  (∀ u, u ∈ l → curr !! u ≠ Some "I") →
  ∀ new (r : R) new' r',
    foldM (visit_node G curr beta gamma) new l r = Ok (new', r') →
    new' = new ∧ r' = r.
Proof.
  induction l as [|u l IH]; intros Hdf new r new' r'; simpl.
  - by intros [= <- <-].
  - intros (new1 & r1 & Hv & Hl)%bind_Ok.
    apply visit_node_not_infected in Hv as [-> ->]; [|apply Hdf; by left].
    eapply IH; [|done]. intros u' Hu'. apply Hdf. by right.
Qed.

Lemma step_disease_free G curr beta gamma (r : R) new r' :
  disease_free G curr →
  step G curr beta gamma r = Ok (new, r') → new = curr ∧ r' = r.
Proof. intros Hdf. by apply visits_not_infected. Qed.

Lemma step_n_disease_free G beta gamma k s (r : R) s' r' :
  disease_free G s →
  step_n G beta gamma k s r = Ok (s', r') → s' = s ∧ r' = r.
Proof.
  intros Hdf. revert r. induction k as [|k IH]; intros r; simpl.
  - by intros [= <- <-].
  - intros (s1 & r1 & Hstep & Hk)%bind_Ok.
    apply step_disease_free in Hstep as [-> ->]; [|done]. by apply IH.
Qed.

(** X3. Once no node of the graph is infected nothing changes any more: a step
    returns its state unchanged without drawing, and every later snapshot
    of the history is the same map. *)
Theorem disease_free_absorbing G beta gamma :
  (∀ curr (r : R) new r',
     disease_free G curr → step G curr beta gamma r = Ok (new, r') →
     new = curr ∧ r' = r) ∧
  (∀ status0 max_steps (r : R) history r',
     run_simulation G status0 beta gamma max_steps r = Ok (history, r') →
     ∀ i j si sj, i ≤ j → history !! i = Some si → history !! j = Some sj →
       disease_free G si → sj = si).
Proof.
  split; [intros; by eapply step_disease_free|].
  intros status0 max_steps r history r' Hrun i j si sj Hij Hi Hj.
  apply (run_simulation_rel (λ s s', disease_free G s → s' = s) G beta gamma)
    with (status0 := status0) (max_steps := max_steps) (r := r)
         (history := history) (r' := r') (i := i) (j := j); try done.
  - intros s1 s2 s3 H12 H23 Hdf. rewrite <- (H12 Hdf). apply H23.
    by rewrite (H12 Hdf).
  - intros s r0 s' r0' Hstep Hdf. by eapply step_disease_free.
Qed.

(** *** Recovery probability one *)

Lemma step_certain_recovery G curr beta gamma (r : R) new r' :
  (1 <= gamma)%Q →
  step G curr beta gamma r = Ok (new, r') →
  ∀ v, new !! v = if decide (v ∈ nodes G ∧ curr !! v = Some "I")
                  then Some "R" else curr !! v.
Proof.
  intros Hg (evs & -> & Hch)%step_draws v.
  assert (Hnt : ∀ u w, Transmit u w ∉ evs).
  { intros u w (_ & _ & _ & _ & _ & Hlt)%(draws_transmit _ _ _ _ _ _ Hch).
    by apply (Qlt_not_le gamma 1). }
  destruct (decide (v ∈ nodes G ∧ curr !! v = Some "I")) as [[Hv Hi]|Hni].
  - destruct (draws_infected_node _ _ _ _ _ _ Hch v Hv Hi) as [[Hr _]|[Hlt _]].
    + by eapply draws_lookup_recovered.
    + by apply (Qlt_not_le gamma 1) in Hlt.
  - destruct (decide (curr !! v = Some "I")) as [Hi|Hi].
    + rewrite Hi. eapply draws_lookup_still_infected; [done..|].
      intros (Hv & _)%(draws_recover _ _ _ _ _ _ Hch). by apply Hni.
    + destruct (decide (curr !! v = Some "S")) as [Hs|Hs].
      * rewrite Hs. by eapply draws_lookup_still_susceptible.
      * by eapply draws_lookup_other.
Qed.

(** X4. With a recovery probability of 1 or more the epidemic is over after
    the first step, whatever [beta] is: every snapshot but the first is the
    initial state with the infected nodes of the graph recovered, nobody
    else having been infected, because an infected node recovers before it
    can transmit. *)
Theorem certain_recovery_ends_epidemic G status0 beta gamma max_steps (r : R)
    history r' :
  (1 <= gamma)%Q →
  run_simulation G status0 beta gamma max_steps r = Ok (history, r') →
  ∀ i s, 1 ≤ i → history !! i = Some s →
    disease_free G s ∧
    ∀ v, s !! v = if decide (v ∈ nodes G ∧ status0 !! v = Some "I")
                  then Some "R" else status0 !! v.
Proof.
  intros Hg. unfold run_simulation.
  intros (l & -> & _ & Hl)%simulate_spec i s Hi Hs. simpl in Hs.
  destruct (Hl i s Hs) as [ri Hri].
  destruct i as [|k]; [lia|]. simpl in Hri.
  apply bind_Ok in Hri as (s1 & r1 & Hstep & Hk).
  pose proof (step_certain_recovery _ _ _ _ _ _ _ Hg Hstep) as Hs1.
  assert (Hdf : disease_free G s1).
  { intros u Hu. rewrite Hs1. case_decide as Hd; [done|].
    intros Hi'. apply Hd. done. }
  by apply (step_n_disease_free _ _ _ _ _ _ _ _ Hdf) in Hk as [-> _].
Qed.

(** *** Transmission probability one, recovery probability zero *)

Lemma step_certain_transmission G curr beta gamma (r : R) new r' :
  (1 <= beta)%Q → (gamma <= 0)%Q →
  step G curr beta gamma r = Ok (new, r') →
  ∀ v, new !! v = Some "I" ↔
       curr !! v = Some "I" ∨
       (curr !! v = Some "S" ∧
        ∃ u ns, u ∈ nodes G ∧ curr !! u = Some "I" ∧
                adj_lookup G u = Some ns ∧ v ∈ ns).
Proof.
  intros Hb Hg (evs & -> & Hch)%step_draws v.
  assert (Hnr : ∀ u, Recover u ∉ evs).
  { intros u (_ & _ & Hpos)%(draws_recover _ _ _ _ _ _ Hch).
    by apply (Qlt_not_le 0 gamma). }
  split.
  - intros Hnew.
    destruct (decide (curr !! v = Some "I")) as [Hi|Hi]; [by left|right].
    destruct (decide (curr !! v = Some "S")) as [Hs|Hs].
    + split; [done|].
      destruct (decide (Exists (λ e, target e = v) evs)) as [Hex|Hex].
      * apply Exists_exists in Hex as ([w|w v'] & He & Ht); simpl in Ht; subst.
        -- by apply Hnr in He.
        -- apply (draws_transmit _ _ _ _ _ _ Hch) in He
             as (Hw & Hiw & _ & (ns & Hns & Hv) & _).
           by exists w, ns.
      * rewrite commit_lookup_other in Hnew; [congruence|].
        intros e He Ht. apply Hex, Exists_exists. eauto.
    + rewrite (draws_lookup_other _ _ _ _ _ _ Hch) in Hnew; done.
  - intros [Hi|(Hs & u & ns & Hu & Hiu & Hns & Hv)].
    + by eapply draws_lookup_still_infected.
    + destruct (draws_infected_node _ _ _ _ _ _ Hch u Hu Hiu)
        as [[Hr _]|(_ & ns' & Hns' & Hall)]; [by apply Hnr in Hr|].
      rewrite Hns in Hns'. injection Hns' as <-.
      destruct (Hall v Hv Hs) as [Ht|Hlt].
      * by eapply draws_lookup_infected.
      * by apply (Qlt_not_le beta 1) in Hlt.
Qed.

(** X5. With a transmission probability of 1 or more and a recovery
    probability of 0 or less a step is deterministic: the nodes infected
    after it are the nodes infected before it and the susceptible
    neighbours of the infected nodes of the graph. *)
Theorem certain_transmission_step G curr beta gamma (r : R) new r' :
  (1 <= beta)%Q → (gamma <= 0)%Q →
  step G curr beta gamma r = Ok (new, r') →
  ∀ v, new !! v = Some "I" ↔
       curr !! v = Some "I" ∨
       (curr !! v = Some "S" ∧
        ∃ u ns, u ∈ nodes G ∧ curr !! u = Some "I" ∧
                adj_lookup G u = Some ns ∧ v ∈ ns).
Proof. apply step_certain_transmission. Qed.

(** *** Infection travels along contacts only *)

Lemma step_untouched G curr beta gamma (r : R) new r' (X : node → Prop) :
  contact_closed G X →
  (∀ v, X v → curr !! v ≠ Some "I") →
  step G curr beta gamma r = Ok (new, r') →
  ∀ v, X v → new !! v = curr !! v.
Proof.
  intros Hcl Hfree (evs & -> & Hch)%step_draws v Hv.
  apply commit_lookup_other. intros [w|w v'] He Ht; simpl in Ht; subst.
  - apply (draws_recover _ _ _ _ _ _ Hch) in He as (_ & Hi & _).
    by apply (Hfree v).
  - apply (draws_transmit _ _ _ _ _ _ Hch) in He
      as (_ & Hi & _ & (ns & Hns & Hin) & _).
    apply (Hfree w); [|done]. by eapply Hcl.
Qed.

Lemma run_untouched G status0 beta gamma max_steps (r : R)
    history r' (X : node → Prop) :
  contact_closed G X →
  (∀ v, X v → status0 !! v ≠ Some "I") →
  run_simulation G status0 beta gamma max_steps r = Ok (history, r') →
  ∀ i s, history !! i = Some s → ∀ v, X v → s !! v = status0 !! v.
Proof.
  intros Hcl Hfree Hrun i s Hs.
  destruct (lookup_lt_is_Some_2 history 0) as [s0 Hs0].
  { apply lookup_lt_Some in Hs. lia. }
  pose proof (run_simulation_first _ _ _ _ _ _ _ _ _ Hrun Hs0) as ->.
  apply (run_simulation_rel
           (λ s s', (∀ v, X v → s !! v ≠ Some "I") →
                    ∀ v, X v → s' !! v = s !! v) G beta gamma)
    with (status0 := status0) (max_steps := max_steps) (r := r)
         (history := history) (r' := r') (i := 0) (j := i);
    [done| | |done|lia|done|done|done].
  - intros s1 s2 s3 H12 H23 Hf v Hv. rewrite <- (H12 Hf v Hv).
    apply H23; [|done]. intros w Hw. rewrite (H12 Hf w Hw). by apply Hf.
  - intros s1 r1 s2 r2 Hstep Hf. by eapply step_untouched.
Qed.

(** X6. A group of nodes that is closed under contacts and has no infected
    member at the start is never touched: in every snapshot of the history
    each of its members has its initial state.  An isolated node, or a
    connected component without infection, is such a group. *)
Theorem closed_group_untouched G status0 beta gamma max_steps (r : R)
    history r' (X : node → Prop) :
  contact_closed G X →
  (∀ v, X v → status0 !! v ≠ Some "I") →
  run_simulation G status0 beta gamma max_steps r = Ok (history, r') →
  ∀ i s, history !! i = Some s → ∀ v, X v → s !! v = status0 !! v.
Proof. apply run_untouched. Qed.

(** *** The curves of the counts *)

Lemma trans_counts curr new :
  trans curr new →
  count_status "S" new ≤ count_status "S" curr ∧
  count_status "R" curr ≤ count_status "R" new.
Proof.
  intros Ht. rewrite !count_status_size.
  split; apply map_subseteq_size, map_subseteq_spec; intros v x;
    rewrite !map_lookup_filter_Some; simpl; intros [Hx ->];
    (split; [|done]); destruct (Ht v) as [E|[[E1 E2]|[E1 E2]]]; congruence.
Qed.

(** X7. Along a history the number of susceptible nodes never grows and the
    number of recovered nodes never shrinks. *)
Theorem counts_monotone G status0 beta gamma max_steps (r : R) history r' :
  run_simulation G status0 beta gamma max_steps r = Ok (history, r') →
  ∀ i j si sj, i ≤ j → history !! i = Some si → history !! j = Some sj →
    count_status "S" sj ≤ count_status "S" si ∧
    count_status "R" si ≤ count_status "R" sj.
Proof.
  intros Hrun i j si sj Hij Hi Hj.
  apply (run_simulation_rel
           (λ s s', count_status "S" s' ≤ count_status "S" s ∧
                    count_status "R" s ≤ count_status "R" s') G beta gamma)
    with (status0 := status0) (max_steps := max_steps) (r := r)
         (history := history) (r' := r') (i := i) (j := j);
    [done|lia| |done..].
  intros s r0 s' r0' Hstep. by eapply trans_counts, step_trans.
Qed.

(** *** The only exception is the missing key *)

Lemma visit_nbrs_result curr beta ns :
  ∀ new (r : R),
    match foldM (visit_nbr curr beta) new ns r with
    | Ok _ => True
    | Raise e => ∃ k, e = KeyError k ∧ curr !! k = None
    end.
Proof.
  induction ns as [|nbr ns IH]; intros new r; simpl; [done|].
  unfold bind at 1, visit_nbr, bind, getitem, ret, raise, rand.
  destruct (curr !! nbr) as [s|] eqn:Hs; [|by exists nbr].
  destruct (decide (s = "S")); [|apply IH].
  destruct (random r) as [x r1]. destruct (Qltb x beta); apply IH.
Qed.

Lemma visit_node_result G curr beta gamma new u (r : R) :
  u ∈ nodes G →
  match visit_node G curr beta gamma new u r with
  | Ok _ => is_Some (curr !! u)
  | Raise e => ∃ k, e = KeyError k ∧ curr !! k = None
  end.
Proof.
  intros Hu. unfold visit_node, bind at 1, getitem, ret at 1, raise.
  destruct (curr !! u) as [s|] eqn:Hs; [|by exists u].
  destruct (decide (s = "I")); [|by eexists].
  unfold bind at 1, rand. destruct (random r) as [x r1].
  destruct (Qltb x gamma); [by eexists|].
  destruct (adj_lookup_nodes G u Hu) as [ns Hns].
  unfold bind, neighbors, ret. rewrite Hns.
  pose proof (visit_nbrs_result curr beta ns new r1) as Hres.
  destruct (foldM (visit_nbr curr beta) new ns r1); [by eexists|done].
Qed.

Lemma visits_result G curr beta gamma l :
  (∀ u, u ∈ l → u ∈ nodes G) →
  ∀ new (r : R),
    match foldM (visit_node G curr beta gamma) new l r with
    | Ok _ => Forall (λ u, is_Some (curr !! u)) l
    | Raise e => ∃ k, e = KeyError k ∧ curr !! k = None
    end.
Proof.
  induction l as [|u l IH]; intros Hl new r; simpl; [done|].
  pose proof (visit_node_result G curr beta gamma new u r) as Hu.
  unfold bind.
  destruct (visit_node G curr beta gamma new u r) as [[new1 r1]|e].
  - specialize (IH (λ u' Hu', Hl u' (list_elem_of_further _ _ _ Hu')) new1 r1).
    destruct (foldM (visit_node G curr beta gamma) new1 l r1); [|done].
    constructor; [|done]. apply Hu, Hl. by left.
  - apply Hu, Hl. by left.
Qed.

Lemma step_result G curr beta gamma (r : R) :
  match step G curr beta gamma r with
  | Ok _ => covers G curr
  | Raise e => ∃ k, e = KeyError k ∧ curr !! k = None
  end.
Proof. unfold step, covers. by apply visits_result. Qed.

Lemma simulate_raise G beta gamma T :
  ∀ history curr (r : R) e,
    simulate G beta gamma T history curr r = Raise e →
    ∃ k, e = KeyError k ∧ curr !! k = None.
Proof.
  induction T as [|T IH]; intros history curr r e; simpl; [done|].
  pose proof (step_result G curr beta gamma r) as Hres.
  intros [Hstep|(new & r1 & Hstep & Hsim)]%bind_Raise; rewrite Hstep in Hres.
  - done.
  - destruct (IH _ _ _ _ Hsim) as (k & -> & Hk). exists k. split; [done|].
    apply step_trans in Hstep.
    apply eq_None_not_Some. intros Hs%(trans_lookup_is_Some _ _ _ Hstep).
    rewrite Hk in Hs. by destruct Hs.
Qed.

(** X8. Whatever the graph and the initial state are, [run_simulation] raises
    nothing but a [KeyError], and for a key the initial state does not
    have; when it returns, for a step count of at least 0, the initial
    state has a value for every node of the graph. *)
Theorem run_simulation_KeyError G status0 beta gamma max_steps (r : R) :
  (∀ e, run_simulation G status0 beta gamma max_steps r = Raise e →
        ∃ k, e = KeyError k ∧ status0 !! k = None) ∧
  ((0 ≤ max_steps)%Z →
   ∀ history r',
     run_simulation G status0 beta gamma max_steps r = Ok (history, r') →
     covers G status0).
Proof.
  unfold run_simulation. split; [intros e; apply simulate_raise|].
  intros Hn history r'.
  destruct (Z.to_nat ((max_steps + 1) * 5)) as [|T] eqn:HT; [lia|]. simpl.
  intros (new & r1 & Hstep & _)%bind_Ok.
  pose proof (step_result G status0 beta gamma r) as Hres.
  by rewrite Hstep in Hres.
Qed.

(** *** The script: build, simulate, display *)

Import UiAdvanceScript.



(** *** Colours and totals *)

Lemma color_blue s : color s = "#1f77b4" ↔ s = "S".
Proof. unfold color. repeat case_decide; subst; split; done. Qed.

Lemma color_red s : color s = "#d62728" ↔ s = "I".
Proof. unfold color. repeat case_decide; subst; split; done. Qed.

Lemma color_green s : color s = "#2ca02c" ↔ s ≠ "S" ∧ s ≠ "I".
Proof.
  unfold color. repeat case_decide; subst; split; try done;
    intros [? ?]; done.
Qed.

(** A count over the values of a state map is a count over the nodes. *)
Lemma count_status_nodes s G (st : gmap node string) :
  NoDup (nodes G) → dom st = list_to_set (nodes G) →
  count_status s st = length (filter (λ u, st !! u = Some s) (nodes G)).
Proof.
  intros Hnd Hd. rewrite count_status_size, <- size_dom.
  rewrite <- (size_list_to_set (C := gset node)) by by apply NoDup_filter.
  f_equal. apply dom_filter_L. intros v.
  rewrite elem_of_list_to_set, list_elem_of_filter. split.
  - intros [Hv Hin]. by exists s.
  - intros (x & Hx & Hp). simpl in Hp. subst x. split; [done|].
    rewrite <- (elem_of_list_to_set (C := gset node)), <- Hd.
    apply elem_of_dom. eauto.
Qed.

Lemma colors_count (c s : string) (l : list node) (st : gmap node string) cs :
  (∀ u x, st !! u = Some x → color x = c ↔ x = s) →
  mapM (λ n, color <$> st !! n) l = Some cs →
  length (filter (λ x, x = c) cs)
  = length (filter (λ u, st !! u = Some s) l).
Proof.
  intros Hc Hcs%mapM_Some.
  induction Hcs as [|u x l cs Hux _ IH]; [done|].
  rewrite !filter_cons.
  destruct (st !! u) as [y|] eqn:Hy; [|done]. injection Hux as <-.
  destruct (decide (y = s)) as [->|Hne].
  - rewrite decide_True by by eapply Hc. rewrite decide_True by done.
    simpl. by rewrite IH.
  - rewrite decide_False by (by rewrite (Hc u y Hy)).
    rewrite decide_False; [done|]. congruence.
Qed.

(** X10. The markers of the plot agree with the totals written under it.  The
    list of colours exists exactly when the state has a value for every
    node of the graph ([status[n]] raises [KeyError] otherwise), it has one
    colour for each node, and when the state maps exactly the nodes of the
    graph the number of blue markers is the total of ['S'] and the number
    of red markers the total of ['I']; the number of green markers is the
    total of ['R'] when every value is ['S'], ['I'] or ['R']. *)
Theorem colors_match_totals G (status : gmap node string) :
  (is_Some (colors G status) ↔ covers G status) ∧
  (NoDup (nodes G) → dom status = list_to_set (nodes G) →
   ∃ cs, colors G status = Some cs ∧
         length cs = length (nodes G) ∧
         length (filter (λ c, c = "#1f77b4") cs) = count_status "S" status ∧
         length (filter (λ c, c = "#d62728") cs) = count_status "I" status ∧
         (sir_valued status →
          length (filter (λ c, c = "#2ca02c") cs) = count_status "R" status)).
Proof.
  split.
  - unfold colors, covers. rewrite mapM_is_Some.
    apply Forall_proper; [|done]. intros u. simpl.
    by rewrite fmap_is_Some.
  - intros Hnd Hd.
    destruct (mapM_is_Some_2 (λ n, color <$> status !! n) (nodes G))
      as [cs Hcs].
    { pose proof (dom_covers _ _ Hd) as Hc. unfold covers in Hc.
      eapply Forall_impl; [exact Hc|]. intros u. simpl.
      by rewrite fmap_is_Some. }
    exists cs. split; [done|]. split; [symmetry; by eapply length_mapM|].
    rewrite !(count_status_nodes _ G status Hnd Hd).
    split_and!.
    + eapply colors_count; [|done]. intros. apply color_blue.
    + eapply colors_count; [|done]. intros. apply color_red.
    + intros Hv. eapply colors_count; [|done]. intros u x Hx.
      rewrite color_green. destruct (Hv u x Hx) as [-> | [-> | ->]];
        split; try done; intros [? ?]; done.
Qed.


(** *** The two extreme edge probabilities *)

Lemma adj_lookup_fmap (g : node → list node) (l : list node) u :
  u ∈ l → adj_lookup ((λ u, (u, g u)) <$> l) u = Some (g u).
Proof.
  induction l as [|w l IH]; intros Hu; [by apply elem_of_nil in Hu|].
  csimpl. destruct (decide (u = w)) as [->|Hne]; [done|].
  apply IH. apply elem_of_cons in Hu as [?|?]; done.
Qed.

Lemma adj_lookup_graph_of_edges n es u ns :
  adj_lookup (graph_of_edges n es) u = Some ns →
  u < n ∧ ∀ v, v ∈ ns ↔ v < n ∧ ((u, v) ∈ es ∨ (v, u) ∈ es).
Proof.
  intros Hl.
  assert (Hu : u ∈ seq 0 n).
  { rewrite <- (nodes_graph_of_edges n es). apply adj_lookup_elem in Hl.
    unfold nodes. apply list_elem_of_fmap. by exists (u, ns). }
  unfold graph_of_edges in Hl.
  rewrite (adj_lookup_fmap
             (λ u, filter (λ v, (u, v) ∈ es ∨ (v, u) ∈ es) (seq 0 n)))
    in Hl by done.
  injection Hl as <-. apply elem_of_seq in Hu. split; [lia|].
  intros v. rewrite list_elem_of_filter, elem_of_seq.
  split; intros [? ?]; split; try done; lia.
Qed.

Lemma elem_of_combinations2 n u v :
  (u, v) ∈ combinations2 n ↔ u < v < n.
Proof.
  unfold combinations2. rewrite list_elem_of_bind. split.
  - intros (w & Hv & Hw). apply list_elem_of_fmap in Hv as (v' & [= -> ->] & Hv').
    apply elem_of_seq in Hv', Hw. lia.
  - intros Huv. exists u. split.
    + apply list_elem_of_fmap. exists v. split; [done|].
      apply elem_of_seq. lia.
    + apply elem_of_seq. lia.
Qed.

Lemma erdos_renyi_graph_extremes n p (r : R) :
  ((p <= 0)%Q → erdos_renyi_graph n p r = Ok (graph_of_edges n [], r)) ∧
  ((1 <= p)%Q →
   erdos_renyi_graph n p r = Ok (graph_of_edges n (combinations2 n), r)).
Proof.
  unfold erdos_renyi_graph. split; intros Hp.
  - apply Qle_bool_iff in Hp. by rewrite Hp.
  - destruct (Qle_bool p 0) eqn:E0.
    + apply Qle_bool_iff in E0. exfalso.
      apply (Qlt_irrefl 0). eapply Qlt_le_trans; [|exact E0].
      eapply Qlt_le_trans; [|exact Hp]. done.
    + apply Qle_bool_iff in Hp. by rewrite Hp.
Qed.

(** What the script gets from [initialize_network] when it succeeds. *)
Lemma build_and_simulate_Ok num_nodes edge_prob beta gamma init_inf_frac
    steps (r : R) G history r' :
  build_and_simulate num_nodes edge_prob beta gamma init_inf_frac steps r
    = Ok ((G, history), r') →
  ∃ status0 r1,
    initialize_network num_nodes edge_prob init_inf_frac r
      = Ok ((G, status0), r1) ∧
    run_simulation G status0 beta gamma steps r1 = Ok (history, r').
Proof.
  unfold build_and_simulate.
  intros ([G0 st0] & r1 & Hinit & Hk)%bind_Ok.
  apply bind_Ok in Hk as (h & r2 & Hrun & Hret). simpl in *.
  injection Hret as <- <- <-. by exists st0, r1.
Qed.

Lemma initialize_network_Ok n p init_frac (r : R) G status0 r' es r1 :
  erdos_renyi_graph n p r = Ok (graph_of_edges n es, r1) →
  initialize_network n p init_frac r = Ok ((G, status0), r') →
  G = graph_of_edges n es ∧
  ∃ infected, status0 = status_of n infected ∧ infected ≠ [] ∧
              Forall (λ i, i < n) infected.
Proof.
  intros HG. rewrite (initialize_network_unfold n p init_frac r es r1 HG).
  destruct (decide (initial_infected n init_frac ≤ Z.of_nat n)%Z) as [Hk|Hk].
  - destruct (sample_seq n (initial_infected n init_frac) r1)
      as (infected & r2 & Hs & _ & Hlen & Hlt).
    { unfold initial_infected in *. lia. }
    rewrite Hs. intros [= <- <- <-]. split; [done|].
    exists infected. split_and!; [done| |done].
    intros ->. simpl in Hlen. unfold initial_infected in Hlen. lia.
  - rewrite sample_too_many; [done|]. rewrite length_seq. lia.
Qed.

(** X11. With an edge probability of 0 or less the graph has no edge and the
    infection does not spread: in every snapshot of the script's history
    a node that is not infected at the start has its initial state. *)
Theorem no_edges_no_spread num_nodes edge_prob beta gamma init_inf_frac
    steps (r : R) G history r' :
  (edge_prob <= 0)%Q →
  build_and_simulate num_nodes edge_prob beta gamma init_inf_frac steps r
    = Ok ((G, history), r') →
  ∀ i s0 s, history !! 0 = Some s0 → history !! i = Some s →
    ∀ v, s0 !! v ≠ Some "I" → s !! v = s0 !! v.
Proof.
  intros Hp (status0 & r1 & Hinit & Hrun)%build_and_simulate_Ok i s0 s H0 Hi.
  pose proof (run_simulation_first _ _ _ _ _ _ _ _ _ Hrun H0) as ->.
  destruct (erdos_renyi_graph_extremes num_nodes edge_prob r) as [HG _].
  apply (initialize_network_Ok _ _ _ _ _ _ _ _ _ (HG Hp)) in Hinit as [-> _].
  intros v Hv.
  apply (run_untouched _ _ _ _ _ _ _ _ (λ v, status0 !! v ≠ Some "I"))
    with (i := i) (s := s) (v := v) in Hrun; try done.
  intros u ns w Hns Hw _.
  apply adj_lookup_graph_of_edges in Hns as [_ Hns].
  apply Hns in Hw as [_ [Hw|Hw]]; by apply elem_of_nil in Hw.
Qed.

(** X12. With an edge probability of 1 or more the graph is complete, and with
    a transmission probability of 1 or more and a recovery probability of
    0 or less every node is infected from the first step on. *)
Theorem complete_graph_all_infected num_nodes edge_prob beta gamma
    init_inf_frac steps (r : R) G history r' :
  (1 <= edge_prob)%Q → (1 <= beta)%Q → (gamma <= 0)%Q →
  build_and_simulate num_nodes edge_prob beta gamma init_inf_frac steps r
    = Ok ((G, history), r') →
  ∀ i s, 1 ≤ i → history !! i = Some s →
    ∀ v, v < num_nodes → s !! v = Some "I".
Proof.
  intros Hp Hb Hg (status0 & r1 & Hinit & Hrun)%build_and_simulate_Ok
    i s Hi Hs v Hv.
  destruct (erdos_renyi_graph_extremes num_nodes edge_prob r) as [_ HG].
  apply (initialize_network_Ok _ _ _ _ _ _ _ _ _ (HG Hp)) in Hinit
    as (-> & infected & -> & Hne & Hlt).
  destruct (lookup_lt_is_Some_2 history 1) as [s1 Hs1].
  { apply lookup_lt_Some in Hs. lia. }
  assert (Hv1 : s1 !! v = Some "I").
  { pose proof Hrun as Hrun'. unfold run_simulation in Hrun'.
    apply simulate_spec in Hrun' as (l & -> & _ & Hl). simpl in Hs1.
    destruct (Hl 1 s1 Hs1) as [r2 Hstep]. simpl in Hstep.
    apply bind_Ok in Hstep as (s1' & r3 & Hstep & [= -> ->]).
    apply (step_certain_transmission _ _ _ _ _ _ _ Hb Hg Hstep).
    rewrite status_of_lookup by done. rewrite decide_True by done.
    case_decide as Hin; [by left|right].
    split; [done|].
    destruct infected as [|u0 infected]; [done|].
    assert (Hu0 : u0 < num_nodes) by (by apply Forall_cons in Hlt as [? _]).
    exists u0, (filter (λ w, (u0, w) ∈ combinations2 num_nodes
                            ∨ (w, u0) ∈ combinations2 num_nodes)
                  (seq 0 num_nodes)).
    split_and!.
    - rewrite nodes_graph_of_edges. apply elem_of_seq. lia.
    - rewrite status_of_lookup by done. rewrite decide_True by done.
      rewrite decide_True; [done|by left].
    - unfold graph_of_edges. apply adj_lookup_fmap, elem_of_seq. lia.
    - apply list_elem_of_filter. split; [|apply elem_of_seq; lia].
      rewrite !elem_of_combinations2.
      assert (u0 ≠ v) by (intros ->; apply Hin; by left). lia. }
  assert (Hrel : no_recovery s1 s).
  { apply (run_simulation_rel no_recovery
             (graph_of_edges num_nodes (combinations2 num_nodes)) beta gamma
             no_recovery_refl no_recovery_trans)
      with (status0 := status_of num_nodes infected) (max_steps := steps)
           (r := r1) (history := history) (r' := r') (i := 1) (j := i);
      [|done..].
    intros. by eapply step_no_recovery. }
  destruct (Hrel v) as [E|[_ E]]; [exact (eq_trans E Hv1)|exact E].
Qed.

End Draws.

(** * Further properties of the rate function *)

Section RateMore.
Import UiBasic UiBasicScript.
Local Open Scope Q_scope.





(** *** The derivatives, when they exist *)








End RateMore.

(** * The further properties on concrete inputs *)

Section ConcreteMore.
Import UiAdvance UiAdvanceScript Spread Inputs MoreInputs.

Ltac by_computation :=
  unfold graph_wf, covers, sir_valued;
  apply (bool_decide_unpack _); vm_compute; exact I.

Lemma zero_beta_no_infection_witness :
  ∃ history r' si sj,
    run_simulation star3 status3 0 (1 # 4) 0 seed5 = Ok (history, r') ∧
    history !! 0 = Some si ∧ history !! 4 = Some sj ∧
    no_infection si sj ∧
    (∀ v, si !! v = Some "S" → sj !! v = Some "S") ∧
    (∀ v, sj !! v = Some "I" → si !! v = Some "I").
Proof.
  do 4 eexists. split; [vm_compute; reflexivity|].
  split; [reflexivity|]. split; [reflexivity|].
  eapply (zero_beta_no_infection (R := nat) star3 status3 0 (1 # 4) 0 seed5)
    with (i := 0) (j := 4);
    [discriminate|vm_compute; reflexivity|lia|reflexivity|reflexivity].
Defined.

Lemma zero_gamma_no_recovery_witness :
  ∃ history r' si sj,
    run_simulation star3 status3 (1 # 2) 0 0 seed5 = Ok (history, r') ∧
    history !! 0 = Some si ∧ history !! 4 = Some sj ∧
    no_recovery si sj ∧
    (∀ v, si !! v = Some "I" → sj !! v = Some "I") ∧
    (∀ v, sj !! v = Some "R" → si !! v = Some "R").
Proof.
  do 4 eexists. split; [vm_compute; reflexivity|].
  split; [reflexivity|]. split; [reflexivity|].
  eapply (zero_gamma_no_recovery (R := nat) star3 status3 (1 # 2) 0 0 seed5)
    with (i := 0) (j := 4);
    [discriminate|vm_compute; reflexivity|lia|reflexivity|reflexivity].
Defined.

(** A state of the star in which the centre has recovered. *)
Lemma disease_free_absorbing_witness :
  step star3 (<[0 := "R"]> status3) (1 # 2) (1 # 4) seed5
  = Ok (<[0 := "R"]> status3, seed5).
Proof.
  destruct (disease_free_absorbing (R := nat) star3 (1 # 2) (1 # 4))
    as [Hstep _].
  assert (Hdf : disease_free star3 (<[0 := "R"]> status3)).
  { intros u Hu. apply list_elem_of_In in Hu. simpl in Hu.
    destruct Hu as [<-|[<-|[<-|[]]]]; vm_compute; discriminate. }
  destruct (step star3 (<[0 := "R"]> status3) (1 # 2) (1 # 4) seed5)
    as [[new r']|e] eqn:E; [|vm_compute in E; discriminate].
  by destruct (Hstep _ _ _ _ Hdf E) as [-> ->].
Defined.

Lemma certain_recovery_ends_epidemic_witness :
  ∃ history r' s,
    run_simulation star3 status3 (1 # 2) 1 0 seed5 = Ok (history, r') ∧
    history !! 2 = Some s ∧
    disease_free star3 s ∧
    ∀ v, s !! v = if decide (v ∈ nodes star3 ∧ status3 !! v = Some "I")
                  then Some "R" else status3 !! v.
Proof.
  do 3 eexists. split; [vm_compute; reflexivity|]. split; [reflexivity|].
  eapply (certain_recovery_ends_epidemic (R := nat) star3 status3 (1 # 2) 1
            0 seed5) with (i := 2);
    [discriminate|vm_compute; reflexivity|lia|reflexivity].
Defined.

Lemma certain_transmission_step_witness :
  ∃ new r',
    step star3 status3 1 0 seed5 = Ok (new, r') ∧
    ∀ v, new !! v = Some "I" ↔
         status3 !! v = Some "I" ∨
         (status3 !! v = Some "S" ∧
          ∃ u ns, u ∈ nodes star3 ∧ status3 !! u = Some "I" ∧
                  adj_lookup star3 u = Some ns ∧ v ∈ ns).
Proof.
  do 2 eexists. split; [vm_compute; reflexivity|].
  eapply (certain_transmission_step (R := nat) star3 status3 1 0 seed5);
    [discriminate|discriminate|vm_compute; reflexivity].
Defined.

Lemma closed_group_untouched_witness :
  ∃ history r' s,
    run_simulation star_and_isolated status4 1 (1 # 4) 0 seed5
      = Ok (history, r') ∧
    history !! 4 = Some s ∧
    ∀ v, v = 3 → s !! v = status4 !! v.
Proof.
  do 3 eexists. split; [vm_compute; reflexivity|]. split; [reflexivity|].
  eapply (closed_group_untouched (R := nat) star_and_isolated status4
            1 (1 # 4) 0 seed5 _ _ (λ v, v = 3))
    with (i := 4); [| |vm_compute; reflexivity|reflexivity].
  - intros u ns v Hns Hv ->.
    destruct u as [|[|[|[|u]]]]; vm_compute in Hns;
      [injection Hns as <-; apply list_elem_of_In in Hv; simpl in Hv;
       intuition lia..|discriminate].
  - intros v ->. vm_compute. discriminate.
Defined.

Lemma counts_monotone_witness :
  ∃ history r' si sj,
    run_simulation star3 status3 (1 # 2) (1 # 4) 0 seed5 = Ok (history, r') ∧
    history !! 1 = Some si ∧ history !! 3 = Some sj ∧
    count_status "S" sj ≤ count_status "S" si ∧
    count_status "R" si ≤ count_status "R" sj.
Proof.
  do 4 eexists. split; [vm_compute; reflexivity|].
  split; [reflexivity|]. split; [reflexivity|].
  eapply (counts_monotone (R := nat) star3 status3 (1 # 2) (1 # 4) 0 seed5)
    with (i := 1) (j := 3);
    [vm_compute; reflexivity|lia|reflexivity|reflexivity].
Defined.

(** A state that lacks the nodes 1 and 2 of the star: the centre recovers,
    then node 1 is read. *)
Lemma run_simulation_KeyError_witness :
  (∃ k, KeyError 1 = KeyError k ∧ ({[0 := "I"]} : gmap node string) !! k = None) ∧
  covers star3 status3.
Proof.
  split.
  - destruct (run_simulation_KeyError (R := nat) star3 {[0 := "I"]}
                (1 # 2) 1 1 seed5) as [Hraise _].
    apply Hraise. vm_compute. reflexivity.
  - destruct (run_simulation_KeyError (R := nat) star3 status3
                (1 # 2) (1 # 4) 1 seed5) as [_ Hok].
    eapply Hok; [lia|vm_compute; reflexivity].
Defined.


Lemma colors_match_totals_witness :
  ∃ cs, colors star3 status3 = Some cs ∧
        length cs = length (nodes star3) ∧
        length (filter (λ c, c = "#1f77b4") cs) = count_status "S" status3 ∧
        length (filter (λ c, c = "#d62728") cs) = count_status "I" status3 ∧
        (sir_valued status3 →
         length (filter (λ c, c = "#2ca02c") cs) = count_status "R" status3).
Proof.
  destruct (colors_match_totals star3 status3) as [_ H].
  apply H; by_computation.
Defined.

Lemma no_edges_no_spread_witness :
  ∃ G history r' s0 s,
    build_and_simulate 3 0 (1 # 2) (1 # 4) (1 # 2) 0 seed5
      = Ok ((G, history), r') ∧
    history !! 0 = Some s0 ∧ history !! 4 = Some s ∧
    ∀ v, s0 !! v ≠ Some "I" → s !! v = s0 !! v.
Proof.
  do 5 eexists. split; [vm_compute; reflexivity|].
  split; [reflexivity|]. split; [reflexivity|].
  eapply (no_edges_no_spread (R := nat) 3 0 (1 # 2) (1 # 4) (1 # 2) 0 seed5)
    with (i := 4);
    [discriminate|vm_compute; reflexivity|reflexivity|reflexivity].
Defined.

Lemma complete_graph_all_infected_witness :
  ∃ G history r' s,
    build_and_simulate 3 1 1 0 (1 # 2) 0 seed5 = Ok ((G, history), r') ∧
    history !! 1 = Some s ∧
    ∀ v, v < 3 → s !! v = Some "I".
Proof.
  do 4 eexists. split; [vm_compute; reflexivity|]. split; [reflexivity|].
  eapply (complete_graph_all_infected (R := nat) 3 1 1 0 (1 # 2) 0 seed5)
    with (i := 1);
    [discriminate|discriminate|discriminate|vm_compute; reflexivity|lia
    |reflexivity].
Defined.

Import UiBasic UiBasicScript.
Local Open Scope Q_scope.








End ConcreteMore.
